(** * compose/parallel.py: dependency-ordered parallel execution

    A shallow embedding of [compose/parallel.py].  The scheduling state
    ([State]), the admission pass ([feed_queue]), the worker entry point
    ([producer]) and the coordinator loop ([parallel_execute_iter]) are
    modelled as a transition system in which worker threads and the
    coordinator interleave; the progress writer ([ParallelStreamWriter]) and
    the aggregation loop of [parallel_execute] are modelled as functions on
    the sequence of events the coordinator yields.  The operations on
    containers ([parallel_operation], [parallel_remove] and the others)
    come last. *)

From stdpp Require Import gmap strings list relations.
From Stdlib Require Import Ascii DecimalString.

Set Default Proof Using "Type".

(** ** Events and the scheduling state *)

Section events.
Context {Obj Res Err : Type}.

(** The exceptions [parallel_execute] tells apart with [isinstance]; every
    other exception a work function raises is an [OtherError].  Work
    functions are taken to raise subclasses of [Exception] only, which is
    what [producer] catches. *)
Inductive exn :=
  | APIError (explanation : string)
  | OperationFailedError (msg : string)
  | UpstreamError
  | OtherError (e : Err).

(** The tuples [(obj, result, exception)] put on the results queue. *)
Definition event : Type := Obj * option Res * option exn.

Definition ev_obj (ev : event) : Obj := ev.1.1.
Definition ev_result (ev : event) : option Res := ev.1.2.
Definition ev_exception (ev : event) : option exn := ev.2.

(** What travels on the queue: an event, or the sentinel [STOP]. *)
Inductive item :=
  | Ev (ev : event)
  | STOP.

Definition item_objs (q : list item) : list Obj :=
  omap (λ it, match it with Ev ev => Some (ev_obj ev) | STOP => None end) q.
End events.

Arguments exn : clear implicits.
Arguments event : clear implicits.
Arguments item : clear implicits.

#[global] Instance exn_eq_dec {Err : Type} `{EqDecision Err} :
  EqDecision (exn Err).
Proof. solve_decision. Defined.

(** Where the coordinator's control is: about to call [feed_queue], blocked in
    [results.get(timeout=0.1)], or out of the loop after [STOP]. *)
Inductive loc := AtFeed | AtGet | Stopped.

#[global] Instance loc_eq_dec : EqDecision loc.
Proof. solve_decision. Defined.

(** ** Dicts

    A dict with string keys, as Python has it from version 3.7 on: the
    items are kept in the order in which the keys were first inserted;
    [d[k] = v] replaces the value of a key that is present, where it stands,
    and puts a new key at the end; [d.items()] iterates in that order. *)
Record dict (V : Type) := Dict { items : list (string * V) }.

Arguments Dict {V} _.
Arguments items {V} _.

Fixpoint getitem {V : Type} (k : string) (l : list (string * V)) : option V :=
  match l with
  | [] => None
  | (k', v) :: l' => if decide (k' = k) then Some v else getitem k l'
  end.

Fixpoint setitem {V : Type} (k : string) (v : V) (l : list (string * V))
    : list (string * V) :=
  match l with
  | [] => [(k, v)]
  | (k', v') :: l' =>
      if decide (k' = k) then (k, v) :: l' else (k', v') :: setitem k v l'
  end.

#[global] Instance dict_empty {V : Type} : Empty (dict V) := Dict [].

#[global] Instance dict_lookup {V : Type} : Lookup string V (dict V) :=
  λ k d, getitem k (items d).

#[global] Instance dict_insert {V : Type} : Insert string V (dict V) :=
  λ k v d, Dict (setitem k v (items d)).

(** ** Sample inputs

    Objects are numbers.  [chain_deps]: 1 depends on 0 and 2 on 1, as in a
    start-up order.  [cycle_deps]: 1 and 2 depend on each other and 1 also
    on 0.  [outside_deps]: 1 depends on 7, which is not an object of the
    run. *)

Definition chain_deps (o : nat) : list nat :=
  match o with
  | 1 => [0]
  | 2 => [1]
  | _ => []
  end.

Definition cycle_deps (o : nat) : list nat :=
  match o with
  | 1 => [2; 0]
  | 2 => [1]
  | _ => []
  end.

Definition outside_deps (o : nat) : list nat :=
  match o with
  | 1 => [7]
  | _ => []
  end.

Definition work_ok (o : nat) : nat + exn string := inl (10 * o).

Definition work_fail0 (o : nat) : nat + exn string :=
  match o with
  | 0 => inr (OtherError "boom")
  | _ => inl (10 * o)
  end.

Definition name_of (o : nat) : string :=
  match o with
  | 0 => "web"
  | 1 => "db"
  | _ => "cache"
  end.

Definition str_of (e : exn string) : string :=
  match e with
  | APIError explanation => explanation
  | OperationFailedError msg => msg
  | UpstreamError => EmptyString
  | OtherError e => e
  end.

Section parallel.
Context {Obj : Type} `{Countable Obj}.
Context {Res Err : Type}.

Abbreviation exn := (exn Err).
Abbreviation event := (event Obj Res Err).
Abbreviation item := (item Obj Res Err).

(** [class State]: [self.objects] is never reassigned, so it is the
    section variable [objects]; the three sets are the record. *)
Record State := mkState {
  started : gset Obj;
  finished : gset Obj;
  failed : gset Obj;
}.

Definition State_init : State :=
  {| started := ∅; finished := ∅; failed := ∅ |}.

(** The whole run: [state], the [results] queue (front first), the
    producer threads that were started and have not yet put their event,
    the log of objects [func] was called on, the events yielded so far and
    the coordinator's location. *)
Record run := mkRun {
  state : State;
  results : list item;
  threads : list Obj;
  invoked : list Obj;
  yielded : list event;
  pc : loc;
}.

(** [_no_deps]: the dependency function used when none is given. *)
Definition _no_deps (x : Obj) : list Obj := [].

(** [if get_deps is None: get_deps = _no_deps], the first lines of
    [parallel_execute_iter]. *)
Definition resolve_get_deps (get_deps : option (Obj → list Obj))
    : Obj → list Obj :=
  match get_deps with
  | None => _no_deps
  | Some get_deps => get_deps
  end.

Variable objects : list Obj.
Variable func : Obj → Res + exn.
Variable get_deps : Obj → list Obj.

Definition is_done (st : State) : bool :=
  bool_decide (length objects ≤ size (finished st) + size (failed st)).

Definition pending (st : State) : gset Obj :=
  list_to_set objects ∖ started st ∖ finished st ∖ failed st.

Definition run_init : run :=
  {| state := State_init; results := []; threads := []; invoked := [];
     yielded := []; pc := AtFeed |}.

(** [producer]: call [func], put the outcome. *)
Definition producer (obj : Obj) : event :=
  match func obj with
  | inl result => (obj, Some result, None)
  | inr e => (obj, None, Some e)
  end.

(** The body of the [for obj in pending] loop of [feed_queue]. *)
Definition feed_one (r : run) (obj : Obj) : run :=
  let deps := get_deps obj in
  let st := state r in
  if existsb (λ dep, bool_decide (dep ∈ failed st)) deps then
    {| state := {| started := started st; finished := finished st;
                   failed := {[obj]} ∪ failed st |};
       results := results r ++ [Ev (obj, None, Some UpstreamError)];
       threads := threads r; invoked := invoked r;
       yielded := yielded r; pc := pc r |}
  else if forallb (λ dep, negb (bool_decide (dep ∈ objects))
                          || bool_decide (dep ∈ finished st)) deps then
    {| state := {| started := {[obj]} ∪ started st; finished := finished st;
                   failed := failed st |};
       results := results r;
       threads := threads r ++ [obj]; invoked := invoked r;
       yielded := yielded r; pc := pc r |}
  else r.

Definition put_stop_if_done (r : run) : run :=
  if is_done (state r) then
    {| state := state r; results := results r ++ [STOP];
       threads := threads r; invoked := invoked r;
       yielded := yielded r; pc := pc r |}
  else r.

(** [feed_queue]: [order] is the order in which the set [pending] happens
    to be iterated. *)
Definition feed_queue (order : list Obj) (r : run) : run :=
  put_stop_if_done (foldl feed_one r order).

Definition set_pc (l : loc) (r : run) : run :=
  {| state := state r; results := results r; threads := threads r;
     invoked := invoked r; yielded := yielded r; pc := l |}.

(** The coordinator's bookkeeping for a received event. *)
Definition record_event (ev : event) (st : State) : State :=
  match ev_exception ev with
  | None => {| started := started st; finished := {[ev_obj ev]} ∪ finished st;
               failed := failed st |}
  | Some _ => {| started := started st; finished := finished st;
                 failed := {[ev_obj ev]} ∪ failed st |}
  end.

(** One turn of [results.get] and what follows it in the loop body. *)
Definition get_step (r : run) : run :=
  match results r with
  | [] => set_pc AtFeed r
  | STOP :: q =>
      {| state := state r; results := q; threads := threads r;
         invoked := invoked r; yielded := yielded r; pc := Stopped |}
  | Ev ev :: q =>
      {| state := record_event ev (state r); results := q;
         threads := threads r; invoked := invoked r;
         yielded := yielded r ++ [ev]; pc := AtFeed |}
  end.

(** A producer thread runs to completion. *)
Definition producer_step (t1 : list Obj) (obj : Obj) (t2 : list Obj)
    (r : run) : run :=
  {| state := state r; results := results r ++ [Ev (producer obj)];
     threads := t1 ++ t2; invoked := invoked r ++ [obj];
     yielded := yielded r; pc := pc r |}.

(** The interleavings of the coordinator with the producer threads. *)
Inductive step : run → run → Prop :=
  | step_feed r order :
      pc r = AtFeed →
      NoDup order →
      list_to_set order = pending (state r) →
      step r (set_pc AtGet (feed_queue order r))
  | step_get r :
      pc r = AtGet →
      step r (get_step r)
  | step_producer r t1 obj t2 :
      threads r = t1 ++ obj :: t2 →
      step r (producer_step t1 obj t2 r).

Definition reachable (r : run) : Prop := rtc step run_init r.

(** The timeout of [results.get]: the queue stayed empty for the whole wait.
    It is the only step that is pure waiting. *)
Definition is_timeout (r : run) : Prop := pc r = AtGet ∧ results r = [].

(** *** Schedules

    An executable rendering of [step]: a schedule is the list of choices the
    environment makes (the iteration order of [pending], which thread
    finishes next). *)
Inductive choice :=
  | Feed (order : list Obj)
  | Get
  | Produce (i : nat).

Definition sched_step (c : choice) (r : run) : option run :=
  match c with
  | Feed order =>
      if decide (pc r = AtFeed ∧ NoDup order
                 ∧ list_to_set order = pending (state r))
      then Some (set_pc AtGet (feed_queue order r)) else None
  | Get => if decide (pc r = AtGet) then Some (get_step r) else None
  | Produce i =>
      match threads r !! i with
      | Some obj =>
          Some (producer_step (take i (threads r)) obj
                  (drop (S i) (threads r)) r)
      | None => None
      end
  end.

Fixpoint sched (cs : list choice) (r : run) : option run :=
  match cs with
  | [] => Some r
  | c :: cs' =>
      match sched_step c r with
      | Some r' => sched cs' r'
      | None => None
      end
  end.

(** The run a schedule leads to (the initial run when the schedule cannot
    be followed). *)
Definition sched_run (cs : list choice) : run :=
  default run_init (sched cs run_init).

(** *** The dependency graph restricted to the universe *)

Definition dep_edge (o d : Obj) : Prop :=
  o ∈ objects ∧ d ∈ objects ∧ d ∈ get_deps o.

Definition has_cycle : Prop := ∃ o, tc dep_edge o o.

Definition acyclic : Prop := ∀ o, ¬ tc dep_edge o o.

(** A checkable certificate of acyclicity: a rank that strictly decreases
    along every dependency inside the universe. *)
Definition ranked (rank : Obj → nat) : bool :=
  forallb (λ o,
    forallb (λ d, negb (bool_decide (d ∈ objects))
                  || bool_decide (rank d < rank o)) (get_deps o)) objects.

(** *** Bookkeeping used by the proofs *)

Definition universe : gset Obj := list_to_set objects.

Definition qobjs (r : run) : list Obj := item_objs (results r).
Definition yobjs (r : run) : list Obj := ev_obj <$> yielded r.

(** An object is in flight when it was started and is not yet terminal. *)
Definition in_flight (st : State) (o : Obj) : Prop :=
  o ∈ started st ∧ (o ∉ finished st) ∧ (o ∉ failed st).

(** What is left to do: a pending object still has to be admitted, run and
    consumed; a running one to put its event and be consumed; a queued event
    to be consumed. *)
Definition work_left (r : run) : nat :=
  3 * size (pending (state r)) + 2 * length (threads r) + length (qobjs r).

Definition measure (r : run) : nat :=
  match pc r with
  | Stopped => 0
  | AtGet => 2 * work_left r + 1
  | AtFeed => 2 * work_left r + 2
  end.

(** The invariant of the transition system. *)
Record inv (r : run) : Prop := mkInv {
  inv_started : started (state r) ⊆ universe;
  inv_failed : failed (state r) ⊆ universe;
  inv_finished : finished (state r) ⊆ started (state r);
  inv_disjoint : finished (state r) ## failed (state r);
  inv_nodup : NoDup (threads r ++ qobjs r ++ yobjs r);
  inv_account : ∀ o, o ∈ threads r ++ qobjs r ++ yobjs r
                     ↔ o ∈ started (state r) ∪ failed (state r);
  inv_threads : ∀ o, o ∈ threads r →
                  (o ∉ finished (state r)) ∧ (o ∉ failed (state r));
  inv_queue : ∀ o, o ∈ qobjs r →
                (o ∉ finished (state r))
                ∧ (o ∈ failed (state r) → o ∉ started (state r));
  inv_queue_exc : ∀ ev, Ev ev ∈ results r → ev_obj ev ∈ failed (state r) →
                    ev_exception ev ≠ None;
  inv_yielded : ∀ ev, ev ∈ yielded r →
                  if ev_exception ev is None
                  then ev_obj ev ∈ finished (state r)
                  else ev_obj ev ∈ failed (state r);
  inv_invoked : ∀ o, o ∈ invoked r → o ∈ started (state r);
  inv_invoked_nodup : NoDup (threads r ++ invoked r);
  inv_shape : ∃ evs n, results r = (Ev <$> evs) ++ replicate n STOP
                       ∧ (0 < n → is_done (state r) = true);
  inv_stopped : pc r = Stopped →
                  is_done (state r) = true ∧ qobjs r = [];
  inv_sn : ∀ o, o ∈ started (state r) → sn dep_edge o;
}.

(** What the admission pass leaves behind while the coordinator waits. *)
Record inv_get (r : run) : Prop := mkInvGet {
  ig_stop : is_done (state r) = true → STOP ∈ results r;
  ig_blocked : ∀ o, o ∈ pending (state r) →
                 ∃ d, d ∈ get_deps o ∧ d ∈ objects ∧ d ∉ finished (state r);
  ig_cascade : ∀ o d, o ∈ pending (state r) → d ∈ get_deps o →
                 d ∈ failed (state r) → d ∈ qobjs r;
}.

(** The three ways the loop body can go. *)
Inductive feed_case (r : run) (o : Obj) : run → Prop :=
  | feed_upstream d :
      d ∈ get_deps o → d ∈ failed (state r) →
      feed_case r o
        {| state := {| started := started (state r);
                       finished := finished (state r);
                       failed := {[o]} ∪ failed (state r) |};
           results := results r ++ [Ev (o, None, Some UpstreamError)];
           threads := threads r; invoked := invoked r;
           yielded := yielded r; pc := pc r |}
  | feed_launch :
      (∀ d, d ∈ get_deps o → d ∉ failed (state r)) →
      (∀ d, d ∈ get_deps o → d ∈ objects → d ∈ finished (state r)) →
      feed_case r o
        {| state := {| started := {[o]} ∪ started (state r);
                       finished := finished (state r);
                       failed := failed (state r) |};
           results := results r;
           threads := threads r ++ [o]; invoked := invoked r;
           yielded := yielded r; pc := pc r |}
  | feed_wait d :
      (∀ d, d ∈ get_deps o → d ∉ failed (state r)) →
      d ∈ get_deps o → d ∈ objects → d ∉ finished (state r) →
      feed_case r o r.

(** How an admission pass that starts in [r] may have changed the run. *)
Record feed_ext (r r' : run) : Prop := mkFeedExt {
  fe_finished : finished (state r') = finished (state r);
  fe_started : started (state r) ⊆ started (state r');
  fe_failed : failed (state r) ⊆ failed (state r');
  fe_launched : ∀ o, o ∈ started (state r') → o ∉ started (state r) →
                  o ∈ pending (state r) ∧ o ∈ threads r'
                  ∧ (∀ d, d ∈ get_deps o → d ∈ objects →
                       d ∈ finished (state r));
  fe_upstream : ∀ o, o ∈ failed (state r') → o ∉ failed (state r) →
                  o ∈ pending (state r)
                  ∧ Ev (o, None, Some UpstreamError) ∈ results r'
                  ∧ ∃ d, d ∈ get_deps o ∧ d ∈ failed (state r');
  fe_threads : ∀ o, o ∈ threads r' →
                 o ∈ threads r
                 ∨ (o ∈ started (state r') ∧ o ∉ started (state r));
  fe_results : ∃ evs, results r' = results r ++ (Ev <$> evs)
                 ∧ ∀ ev, ev ∈ evs →
                     ev = (ev_obj ev, None, Some UpstreamError)
                     ∧ ev_obj ev ∈ failed (state r')
                     ∧ ev_obj ev ∉ failed (state r);
  fe_yielded : yielded r' = yielded r;
  fe_invoked : invoked r' = invoked r;
  fe_pc : pc r' = pc r;
}.

(** Where an event comes from: it is what [producer] puts for an object
    that was started and on which the work function has been called, or the
    upstream-failure triple of an object that was never started. *)
Definition event_origin (r : run) (ev : event) : Prop :=
  (ev_obj ev ∈ started (state r) ∧ ev_obj ev ∈ invoked r
   ∧ ev = producer (ev_obj ev))
  ∨ ((ev_obj ev ∉ started (state r))
     ∧ ev = (ev_obj ev, None, Some UpstreamError)).

(** *** Executions, for counting how often an object enters a set *)

Fixpoint is_path (r : run) (p : list run) : Prop :=
  match p with
  | [] => True
  | r' :: p' => step r r' ∧ is_path r' p'
  end.

Fixpoint entries (S : State → gset Obj) (o : Obj) (r : run) (p : list run)
    : nat :=
  match p with
  | [] => 0
  | r' :: p' =>
      (if decide ((o ∉ S (state r)) ∧ o ∈ S (state r')) then 1 else 0)
      + entries S o r' p'
  end.

(** ** The progress writer *)

Definition ESC : string := String "027"%char EmptyString.
Definition CR : string := String "013"%char EmptyString.
Definition LF : string := String "010"%char EmptyString.

(** [%d] of a non-negative integer. *)
Definition fmt_d (n : nat) : string := NilZero.string_of_uint (Nat.to_uint n).

(** [class ParallelStreamWriter]: [stream] is the list of the strings
    written so far, oldest first ([flush] does not change it). *)
Record ParallelStreamWriter := mkWriter {
  stream : list string;
  msg : option string;
  lines : list string;
}.

Definition ParallelStreamWriter_init (stream : list string)
    (msg : option string) : ParallelStreamWriter :=
  {| stream := stream; msg := msg; lines := [] |}.

(** [list.index]: position of the first occurrence, [None] for the
    [ValueError] of an absent element. *)
Fixpoint index (x : string) (l : list string) : option nat :=
  match l with
  | [] => None
  | y :: l' => if decide (y = x) then Some 0 else S <$> index x l'
  end.

Definition initialize (w : ParallelStreamWriter) (obj_index : string)
    : ParallelStreamWriter :=
  match msg w with
  | None => w
  | Some m =>
      {| stream := stream w ++ [m +:+ " " +:+ obj_index +:+ " ... " +:+ CR +:+ LF];
         msg := msg w;
         lines := lines w ++ [obj_index] |}
  end.

(** [write]: [None] when [lines.index] raises. *)
Definition write (w : ParallelStreamWriter) (obj_index status : string)
    : option ParallelStreamWriter :=
  match msg w with
  | None => Some w
  | Some m =>
      position ← index obj_index (lines w);
      let diff := length (lines w) - position in
      Some {| stream := stream w ++
                [ESC +:+ "[" +:+ fmt_d diff +:+ "A";
                 ESC +:+ "[2K" +:+ CR;
                 m +:+ " " +:+ obj_index +:+ " ... " +:+ status +:+ CR;
                 ESC +:+ "[" +:+ fmt_d diff +:+ "B"];
              msg := msg w;
              lines := lines w |}
  end.

(** ** The aggregation loop of [parallel_execute] *)

Variable get_name : Obj → string.

(** [str(exception)], as [format] renders an exception object. *)
Variable str : exn → string.

(** The values of the [errors] dict: the text of an explained failure, or the
    exception object itself. *)
Inductive errval :=
  | ErrText (s : string)
  | ErrExc (e : exn).

Definition fmt_errval (v : errval) : string :=
  match v with
  | ErrText s => s
  | ErrExc e => str e
  end.

(** The body of [for obj, result, exception in events]; the loop variables
    are [(writer, errors, results, error_to_reraise)]. *)
Definition handle_event
    (acc : ParallelStreamWriter * dict errval * list (option Res)
           * option exn)
    (ev : event)
    : option (ParallelStreamWriter * dict errval * list (option Res)
              * option exn) :=
  let '(writer, errors, results, error_to_reraise) := acc in
  let '(obj, result, exception) := ev in
  match exception with
  | None =>
      writer' ← write writer (get_name obj) "done";
      Some (writer', errors, results ++ [result], error_to_reraise)
  | Some (APIError explanation) =>
      writer' ← write writer (get_name obj) "error";
      Some (writer', <[get_name obj := ErrText explanation]> errors, results,
            error_to_reraise)
  | Some (OperationFailedError m) =>
      writer' ← write writer (get_name obj) "error";
      Some (writer', <[get_name obj := ErrText m]> errors, results,
            error_to_reraise)
  | Some UpstreamError =>
      writer' ← write writer (get_name obj) "error";
      Some (writer', errors, results, error_to_reraise)
  | Some (OtherError e) =>
      Some (writer, <[get_name obj := ErrExc (OtherError e)]> errors, results,
            Some (OtherError e))
  end.

Fixpoint drain
    (acc : ParallelStreamWriter * dict errval * list (option Res)
           * option exn)
    (events : list event)
    : option (ParallelStreamWriter * dict errval * list (option Res)
              * option exn) :=
  match events with
  | [] => Some acc
  | ev :: events' => acc' ← handle_event acc ev; drain acc' events'
  end.

(** The events that take the last branch of the loop body: any exception
    that is not an [APIError], an [OperationFailedError] or an
    [UpstreamError]. *)
Definition unexpected (ev : event) : bool :=
  match ev_exception ev with
  | Some (OtherError _) => true
  | _ => false
  end.

(** The lines of [for obj_name, error in errors.items()]. *)
Definition summary (errors : dict errval) : list string :=
  (λ '(obj_name, error),
     LF +:+ "ERROR: for " +:+ obj_name +:+ "  " +:+ fmt_errval error +:+ LF)
  <$> items errors.

(** How [parallel_execute] ends. *)
Inductive outcome :=
  | Return (results : list (option Res)) (errors : dict errval)
  | Raise (e : exn).

(** The state of the loop when the events start to arrive. *)
Definition registered (msg : option string)
    : ParallelStreamWriter * dict errval * list (option Res)
      * option exn :=
  (foldl (λ writer obj, initialize writer (get_name obj))
     (ParallelStreamWriter_init [] msg) objects,
   ∅, [], None).

(** [parallel_execute] on the events the coordinator yields: what has been
    written to the stream, and how the call ends.  [None] is a [ValueError]
    escaping from [writer.write].  An exception object is taken to be truthy,
    as exceptions are unless they define [__bool__] or [__len__]. *)
Definition parallel_execute_events (msg : option string)
    (events : list event) : option (list string * outcome) :=
  '(writer, errors, results, error_to_reraise) ← drain (registered msg) events;
  let stream := stream writer ++ summary errors in
  match error_to_reraise with
  | Some e => Some (stream, Raise e)
  | None => Some (stream, Return results errors)
  end.

(** [parallel_execute]: the possible endings of a call, over all
    interleavings of the workers. *)
Definition parallel_execute (msg : option string)
    (out : list string * outcome) : Prop :=
  ∃ r, reachable r ∧ pc r = Stopped
       ∧ parallel_execute_events msg (yielded r) = Some out.

(** * Properties *)

(** The propositional solvers take every function in the context for an
    implication; the parameters of the run are hidden from them. *)
Ltac hide_parameters :=
  try clear str; try clear get_name; try clear func; try clear get_deps.

Ltac prop := hide_parameters; tauto.

Ltac sets := hide_parameters; set_solver.

(** ** Schedules are executions *)

Lemma sched_step_sound c r r' : sched_step c r = Some r' → step r r'.
Proof.
  destruct c as [order| |i]; simpl.
  - case_decide as Hd; [|done]. destruct Hd as (?&?&?).
    intros [= <-]. by constructor.
  - case_decide; [|done]. intros [= <-]. by constructor.
  - destruct (threads r !! i) as [obj|] eqn:Hi; [|done].
    intros [= <-]. constructor.
    by rewrite <-(take_drop_middle _ _ _ Hi) at 1.
Qed.

Lemma sched_sound cs r r' : sched cs r = Some r' → rtc step r r'.
Proof.
  revert r. induction cs as [|c cs IH]; simpl; intros r.
  - intros [= <-]. done.
  - destruct (sched_step c r) as [r1|] eqn:Hc; [|done].
    intros Hs. eapply rtc_l; [eapply sched_step_sound, Hc|by apply IH].
Qed.

Lemma sched_reachable cs r : sched cs run_init = Some r → reachable r.
Proof. apply sched_sound. Qed.

Lemma sched_run_reachable cs : reachable (sched_run cs).
Proof.
  unfold sched_run. destruct (sched cs run_init) as [r|] eqn:Hs; simpl.
  - by eapply sched_reachable.
  - apply rtc_refl.
Qed.

Lemma sched_step_default c r :
  is_Some (sched_step c r) → step r (default r (sched_step c r)).
Proof. intros [r' Hr']. rewrite Hr'. by apply (sched_step_sound c). Qed.

(** ** The two tests of the admission pass *)

Lemma any_failed_spec (st : State) (deps : list Obj) :
  existsb (λ dep, bool_decide (dep ∈ failed st)) deps = true
  ↔ ∃ d, d ∈ deps ∧ d ∈ failed st.
Proof.
  rewrite existsb_exists. split.
  - intros (d & Hin & Hd). exists d. split; [by apply list_elem_of_In|].
    by apply bool_decide_eq_true in Hd.
  - intros (d & Hin & Hd). exists d. split; [by apply list_elem_of_In|].
    by apply bool_decide_eq_true.
Qed.

Lemma all_ready_spec (st : State) (deps : list Obj) :
  forallb (λ dep, negb (bool_decide (dep ∈ objects))
                  || bool_decide (dep ∈ finished st)) deps = true
  ↔ ∀ d, d ∈ deps → d ∈ objects → d ∈ finished st.
Proof.
  rewrite forallb_forall. split.
  - intros Hall d Hin Hobj. apply list_elem_of_In, Hall in Hin.
    apply orb_true_iff in Hin as [Hn|Hf].
    + apply negb_true_iff, bool_decide_eq_false in Hn. done.
    + by apply bool_decide_eq_true in Hf.
  - intros Hall d Hin. apply list_elem_of_In in Hin.
    destruct (decide (d ∈ objects)) as [Hobj|Hobj].
    + apply orb_true_iff. right. apply bool_decide_eq_true. by apply Hall.
    + apply orb_true_iff. left. by apply negb_true_iff, bool_decide_eq_false.
Qed.

Lemma feed_one_case r o : feed_case r o (feed_one r o).
Proof.
  unfold feed_one.
  destruct (existsb _ _) eqn:Hany.
  - apply any_failed_spec in Hany as (d & ? & ?). by eapply feed_upstream.
  - assert (∀ d, d ∈ get_deps o → d ∉ failed (state r)) as Hnone.
    { intros d Hd Hf. apply not_true_iff_false in Hany. apply Hany.
      apply any_failed_spec. eauto. }
    destruct (forallb _ _) eqn:Hall.
    + apply feed_launch; [done|]. by apply all_ready_spec.
    + apply not_true_iff_false in Hall. rewrite all_ready_spec in Hall.
      assert (∃ d, d ∈ get_deps o ∧ d ∈ objects ∧ d ∉ finished (state r))
        as (d & ? & ? & ?).
      { clear Hany Hnone. induction (get_deps o) as [|d l IH].
        - exfalso. apply Hall. intros d Hd. by apply elem_of_nil in Hd.
        - destruct (decide (d ∈ objects ∧ d ∉ finished (state r)))
            as [[??]|Hn].
          + exists d. split_and!; [left|done|done].
          + destruct IH as (d' & ? & ? & ?).
            * intros Hl. apply Hall. intros d' Hd' Hobj.
              apply elem_of_cons in Hd' as [->|Hd']; [|by apply Hl].
              destruct (decide (d ∈ finished (state r))); [done|].
              exfalso. by apply Hn.
            * exists d'. split_and!; [by right|done|done]. }
      by eapply feed_wait.
Qed.

(** ** Sizes *)

Lemma size_list_to_set_le (l : list Obj) :
  size (list_to_set l : gset Obj) ≤ length l.
Proof.
  induction l as [|x l IH].
  - rewrite list_to_set_nil, size_empty. simpl. lia.
  - rewrite list_to_set_cons, size_union_alt, size_singleton. simpl.
    assert (size (list_to_set l ∖ {[x]} : gset Obj) ≤ size (list_to_set l : gset Obj))
      by (apply subseteq_size; sets).
    lia.
Qed.

Lemma size_universe_le : size universe ≤ length objects.
Proof. apply size_list_to_set_le. Qed.

Lemma is_done_true (st : State) :
  is_done st = true ↔ length objects ≤ size (finished st) + size (failed st).
Proof. unfold is_done. apply bool_decide_eq_true. Qed.

Lemma is_done_false (st : State) :
  is_done st = false ↔ size (finished st) + size (failed st) < length objects.
Proof. unfold is_done. rewrite bool_decide_eq_false. lia. Qed.

Lemma is_done_mono (st st' : State) :
  finished st ⊆ finished st' → failed st ⊆ failed st' →
  is_done st = true → is_done st' = true.
Proof.
  rewrite !is_done_true. intros Hf Hx%subseteq_size. apply subseteq_size in Hf. lia.
Qed.

Lemma elem_of_pending (st : State) o :
  o ∈ pending st
  ↔ o ∈ objects ∧ (o ∉ started st) ∧ (o ∉ finished st) ∧ (o ∉ failed st).
Proof. unfold pending. rewrite !elem_of_difference, elem_of_list_to_set. prop. Qed.

Lemma terminal_size r :
  inv r →
  size (finished (state r)) + size (failed (state r))
  = size (finished (state r) ∪ failed (state r)).
Proof. intros Hi. rewrite size_union; [done|]. apply Hi. Qed.

Lemma not_done_of_nonterminal r o :
  inv r → o ∈ objects → o ∉ finished (state r) → o ∉ failed (state r) →
  is_done (state r) = false.
Proof.
  intros Hi Ho Hfin Hfail. apply is_done_false. rewrite terminal_size by done.
  pose proof size_universe_le.
  assert (finished (state r) ∪ failed (state r) ⊂ universe) as Hlt%subset_size; [|lia].
  destruct Hi. split.
  - sets.
  - intros Hsub. assert (o ∈ universe) as Hu by (by apply elem_of_list_to_set).
    apply Hsub in Hu. sets.
Qed.

Lemma done_all_terminal r :
  inv r → is_done (state r) = true →
  finished (state r) ∪ failed (state r) = universe.
Proof.
  intros Hi Hd. apply is_done_true in Hd. rewrite terminal_size in Hd by done.
  pose proof size_universe_le.
  apply set_subseteq_size_eq; [destruct Hi; sets|lia].
Qed.

Lemma done_no_pending r :
  inv r → is_done (state r) = true → pending (state r) = ∅.
Proof.
  intros Hi Hd. pose proof (done_all_terminal r Hi Hd) as Hall.
  unfold pending. fold universe. sets.
Qed.

Lemma done_no_threads r :
  inv r → is_done (state r) = true → threads r = [].
Proof.
  intros Hi Hd. destruct (threads r) as [|o t] eqn:Ht; [done|].
  assert (o ∈ threads r) as Ho by (rewrite Ht; left).
  pose proof (inv_threads r Hi o Ho) as [??].
  assert (o ∈ started (state r) ∪ failed (state r)) as Hs.
  { apply (inv_account r Hi). sets. }
  assert (o ∈ objects).
  { apply (elem_of_list_to_set (C:=gset Obj)). destruct Hi. sets. }
  by rewrite (not_done_of_nonterminal r o) in Hd.
Qed.

(** ** The invariant holds along every execution *)

Lemma qobjs_app_ev (q : list item) ev :
  item_objs (q ++ [Ev ev]) = item_objs q ++ [ev_obj ev].
Proof. unfold item_objs. by rewrite omap_app. Qed.

Lemma qobjs_app_stop (q : list item) :
  item_objs (q ++ [STOP]) = item_objs q.
Proof. unfold item_objs. rewrite omap_app. simpl. by rewrite app_nil_r. Qed.

Lemma qobjs_cons_ev (q : list item) ev :
  item_objs (Ev ev :: q) = ev_obj ev :: item_objs q.
Proof. done. Qed.

Lemma qobjs_cons_stop (q : list item) :
  item_objs (STOP :: q) = item_objs q.
Proof. done. Qed.

Lemma qobjs_stops n : item_objs (replicate n (@STOP Obj Res Err)) = [].
Proof. induction n as [|n IH]; [done|]. simpl replicate. by rewrite qobjs_cons_stop. Qed.

Lemma qobjs_shape (evs : list event) n :
  item_objs ((Ev <$> evs) ++ replicate n STOP) = ev_obj <$> evs.
Proof.
  induction evs as [|ev evs IH].
  - apply qobjs_stops.
  - rewrite fmap_cons, <-app_comm_cons, qobjs_cons_ev, IH. done.
Qed.

Lemma elem_of_qobjs (q : list item) o :
  o ∈ item_objs q ↔ ∃ ev, Ev ev ∈ q ∧ ev_obj ev = o.
Proof.
  unfold item_objs. rewrite list_elem_of_omap. split.
  - intros ([ev|] & Hin & Heq); simplify_eq. eauto.
  - intros (ev & Hin & <-). exists (Ev ev). done.
Qed.

Lemma inv_init : inv run_init.
Proof.
  split; simpl; try done; try sets.
  - constructor.
  - constructor.
  - exists [], 0. split; [done|lia].
Qed.

Lemma NoDup_snoc_mid (l1 l2 l3 : list Obj) x :
  NoDup (l1 ++ l2 ++ l3) → x ∉ l1 ++ l2 ++ l3 →
  NoDup (l1 ++ (l2 ++ [x]) ++ l3).
Proof.
  intros Hnd Hx.
  assert (l1 ++ (l2 ++ [x]) ++ l3 ≡ₚ x :: l1 ++ l2 ++ l3) as ->.
  { rewrite <-!(assoc_L (++)). simpl. rewrite <-!Permutation_middle. done. }
  by apply NoDup_cons.
Qed.

Lemma NoDup_snoc_first (l1 l2 : list Obj) x :
  NoDup (l1 ++ l2) → x ∉ l1 ++ l2 → NoDup ((l1 ++ [x]) ++ l2).
Proof.
  intros Hnd Hx.
  assert ((l1 ++ [x]) ++ l2 ≡ₚ x :: l1 ++ l2) as ->.
  { rewrite <-!(assoc_L (++)). simpl. by rewrite <-!Permutation_middle. }
  by apply NoDup_cons.
Qed.

Lemma shape_no_stop r :
  inv r → is_done (state r) = false → ∃ evs, results r = Ev <$> evs.
Proof.
  intros Hi Hd. destruct (inv_shape r Hi) as (evs & n & Hr & Hn).
  destruct n as [|n].
  - exists evs. rewrite Hr. simpl. by rewrite app_nil_r.
  - rewrite Hn in Hd by lia. done.
Qed.

Lemma pending_not_done r o :
  inv r → o ∈ pending (state r) → is_done (state r) = false.
Proof.
  intros Hi (?&?&?&?)%elem_of_pending. by eapply not_done_of_nonterminal.
Qed.

Lemma pending_fresh r o :
  inv r → o ∈ pending (state r) → o ∉ threads r ++ qobjs r ++ yobjs r.
Proof.
  intros Hi (?&?&?&?)%elem_of_pending Hin.
  apply (inv_account r Hi) in Hin. sets.
Qed.

Lemma inv_feed_one r o :
  inv r → o ∈ pending (state r) → inv (feed_one r o).
Proof.
  intros Hi Hp.
  pose proof (pending_not_done r o Hi Hp) as Hnd.
  pose proof (pending_fresh r o Hi Hp) as Hfresh.
  pose proof Hp as (Hobj & Hns & Hnf & Hnx)%elem_of_pending.
  assert (o ∈ universe) as Hu by (by apply elem_of_list_to_set).
  destruct (shape_no_stop r Hi Hnd) as (evs & Hevs).
  destruct (feed_one_case r o) as [d Hd Hdf|Hnone Hall|d Hnone Hd Hdo Hdf]; [| |done].
  - (* upstream failure *)
    destruct Hi. split; simpl; unfold qobjs, yobjs in *; simpl;
      rewrite ?qobjs_app_ev; simpl.
    + done.
    + sets.
    + done.
    + sets.
    + by apply NoDup_snoc_mid.
    + intros x. rewrite !elem_of_app, list_elem_of_singleton.
      specialize (inv_account0 x). rewrite !elem_of_app in inv_account0. sets.
    + intros x Hx. specialize (inv_threads0 x Hx). sets.
    + intros x [Hx| ->%list_elem_of_singleton]%elem_of_app.
      * specialize (inv_queue0 x Hx). sets.
      * done.
    + intros ev [Hx|Heq%list_elem_of_singleton]%elem_of_app;
        [|by injection Heq as ->].
      intros Hf. apply inv_queue_exc0; [done|].
        apply elem_of_union in Hf as [Heq%elem_of_singleton|]; [|done].
        exfalso. apply Hfresh. rewrite !elem_of_app. right. left.
        apply elem_of_qobjs. eauto.
    + intros ev Hev. specialize (inv_yielded0 ev Hev).
      destruct (ev_exception ev); sets.
    + done.
    + done.
    + exists (evs ++ [(o, None, Some UpstreamError)]), 0. split.
      * rewrite Hevs, fmap_app. simpl. by rewrite app_nil_r.
      * lia.
    + intros Hs. destruct (inv_stopped0 Hs) as [Hdone _]. congruence.
    + done.
  - (* launch *)
    destruct Hi. split; simpl; unfold qobjs, yobjs in *; simpl.
    + sets.
    + done.
    + sets.
    + done.
    + by apply NoDup_snoc_first.
    + intros x. rewrite !elem_of_app, list_elem_of_singleton.
      specialize (inv_account0 x). rewrite !elem_of_app in inv_account0. sets.
    + intros x [Hx| ->%list_elem_of_singleton]%elem_of_app; [by apply inv_threads0|done].
    + intros x Hx. specialize (inv_queue0 x Hx). split; [apply inv_queue0|].
      intros Hf [->%elem_of_singleton|]%elem_of_union; [done|].
      by apply inv_queue0.
    + done.
    + done.
    + sets.
    + apply NoDup_snoc_first; [done|]. intros Hin. apply elem_of_app in Hin as [Hin|Hin].
      * apply Hfresh. sets.
      * by apply Hns, inv_invoked0.
    + done.
    + done.
    + intros x [->%elem_of_singleton|Hx]%elem_of_union; [|by apply inv_sn0].
      constructor. intros y (_ & Hyo & Hyd). apply inv_sn0, inv_finished0.
      by apply Hall.
Qed.

Lemma feed_one_pending r o x :
  x ∈ pending (state r) → x ≠ o → x ∈ pending (state (feed_one r o)).
Proof.
  intros Hx Hne. destruct (feed_one_case r o); [| |done];
    apply elem_of_pending in Hx; apply elem_of_pending; simpl; sets.
Qed.

(** A property kept by the loop body on pending objects is kept by the
    whole pass. *)
Lemma foldl_feed_one_ind (P : run → Prop) :
  (∀ r o, inv r → P r → o ∈ pending (state r) → P (feed_one r o)) →
  ∀ order r, NoDup order → (∀ o, o ∈ order → o ∈ pending (state r)) →
    inv r → P r →
    inv (foldl feed_one r order) ∧ P (foldl feed_one r order).
Proof.
  intros Hstep order. induction order as [|o order IH]; intros r Hnd Hall Hi HP.
  - done.
  - simpl. apply NoDup_cons in Hnd as [Ho Hnd].
    assert (o ∈ pending (state r)) as Hp by (apply Hall; left).
    apply IH; [done| |by apply inv_feed_one|by apply Hstep].
    intros x Hx. apply feed_one_pending; [apply Hall; by right|].
    intros ->. done.
Qed.

Lemma inv_foldl_feed_one order r :
  NoDup order → (∀ o, o ∈ order → o ∈ pending (state r)) → inv r →
  inv (foldl feed_one r order).
Proof.
  intros. by apply (foldl_feed_one_ind (λ _, True)).
Qed.

Lemma inv_put_stop_if_done r : inv r → inv (put_stop_if_done r).
Proof.
  intros Hi. unfold put_stop_if_done.
  destruct (is_done (state r)) eqn:Hd; [|done].
  destruct (inv_shape r Hi) as (evs & n & Hr & Hn).
  destruct Hi. split; simpl; unfold qobjs, yobjs in *; simpl;
    rewrite ?qobjs_app_stop; try done.
  - intros ev [Hx|Heq%list_elem_of_singleton]%elem_of_app; [|done].
    by apply inv_queue_exc0.
  - exists evs, (S n). split; [|done].
    rewrite Hr, <-(assoc_L (++)). f_equal.
    change [STOP] with (replicate 1 (@STOP Obj Res Err)).
    rewrite <-replicate_add. f_equal. lia.
Qed.

Lemma inv_set_pc l r : l ≠ Stopped → inv r → inv (set_pc l r).
Proof. intros Hl Hi. destruct Hi. split; simpl; done. Qed.

Lemma inv_feed_queue order r :
  NoDup order → list_to_set order = pending (state r) → inv r →
  inv (feed_queue order r).
Proof.
  intros Hnd Ho Hi. apply inv_put_stop_if_done, inv_foldl_feed_one; [done| |done].
  intros o Hin. rewrite <-Ho. by apply elem_of_list_to_set.
Qed.

Lemma NoDup_move (l1 l2 l3 : list Obj) x :
  NoDup (l1 ++ (x :: l2) ++ l3) → NoDup (l1 ++ l2 ++ l3 ++ [x]).
Proof.
  intros Hnd.
  assert (l1 ++ l2 ++ l3 ++ [x] ≡ₚ x :: l1 ++ l2 ++ l3) as ->.
  { rewrite !(assoc_L (++)), <-Permutation_cons_append.
    by rewrite <-!(assoc_L (++)). }
  simpl in Hnd. by rewrite <-Permutation_middle in Hnd.
Qed.

Lemma shape_head_ev r ev q :
  inv r → results r = Ev ev :: q →
  ∃ evs n, q = (Ev <$> evs) ++ replicate n STOP
           ∧ (0 < n → is_done (state r) = true).
Proof.
  intros Hi Hr. destruct (inv_shape r Hi) as (evs & n & Hr' & Hn).
  rewrite Hr in Hr'. destruct evs as [|ev' evs]; simpl in Hr'.
  - destruct n; simpl in Hr'; discriminate.
  - injection Hr' as _ ->. eauto.
Qed.

Lemma shape_head_stop r q :
  inv r → results r = STOP :: q →
  is_done (state r) = true ∧ ∃ n, q = replicate n STOP.
Proof.
  intros Hi Hr. destruct (inv_shape r Hi) as (evs & n & Hr' & Hn).
  rewrite Hr in Hr'. destruct evs as [|ev' evs]; simpl in Hr'; [|discriminate].
  destruct n as [|n]; simpl in Hr'; [discriminate|].
  injection Hr' as ->. split; [apply Hn; lia|eauto].
Qed.

Lemma inv_get_step r : inv r → pc r = AtGet → inv (get_step r).
Proof.
  intros Hi Hpc. unfold get_step.
  destruct (results r) as [|[ev|] q] eqn:Hr.
  - by apply inv_set_pc.
  - (* an event *)
    destruct (shape_head_ev r ev q Hi Hr) as (evs & n & Hq & Hn).
    pose proof (inv_nodup r Hi) as Hnd.
    pose proof (inv_account r Hi (ev_obj ev)) as Hacc.
    pose proof (inv_queue r Hi (ev_obj ev)) as Hqo.
    pose proof (inv_queue_exc r Hi ev) as Hqe.
    unfold qobjs, yobjs in Hnd, Hacc, Hqo. rewrite Hr in Hnd, Hacc, Hqo, Hqe.
    rewrite qobjs_cons_ev in Hnd, Hacc, Hqo.
    destruct Hqo as [Hnfin Hfs]; [left|].
    assert (ev_obj ev ∈ started (state r) ∪ failed (state r)) as Hin.
    { apply Hacc. rewrite !elem_of_app, elem_of_cons. prop. }
    assert (NoDup (threads r ++ item_objs q ++ (ev_obj <$> yielded r ++ [ev]))) as Hnd'.
    { rewrite fmap_app. simpl. by apply NoDup_move. }
    assert (∀ x, x ∈ threads r ++ item_objs q ++ (ev_obj <$> yielded r ++ [ev])
                 ↔ x ∈ threads r ++ qobjs r ++ yobjs r) as Hmem.
    { intros x. unfold qobjs, yobjs. rewrite Hr, qobjs_cons_ev, fmap_app. simpl.
      rewrite !elem_of_app, !elem_of_cons, !elem_of_app, elem_of_nil. prop. }
    assert (∀ x, x ∈ threads r → x ≠ ev_obj ev) as Hthr.
    { intros x Hx ->. apply NoDup_app in Hnd as (_ & Hnd & _).
      apply (Hnd _ Hx). rewrite elem_of_app, elem_of_cons. prop. }
    assert (∀ x, x ∈ item_objs q → x ≠ ev_obj ev) as Hque.
    { intros x Hx ->. apply NoDup_app in Hnd as (_ & _ & Hnd).
      apply NoDup_app in Hnd as (Hnd & _ & _).
      apply NoDup_cons in Hnd as [Hnd _]. done. }
    assert (∀ x, x ∈ qobjs r ↔ x = ev_obj ev ∨ x ∈ item_objs q) as Hqr.
    { intros x. unfold qobjs. rewrite Hr, qobjs_cons_ev, elem_of_cons. done. }
    assert (∀ ev', Ev ev' ∈ q → Ev ev' ∈ results r) as Hqin.
    { intros ev' Hev'. rewrite Hr. by right. }
    rewrite <-Hr in Hqe.
    unfold record_event. destruct (ev_exception ev) as [e|] eqn:Hexc.
    + (* a failure *)
      destruct Hi. split; simpl; unfold qobjs, yobjs in *; simpl; try done.
      * sets.
      * sets.
      * intros x. rewrite Hmem, inv_account0. sets.
      * intros x Hx. specialize (inv_threads0 x Hx). specialize (Hthr x Hx). sets.
      * intros x Hx. specialize (Hque x Hx).
        destruct (inv_queue0 x) as [??]; [apply Hqr; by right|]. sets.
      * intros ev' Hev' Hf. apply inv_queue_exc0; [by apply Hqin|].
        apply elem_of_union in Hf as [Heq%elem_of_singleton|]; [|done].
        exfalso. apply (Hque (ev_obj ev')); [|done].
        apply elem_of_qobjs. eauto.
      * intros ev' [Hev'| ->%list_elem_of_singleton]%elem_of_app.
        -- specialize (inv_yielded0 ev' Hev'). destruct (ev_exception ev'); sets.
        -- rewrite Hexc. sets.
      * exists evs, n. split; [done|]. intros Hlt. specialize (Hn Hlt).
        eapply is_done_mono; [| |exact Hn]; simpl; sets.
    + (* a success *)
      assert (ev_obj ev ∉ failed (state r)) as Hnfail.
      { intros Hf. apply Hqe; [rewrite Hr; left|done|done]. }
      destruct Hi. split; simpl; unfold qobjs, yobjs in *; simpl; try done.
      * sets.
      * sets.
      * intros x. rewrite Hmem, inv_account0. sets.
      * intros x Hx. specialize (inv_threads0 x Hx). specialize (Hthr x Hx). sets.
      * intros x Hx. specialize (Hque x Hx).
        destruct (inv_queue0 x) as [??]; [apply Hqr; by right|]. sets.
      * intros ev' Hev' Hf. apply inv_queue_exc0; [by apply Hqin|done].
      * intros ev' [Hev'| ->%list_elem_of_singleton]%elem_of_app.
        -- specialize (inv_yielded0 ev' Hev'). destruct (ev_exception ev'); sets.
        -- rewrite Hexc. sets.
      * exists evs, n. split; [done|]. intros Hlt. specialize (Hn Hlt).
        eapply is_done_mono; [| |exact Hn]; simpl; sets.
  - (* the sentinel *)
    destruct (shape_head_stop r q Hi Hr) as (Hd & n & ->).
    destruct Hi. split; simpl; unfold qobjs, yobjs in *; simpl;
      rewrite ?Hr, ?qobjs_cons_stop in *; try done.
    + intros ev Hev. apply inv_queue_exc0. by right.
    + exists [], n. done.
    + intros _. split; [done|]. apply qobjs_stops.
Qed.

Lemma producer_obj o : ev_obj (producer o) = o.
Proof. unfold producer. by destruct (func o). Qed.

Lemma thread_running r o :
  inv r → o ∈ threads r →
  o ∈ objects ∧ o ∈ started (state r)
  ∧ (o ∉ finished (state r)) ∧ (o ∉ failed (state r)).
Proof.
  intros Hi Ho. pose proof (inv_threads r Hi o Ho) as [??].
  assert (o ∈ started (state r) ∪ failed (state r)) as Hs.
  { apply (inv_account r Hi). rewrite elem_of_app. by left. }
  assert (o ∈ started (state r)) by sets.
  split_and!; try done.
  apply (elem_of_list_to_set (C:=gset Obj)). by apply (inv_started r Hi).
Qed.

Lemma inv_producer_step r t1 o t2 :
  inv r → threads r = t1 ++ o :: t2 → inv (producer_step t1 o t2 r).
Proof.
  intros Hi Ht.
  assert (o ∈ threads r) as Ho by (rewrite Ht; sets).
  destruct (thread_running r o Hi Ho) as (Hobj & Hs & Hnfin & Hnf).
  pose proof (not_done_of_nonterminal r o Hi Hobj Hnfin Hnf) as Hnd.
  destruct (shape_no_stop r Hi Hnd) as (evs & Hevs).
  pose proof (inv_nodup r Hi) as Hn1. pose proof (inv_invoked_nodup r Hi) as Hn2.
  rewrite Ht in Hn1, Hn2.
  assert (∀ x, x ∈ t1 ++ t2 → x ∈ threads r) as Hsub.
  { intros x. rewrite Ht, !elem_of_app, elem_of_cons. prop. }
  destruct Hi. split; simpl; unfold qobjs, yobjs in *; simpl;
    rewrite ?qobjs_app_ev, ?producer_obj; try done.
  - assert ((t1 ++ t2) ++ (item_objs (results r) ++ [o]) ++ (ev_obj <$> yielded r)
            ≡ₚ (t1 ++ o :: t2) ++ item_objs (results r) ++ (ev_obj <$> yielded r)) as ->; [|done].
    solve_Permutation.
  - intros x. rewrite <-inv_account0, Ht.
    rewrite !elem_of_app, !elem_of_cons, ?elem_of_app, elem_of_nil. prop.
  - intros x Hx. by apply inv_threads0, Hsub.
  - intros x [Hx|Hx%list_elem_of_singleton]%elem_of_app; [by apply inv_queue0|].
    subst x. done.
  - intros ev [Hx|Heq%list_elem_of_singleton]%elem_of_app; [by apply inv_queue_exc0|].
    injection Heq as ->. rewrite producer_obj. done.
  - intros x [Hx|Hx%list_elem_of_singleton]%elem_of_app; [by apply inv_invoked0|].
    by subst x.
  - assert ((t1 ++ t2) ++ invoked r ++ [o] ≡ₚ (t1 ++ o :: t2) ++ invoked r) as ->; [|done].
    solve_Permutation.
  - exists (evs ++ [producer o]), 0. split; [|lia].
    rewrite Hevs, fmap_app. simpl. by rewrite app_nil_r.
  - intros Hs'. destruct (inv_stopped0 Hs') as [Hd _]. congruence.
Qed.

Lemma inv_step r r' : inv r → step r r' → inv r'.
Proof.
  intros Hi Hs. destruct Hs as [r order Hpc Hnd Ho|r Hpc|r t1 o t2 Ht].
  - by apply inv_set_pc, inv_feed_queue.
  - by apply inv_get_step.
  - by apply inv_producer_step.
Qed.

Lemma inv_rtc r r' : inv r → rtc step r r' → inv r'.
Proof. intros Hi Hs. induction Hs; [done|]. eauto using inv_step. Qed.

Lemma inv_reachable r : reachable r → inv r.
Proof. apply inv_rtc, inv_init. Qed.

(** ** What an admission pass does *)

Lemma feed_ext_refl r : feed_ext r r.
Proof.
  split; try done.
  - intros o. by left.
  - exists []. split; [by rewrite app_nil_r|]. intros ev Hev. by apply elem_of_nil in Hev.
Qed.

Lemma feed_ext_feed_one r0 r o :
  inv r → feed_ext r0 r → o ∈ pending (state r) → feed_ext r0 (feed_one r o).
Proof.
  intros Hi He Hp.
  pose proof Hp as (Hobj & Hns & Hnf & Hnx)%elem_of_pending.
  assert (o ∈ pending (state r0)) as Hp0.
  { apply elem_of_pending. destruct He. rewrite <-fe_finished0. sets. }
  destruct (feed_one_case r o) as [d Hd Hdf|Hnone Hall|d Hnone Hd Hdo Hdf]; [| |done].
  - destruct He as [? ? ? ? ? ? (evs & Hevs & Hnew) ? ? ?].
    split; simpl; try done.
    + sets.
    + intros x [->%elem_of_singleton|Hx]%elem_of_union Hx0.
      * split_and!; [done|sets|]. exists d. sets.
      * destruct (fe_upstream0 x Hx Hx0) as (?&?&d'&?&?).
        split_and!; [done|sets|]. exists d'. sets.
    + exists (evs ++ [(o, None, Some UpstreamError)]). split.
      * rewrite Hevs, fmap_app, (assoc_L (++)). done.
      * intros ev [Hev| ->%list_elem_of_singleton]%elem_of_app.
        -- destruct (Hnew ev Hev) as (?&?&?). sets.
        -- simpl. split_and!; [done|sets|].
           apply elem_of_pending in Hp0. prop.
  - destruct He as [? ? ? ? ? ? (evs & Hevs & Hnew) ? ? ?].
    split; simpl; try done.
    + sets.
    + intros x [->%elem_of_singleton|Hx]%elem_of_union Hx0.
      * split_and!; [done|sets|]. intros d Hd Hdo. rewrite <-fe_finished0. by apply Hall.
      * destruct (fe_launched0 x Hx Hx0) as (?&?&?). split_and!; [done|sets|done].
    + intros x [Hx| ->%list_elem_of_singleton]%elem_of_app.
      * destruct (fe_threads0 x Hx) as [?|[??]]; [by left|right]. sets.
      * right. split; [sets|]. apply elem_of_pending in Hp0. prop.
    + exists evs. split; [done|]. intros ev Hev. by apply Hnew.
Qed.

Lemma feed_ext_foldl order r :
  NoDup order → (∀ o, o ∈ order → o ∈ pending (state r)) → inv r →
  feed_ext r (foldl feed_one r order).
Proof.
  intros Hnd Hall Hi.
  apply (foldl_feed_one_ind (feed_ext r)); [|done..|apply feed_ext_refl].
  intros r' o Hi' He Hp. by apply feed_ext_feed_one.
Qed.

Lemma put_stop_state r : state (put_stop_if_done r) = state r.
Proof. unfold put_stop_if_done. by destruct (is_done _). Qed.

Lemma put_stop_threads r : threads (put_stop_if_done r) = threads r.
Proof. unfold put_stop_if_done. by destruct (is_done _). Qed.

Lemma put_stop_invoked r : invoked (put_stop_if_done r) = invoked r.
Proof. unfold put_stop_if_done. by destruct (is_done _). Qed.

Lemma put_stop_yielded r : yielded (put_stop_if_done r) = yielded r.
Proof. unfold put_stop_if_done. by destruct (is_done _). Qed.

Lemma put_stop_pc r : pc (put_stop_if_done r) = pc r.
Proof. unfold put_stop_if_done. by destruct (is_done _). Qed.

Lemma put_stop_results r :
  results (put_stop_if_done r)
  = results r ++ (if is_done (state r) then [STOP] else []).
Proof.
  unfold put_stop_if_done. destruct (is_done _); [done|]. by rewrite app_nil_r.
Qed.

Lemma put_stop_qobjs r : qobjs (put_stop_if_done r) = qobjs r.
Proof.
  unfold qobjs. rewrite put_stop_results. destruct (is_done _).
  - apply qobjs_app_stop.
  - by rewrite app_nil_r.
Qed.

Lemma order_pending order (st : State) :
  list_to_set order = pending st → ∀ o, o ∈ order ↔ o ∈ pending st.
Proof. intros Ho o. rewrite <-Ho. by rewrite elem_of_list_to_set. Qed.

(** The sets of the scheduling state only grow. *)
Lemma step_mono r r' :
  inv r → step r r' →
  started (state r) ⊆ started (state r')
  ∧ finished (state r) ⊆ finished (state r')
  ∧ failed (state r) ⊆ failed (state r').
Proof.
  intros Hi Hs. destruct Hs as [r order Hpc Hnd Ho|r Hpc|r t1 o t2 Ht]; simpl.
  - unfold feed_queue. rewrite put_stop_state.
    destruct (feed_ext_foldl order r) as [Hf ? ? _ _ _ _ _ _ _]; [done| |done|].
    { intros o. by apply order_pending. }
    rewrite Hf. done.
  - unfold get_step. destruct (results r) as [|[ev|] q]; simpl; [done| |done].
    unfold record_event. destruct (ev_exception ev); simpl; sets.
  - done.
Qed.

Lemma rtc_mono r r' :
  inv r → rtc step r r' →
  started (state r) ⊆ started (state r')
  ∧ finished (state r) ⊆ finished (state r')
  ∧ failed (state r) ⊆ failed (state r').
Proof.
  intros Hi Hs. induction Hs as [|r r1 r2 Hs Hs' IH]; [done|].
  destruct (step_mono r r1 Hi Hs) as (?&?&?).
  destruct IH as (?&?&?); [by eapply inv_step|]. sets.
Qed.

(** Only an admission pass starts objects, and only pending ones whose
    dependencies inside the universe have all finished. *)
Lemma step_launch r r' o :
  inv r → step r r' → o ∉ started (state r) → o ∈ started (state r') →
  pc r = AtFeed ∧ o ∈ pending (state r) ∧ o ∈ threads r'
  ∧ ∀ d, d ∈ get_deps o → d ∈ objects → d ∈ finished (state r).
Proof.
  intros Hi Hs Hn Hin. destruct Hs as [r order Hpc Hnd Ho|r Hpc|r t1 x t2 Ht].
  - simpl in *. unfold feed_queue in *.
    rewrite put_stop_state in Hin. rewrite put_stop_threads.
    destruct (feed_ext_foldl order r) as [_ _ _ Hl _ _ _ _ _ _]; [done| |done|].
    { intros x. by apply order_pending. }
    destruct (Hl o Hin Hn) as (?&?&?). done.
  - exfalso. apply Hn. revert Hin. unfold get_step.
    destruct (results r) as [|[ev|] q]; simpl; [done| |done].
    unfold record_event. by destruct (ev_exception ev).
  - done.
Qed.

Lemma feed_ext_pending r r' o :
  feed_ext r r' → o ∈ pending (state r') → o ∈ pending (state r).
Proof.
  intros He. rewrite !elem_of_pending. destruct He as [Hf ? ? _ _ _ _ _ _ _].
  rewrite Hf. sets.
Qed.

(** An object the pass leaves pending was found, when it was examined, with
    no failed dependency and with an unfinished one inside the universe. *)
Lemma foldl_feed_waiting order r o :
  NoDup order → (∀ x, x ∈ order → x ∈ pending (state r)) → inv r →
  o ∈ order → o ∈ pending (state (foldl feed_one r order)) →
  (∃ d, d ∈ get_deps o ∧ d ∈ objects ∧ d ∉ finished (state r))
  ∧ (∀ d, d ∈ get_deps o → d ∉ failed (state r)).
Proof.
  revert r. induction order as [|x order IH]; intros r Hnd Hall Hi Ho Hp.
  - by apply elem_of_nil in Ho.
  - simpl in Hp. apply NoDup_cons in Hnd as [Hx Hnd].
    assert (x ∈ pending (state r)) as Hxp by (apply Hall; left).
    assert (∀ y, y ∈ order → y ∈ pending (state (feed_one r x))) as Hall'.
    { intros y Hy. apply feed_one_pending; [apply Hall; by right|by intros ->]. }
    pose proof (inv_feed_one r x Hi Hxp) as Hi'.
    apply elem_of_cons in Ho as [->|Ho].
    + apply (feed_ext_pending (feed_one r x)) in Hp;
        [|by apply feed_ext_foldl].
      destruct (feed_one_case r x) as [d Hd Hdf|Hnone Hall2|d Hnone Hd Hdo Hdf].
      * apply elem_of_pending in Hp. simpl in Hp. sets.
      * apply elem_of_pending in Hp. simpl in Hp. sets.
      * split; [eauto|done].
    + destruct (IH (feed_one r x)) as [(d & ? & ? & Hdf) Hnone]; try done.
      pose proof (feed_ext_feed_one r r x Hi (feed_ext_refl r) Hxp) as He.
      destruct He as [Hf ? Hfl _ _ _ _ _ _ _]. rewrite Hf in Hdf.
      split; [eauto|]. intros d' Hd' Hdf'. apply (Hnone d' Hd'). by apply Hfl.
Qed.

(** What one pass of [feed_queue] decides for an object that is pending when
    the pass begins. *)
Lemma feed_queue_pending_cases order r o :
  inv r → NoDup order → list_to_set order = pending (state r) →
  o ∈ pending (state r) →
  let r' := feed_queue order r in
  (o ∈ pending (state r')
   ∧ (∃ d, d ∈ get_deps o ∧ d ∈ objects ∧ d ∉ finished (state r))
   ∧ (∀ d, d ∈ get_deps o → d ∉ failed (state r)))
  ∨ (o ∈ started (state r') ∧ o ∈ threads r' ∧ (o ∉ failed (state r'))
     ∧ (∀ d, d ∈ get_deps o → d ∈ objects → d ∈ finished (state r)))
  ∨ (o ∈ failed (state r') ∧ (o ∉ started (state r'))
     ∧ Ev (o, None, Some UpstreamError) ∈ results r'
     ∧ ∃ d, d ∈ get_deps o ∧ d ∈ failed (state r')).
Proof.
  intros Hi Hnd Ho Hp r'.
  assert (∀ x, x ∈ order → x ∈ pending (state r)) as Hall.
  { intros x. by apply order_pending. }
  pose proof (feed_ext_foldl order r Hnd Hall Hi) as He.
  pose proof (inv_foldl_feed_one order r Hnd Hall Hi) as Hi1.
  subst r'. unfold feed_queue.
  rewrite put_stop_state, put_stop_threads, put_stop_results.
  set (r1 := foldl feed_one r order) in *.
  pose proof Hp as (Hobj & Hns & Hnf & Hnx)%elem_of_pending.
  destruct (decide (o ∈ pending (state r1))) as [Hp1|Hp1].
  { left. split; [done|]. apply (foldl_feed_waiting order); try done.
    by apply (order_pending order (state r)). }
  right.
  destruct (decide (o ∈ started (state r1))) as [Hs1|Hs1].
  - left. destruct (fe_launched r r1 He o Hs1 Hns) as (_ & Ht & Hd).
    split_and!; try done. by apply (inv_threads r1 Hi1).
  - right. assert (o ∈ failed (state r1)) as Hf1.
    { destruct (decide (o ∈ failed (state r1))); [done|]. exfalso. apply Hp1.
      apply elem_of_pending. rewrite (fe_finished r r1 He). done. }
    destruct (fe_upstream r r1 He o Hf1 Hnx) as (_ & Hev & Hd).
    split_and!; try done. apply elem_of_app. by left.
Qed.

(** An object that is neither pending nor started is never started later,
    so its work function is never called. *)
Lemma never_started_step r r' o :
  inv r → step r r' →
  o ∉ pending (state r) → o ∉ started (state r) →
  (o ∉ pending (state r')) ∧ (o ∉ started (state r')).
Proof.
  intros Hi Hs Hp Hn.
  destruct (step_mono r r' Hi Hs) as (? & ? & ?). split.
  - rewrite elem_of_pending in *. sets.
  - intros Hin. destruct (step_launch r r' o Hi Hs Hn Hin) as (_ & ? & _). done.
Qed.

Lemma never_started_rtc r r' o :
  inv r → rtc step r r' →
  o ∉ pending (state r) → o ∉ started (state r) →
  (o ∉ started (state r')) ∧ (o ∉ threads r') ∧ (o ∉ invoked r').
Proof.
  intros Hi Hs. induction Hs as [r|r r1 r2 Hs Hs' IH]; intros Hp Hn.
  - split_and!; [done| |].
    + intros Ht. by destruct (thread_running r o Hi Ht) as (_ & ? & _).
    + intros Ht. by apply Hn, (inv_invoked r Hi).
  - destruct (never_started_step r r1 o Hi Hs Hp Hn) as [??].
    apply IH; [by eapply inv_step|done..].
Qed.

(** ** Claim C1 *)

(** C1. The admission pass launches an object's worker (its thread is
    started and the object is added to [started]) only when every
    dependency is outside the universe or in [finished]: no step other than
    an admission pass adds to [started], and for an object the pass adds,
    every dependency inside the universe is in [finished], hence not in
    [failed], not pending and not in flight (started but not yet terminal).
    An object examined with an unfinished dependency inside the universe and
    no dependency in [failed] is left as it is, and it is still pending, with
    no thread, after the pass. *)
Theorem admission_gate r :
  reachable r →
  (∀ r' o, step r r' → o ∉ started (state r) → o ∈ started (state r') →
     pc r = AtFeed ∧ o ∈ pending (state r) ∧ o ∈ threads r'
     ∧ ∀ d, d ∈ get_deps o → d ∈ objects →
         d ∈ finished (state r) ∧ (d ∉ failed (state r'))
         ∧ (d ∉ pending (state r)) ∧ ¬ in_flight (state r) d)
  ∧ (∀ o d, d ∈ get_deps o → d ∈ objects → d ∉ finished (state r) →
       (∀ d', d' ∈ get_deps o → d' ∉ failed (state r)) →
       feed_one r o = r)
  ∧ (∀ order o d,
       NoDup order → list_to_set order = pending (state r) →
       o ∈ pending (state r) →
       d ∈ get_deps o → d ∈ objects → d ∉ finished (state r) →
       (∀ d', d' ∈ get_deps o → d' ∉ failed (state (feed_queue order r))) →
       o ∈ pending (state (feed_queue order r))
       ∧ o ∉ threads (feed_queue order r)).
Proof.
  intros Hr. pose proof (inv_reachable r Hr) as Hi. split_and!.
  - intros r' o Hs Hn Hin.
    destruct (step_launch r r' o Hi Hs Hn Hin) as (Hpc & Hp & Ht & Hd).
    split_and!; try done. intros d Hdo Hdu. specialize (Hd d Hdo Hdu).
    destruct (step_mono r r' Hi Hs) as (_ & Hf & _).
    pose proof (inv_disjoint r' (inv_step r r' Hi Hs)) as Hdis.
    split_and!; [done|sets| |].
    + rewrite elem_of_pending. prop.
    + unfold in_flight. prop.
  - intros o d Hd Hdu Hdf Hnone.
    destruct (feed_one_case r o) as [d' Hd' Hdf'| _ Hall|]; [| |done].
    + by destruct (Hnone d' Hd').
    + destruct Hdf. by apply Hall.
  - intros order o d Hnd Ho Hp Hd Hdu Hdf Hnone.
    pose proof (inv_feed_queue order r Hnd Ho Hi) as Hi'.
    destruct (feed_queue_pending_cases order r o Hi Hnd Ho Hp)
      as [(Hp' & _)|[(_ & _ & _ & Hall)|(_ & _ & _ & d' & Hd' & Hdf')]].
    + split; [done|]. intros Ht.
      destruct (thread_running _ o Hi' Ht) as (_ & ? & _).
      apply elem_of_pending in Hp'. prop.
    + destruct Hdf. by apply Hall.
    + by destruct (Hnone d' Hd').
Qed.

(** ** Claim C2 *)

(** C2. When a pending object has a dependency in [failed], the admission
    pass adds it to [failed] and puts [(o, None, UpstreamError())] on the
    queue; the object is not started then or at any later point of the run,
    so no thread ever runs its work function. *)
Theorem upstream_failure_shortcut r order o d :
  reachable r → pc r = AtFeed →
  NoDup order → list_to_set order = pending (state r) →
  o ∈ pending (state r) → d ∈ get_deps o → d ∈ failed (state r) →
  let r' := set_pc AtGet (feed_queue order r) in
  step r r'
  ∧ o ∈ failed (state r')
  ∧ Ev (o, None, Some UpstreamError) ∈ results r'
  ∧ ∀ r'', rtc step r' r'' →
      o ∈ failed (state r'') ∧ (o ∉ started (state r''))
      ∧ (o ∉ threads r'') ∧ (o ∉ invoked r'').
Proof.
  intros Hr Hpc Hnd Ho Hp Hd Hdf r'.
  pose proof (inv_reachable r Hr) as Hi.
  assert (step r r') as Hs by (by constructor).
  pose proof (inv_step r r' Hi Hs) as Hi'.
  assert (o ∈ failed (state r') ∧ (o ∉ started (state r'))
          ∧ Ev (o, None, Some UpstreamError) ∈ results r') as (Hf & Hn & Hev).
  { subst r'. simpl.
    destruct (feed_queue_pending_cases order r o Hi Hnd Ho Hp)
      as [(_ & _ & Hnone)|[(_ & _ & _ & Hall)|(? & ? & ? & _)]].
    - by destruct (Hnone d Hd).
    - exfalso. apply (inv_disjoint r Hi d); [|done]. apply Hall; [done|].
      apply (elem_of_list_to_set (C:=gset Obj)). by apply (inv_failed r Hi).
    - done. }
  split_and!; try done. intros r'' Hs'.
  destruct (rtc_mono r' r'' Hi' Hs') as (_ & _ & Hfm).
  split; [by apply Hfm|].
  apply (never_started_rtc r'); try done.
  rewrite elem_of_pending. prop.
Qed.

(** ** Claim C4 *)

Lemma is_path_inv r p : inv r → is_path r p → Forall inv (r :: p).
Proof.
  revert r. induction p as [|r' p IH]; intros r Hi Hp.
  - by constructor.
  - destruct Hp as [Hs Hp]. constructor; [done|].
    apply IH; [by eapply inv_step|done].
Qed.

Lemma entries_grow (S : State → gset Obj) o r p :
  (∀ r1 r2, inv r1 → step r1 r2 → S (state r1) ⊆ S (state r2)) →
  inv r → is_path r p →
  entries S o r p = 0 ∨ (entries S o r p = 1 ∧ o ∉ S (state r)).
Proof.
  intros Hmono. revert r. induction p as [|r' p IH]; intros r Hi Hp; simpl.
  - by left.
  - destruct Hp as [Hs Hp]. pose proof (inv_step r r' Hi Hs) as Hi'.
    destruct (IH r' Hi' Hp) as [->|[-> Hn]]; case_decide; try lia.
    + right. split; [lia|prop].
    + prop.
    + right. split; [lia|]. intros Hin. apply Hn. by apply (Hmono r r' Hi Hs).
Qed.

Lemma entries_terminal o r p :
  inv r → is_path r p →
  entries finished o r p + entries failed o r p = 0
  ∨ (entries finished o r p + entries failed o r p = 1
     ∧ (o ∉ finished (state r)) ∧ o ∉ failed (state r)).
Proof.
  revert r. induction p as [|r' p IH]; intros r Hi Hp; simpl.
  - by left.
  - destruct Hp as [Hs Hp]. pose proof (inv_step r r' Hi Hs) as Hi'.
    destruct (step_mono r r' Hi Hs) as (_ & Hfin & Hfail).
    pose proof (inv_disjoint r' Hi') as Hdis.
    destruct (IH r' Hi' Hp) as [IH0|(IH1 & Hn1 & Hn2)]; repeat case_decide;
      try (left; lia); try (right; split; [lia|prop]); try sets.
    right. split; [lia|]. sets.
Qed.

Lemma terminal_frozen o r p :
  inv r → is_path r p → o ∈ finished (state r) ∪ failed (state r) →
  Forall (λ r', o ∈ finished (state r') ∪ failed (state r')
                ∧ (o ∉ pending (state r'))
                ∧ (o ∈ started (state r') ↔ o ∈ started (state r))) p.
Proof.
  revert r. induction p as [|r' p IH]; intros r Hi Hp Ht; [done|].
  destruct Hp as [Hs Hp]. pose proof (inv_step r r' Hi Hs) as Hi'.
  destruct (step_mono r r' Hi Hs) as (Hst & Hfin & Hfail).
  assert (o ∈ finished (state r') ∪ failed (state r')) as Ht' by sets.
  assert (o ∉ pending (state r)) as Hnp by (rewrite elem_of_pending; sets).
  assert (o ∈ started (state r') ↔ o ∈ started (state r)) as Hiff.
  { split; [|by apply Hst]. intros Hin.
    destruct (decide (o ∈ started (state r))) as [|Hn]; [done|].
    by destruct (never_started_step r r' o Hi Hs Hnp Hn). }
  constructor.
  - split_and!; [done| |done]. rewrite elem_of_pending. sets.
  - eapply Forall_impl; [by apply (IH r')|]. simpl. intros r'' (?&?&?).
    split_and!; [done..|]. by rewrite <-Hiff.
Qed.

Lemma entries_never_started o r p :
  inv r → is_path r p → o ∉ pending (state r) → o ∉ started (state r) →
  entries started o r p = 0.
Proof.
  revert r. induction p as [|r' p IH]; intros r Hi Hp Hnp Hn; simpl; [done|].
  destruct Hp as [Hs Hp].
  destruct (never_started_step r r' o Hi Hs Hnp Hn) as [??].
  rewrite (IH r'); [|by eapply inv_step|done..].
  case_decide; [prop|done].
Qed.

(** The universe is split into the pending objects, the objects in flight
    and the finished and failed ones. *)
Lemma universe_partition r :
  inv r →
  size (pending (state r))
  + size (started (state r) ∖ (finished (state r) ∪ failed (state r)))
  + size (finished (state r)) + size (failed (state r))
  = size universe.
Proof.
  intros Hi. pose proof (inv_started r Hi) as Hs.
  pose proof (inv_failed r Hi) as Hf. pose proof (inv_finished r Hi) as Hfs.
  pose proof (inv_disjoint r Hi) as Hd.
  assert (universe
          = pending (state r)
            ∪ (started (state r) ∖ (finished (state r) ∪ failed (state r))
               ∪ (finished (state r) ∪ failed (state r)))) as ->.
  { apply set_eq. intros x. unfold pending, universe in *.
    destruct (decide (x ∈ started (state r))),
      (decide (x ∈ finished (state r))),
      (decide (x ∈ failed (state r))); sets. }
  rewrite (size_union (pending (state r))) by (unfold pending; sets).
  rewrite (size_union (started (state r) ∖ _)) by sets.
  rewrite (size_union (finished (state r))) by done. lia.
Qed.

Lemma terminal_size_le r :
  inv r → size (finished (state r)) + size (failed (state r)) ≤ size universe.
Proof. intros Hi. pose proof (universe_partition r Hi). lia. Qed.

Lemma is_done_universe r :
  inv r → NoDup objects →
  is_done (state r) = true
  ↔ size universe ≤ size (finished (state r)) + size (failed (state r)).
Proof.
  intros Hi Hnd. rewrite is_done_true. unfold universe.
  by rewrite size_list_to_set.
Qed.

Lemma is_done_all_terminal r :
  inv r →
  is_done (state r) = true →
  finished (state r) ∪ failed (state r) = universe
  ∧ pending (state r) = ∅
  ∧ started (state r) ⊆ finished (state r) ∪ failed (state r).
Proof.
  intros Hi Hd%is_done_true. pose proof (universe_partition r Hi) as Hp.
  pose proof size_universe_le as Hle.
  assert (pending (state r) = ∅) as Hpe
    by (apply (leibniz_equiv _ _), size_empty_inv; lia).
  assert (started (state r) ∖ (finished (state r) ∪ failed (state r)) = ∅)
    as Hfl by (apply (leibniz_equiv _ _), size_empty_inv; lia).
  pose proof (inv_started r Hi). pose proof (inv_failed r Hi).
  pose proof (inv_finished r Hi).
  split_and!; [|done|].
  - apply set_eq. intros x. unfold pending, universe in *.
    destruct (decide (x ∈ started (state r))),
      (decide (x ∈ finished (state r))),
      (decide (x ∈ failed (state r))); sets.
  - intros x Hx.
    destruct (decide (x ∈ finished (state r) ∪ failed (state r))); [done|sets].
Qed.

(** C4 (amended: [is_done()] compares with the length of the object list,
    which is the size of the universe when no object is repeated).  Along
    every execution from a reachable state, an object enters
    [started] at most once and enters [finished] or [failed] at most once
    in total (the two sets stay disjoint); an object in [finished] or
    [failed] stays there, is never pending again and its membership in
    [started] no longer changes; [pending()] is the universe minus
    [started], [finished] and [failed], and the universe is split into the
    pending objects, the objects in flight, the finished and the failed
    ones.  [is_done()] compares [|finished| + |failed|], which never
    exceeds the size of the universe, with the length of the object list:
    it holds exactly when the sum reaches the size of the universe if no
    object is repeated in the list, and when it holds every object of the
    universe is finished or failed. *)
Theorem scheduling_state_invariant r p o :
  reachable r → is_path r p →
  entries started o r p ≤ 1
  ∧ entries finished o r p + entries failed o r p ≤ 1
  ∧ Forall (λ r', finished (state r') ## failed (state r')) (r :: p)
  ∧ (o ∈ finished (state r) ∪ failed (state r) →
       entries started o r p = 0
       ∧ Forall (λ r', o ∈ finished (state r') ∪ failed (state r')
                       ∧ (o ∉ pending (state r'))
                       ∧ (o ∈ started (state r') ↔ o ∈ started (state r))) p)
  ∧ Forall (λ r', pending (state r')
                  = universe ∖ started (state r') ∖ finished (state r')
                      ∖ failed (state r')
                  ∧ size (pending (state r'))
                    + size (started (state r')
                              ∖ (finished (state r') ∪ failed (state r')))
                    + size (finished (state r')) + size (failed (state r'))
                    = size universe) (r :: p)
  ∧ Forall (λ r', (is_done (state r') = true
                   ↔ length objects
                     ≤ size (finished (state r')) + size (failed (state r')))
                  ∧ size (finished (state r')) + size (failed (state r'))
                    ≤ size universe
                  ∧ (is_done (state r') = true →
                       finished (state r') ∪ failed (state r') = universe))
      (r :: p)
  ∧ (NoDup objects →
       Forall (λ r', is_done (state r') = true
                     ↔ size universe
                       ≤ size (finished (state r'))
                         + size (failed (state r'))) (r :: p)).
Proof.
  intros Hr Hp. pose proof (inv_reachable r Hr) as Hi.
  assert (∀ r1 r2, inv r1 → step r1 r2 →
                   started (state r1) ⊆ started (state r2)) as Hmono.
  { intros r1 r2 Hi1 Hs. by destruct (step_mono r1 r2 Hi1 Hs) as (?&_). }
  split_and!.
  - destruct (entries_grow started o r p Hmono Hi Hp) as [->|[-> _]]; lia.
  - destruct (entries_terminal o r p Hi Hp) as [->|[-> _]]; lia.
  - eapply Forall_impl; [by apply is_path_inv|]. intros r'. apply inv_disjoint.
  - intros Ht. split; [|by apply terminal_frozen].
    destruct (entries_grow started o r p Hmono Hi Hp) as [->|[_ Hn]]; [done|].
    apply entries_never_started; [done..| |done].
    rewrite elem_of_pending. sets.
  - eapply Forall_impl; [by apply is_path_inv|]. intros r' Hi'.
    split; [done|by apply universe_partition].
  - eapply Forall_impl; [by apply is_path_inv|]. intros r' Hi'. split_and!.
    + apply is_done_true.
    + by apply terminal_size_le.
    + intros Hd. by destruct (is_done_all_terminal r' Hi' Hd).
  - intros Hnd. eapply Forall_impl; [by apply is_path_inv|]. intros r' Hi'.
    by apply is_done_universe.
Qed.

(** ** The measure decreases on every step but the timeout *)

Lemma pending_remove (st st' : State) o :
  o ∈ pending st → pending st' = pending st ∖ {[o]} →
  S (size (pending st')) = size (pending st).
Proof.
  intros Ho ->. rewrite size_difference by sets. rewrite size_singleton.
  assert (size (pending st) ≠ 0); [|lia].
  intros Hz%size_empty_inv. sets.
Qed.

Lemma size_pending_start (st : State) o :
  o ∈ pending st →
  S (size (pending (mkState ({[o]} ∪ started st) (finished st) (failed st))))
  = size (pending st).
Proof.
  intros Ho. apply (pending_remove st _ o Ho). unfold pending. simpl. sets.
Qed.

Lemma size_pending_fail (st : State) o :
  o ∈ pending st →
  S (size (pending (mkState (started st) (finished st) ({[o]} ∪ failed st))))
  = size (pending st).
Proof.
  intros Ho. apply (pending_remove st _ o Ho). unfold pending. simpl. sets.
Qed.

Lemma work_left_feed_one r o :
  o ∈ pending (state r) → work_left (feed_one r o) ≤ work_left r.
Proof.
  intros Hp. unfold work_left, qobjs.
  destruct (feed_one_case r o); [| |done]; simpl.
  - rewrite qobjs_app_ev, length_app. simpl.
    pose proof (size_pending_fail (state r) o Hp). lia.
  - rewrite length_app. simpl.
    pose proof (size_pending_start (state r) o Hp). lia.
Qed.

Lemma work_left_feed_queue order r :
  inv r → NoDup order → list_to_set order = pending (state r) →
  work_left (feed_queue order r) ≤ work_left r.
Proof.
  intros Hi Hnd Ho. unfold feed_queue.
  assert (work_left (put_stop_if_done (foldl feed_one r order))
          = work_left (foldl feed_one r order)) as ->.
  { unfold work_left. by rewrite put_stop_qobjs, put_stop_state, put_stop_threads. }
  apply (foldl_feed_one_ind (λ r', work_left r' ≤ work_left r)); try done.
  - intros r' o _ Hle Hp. pose proof (work_left_feed_one r' o Hp). lia.
  - intros o. by apply order_pending.
Qed.

Lemma measure_feed order r :
  inv r → pc r = AtFeed → NoDup order → list_to_set order = pending (state r) →
  measure (set_pc AtGet (feed_queue order r)) < measure r.
Proof.
  intros Hi Hpc Hnd Ho. pose proof (work_left_feed_queue order r Hi Hnd Ho).
  unfold measure. rewrite Hpc. simpl.
  change (work_left (set_pc AtGet (feed_queue order r)))
    with (work_left (feed_queue order r)). lia.
Qed.

Lemma measure_get r :
  inv r → pc r = AtGet → results r ≠ [] → measure (get_step r) < measure r.
Proof.
  intros Hi Hpc Hne. unfold measure at 2. rewrite Hpc.
  unfold get_step. destruct (results r) as [|[ev|] q] eqn:Hr; [done| |].
  - unfold measure, work_left, qobjs. simpl. rewrite Hr, qobjs_cons_ev. simpl.
    assert (pending (record_event ev (state r)) = pending (state r)) as ->; [|lia].
    assert (ev_obj ev ∈ started (state r) ∪ failed (state r)) as Hin.
    { apply (inv_account r Hi). unfold qobjs. rewrite Hr, qobjs_cons_ev.
      rewrite !elem_of_app, elem_of_cons. prop. }
    unfold pending, record_event. destruct (ev_exception ev); simpl; sets.
  - unfold measure. simpl. lia.
Qed.

Lemma measure_producer r t1 o t2 :
  inv r → threads r = t1 ++ o :: t2 →
  measure (producer_step t1 o t2 r) < measure r.
Proof.
  intros Hi Ht.
  assert (pc r ≠ Stopped) as Hpc.
  { intros Hs. destruct (inv_stopped r Hi Hs) as [Hd _].
    rewrite (done_no_threads r Hi Hd) in Ht. by destruct t1. }
  assert (S (work_left (producer_step t1 o t2 r)) = work_left r) as Hw.
  { unfold work_left, qobjs. simpl. rewrite qobjs_app_ev, Ht, !length_app. simpl. lia. }
  unfold measure. simpl. destruct (pc r); [lia..|done].
Qed.

Lemma measure_step r r' :
  inv r → step r r' →
  measure r' < measure r ∨ (is_timeout r ∧ r' = set_pc AtFeed r).
Proof.
  intros Hi Hs. destruct Hs as [r order Hpc Hnd Ho|r Hpc|r t1 o t2 Ht].
  - left. by apply measure_feed.
  - destruct (results r) as [|it q] eqn:Hr.
    + right. split; [done|]. unfold get_step. by rewrite Hr.
    + left. apply measure_get; [done..|]. by rewrite Hr.
  - left. by apply measure_producer.
Qed.

(** ** While the coordinator waits *)

Lemma inv_get_feed order r :
  inv r → NoDup order → list_to_set order = pending (state r) →
  inv_get (set_pc AtGet (feed_queue order r)).
Proof.
  intros Hi Hnd Ho.
  assert (∀ x, x ∈ order → x ∈ pending (state r)) as Hall.
  { intros x. by apply order_pending. }
  pose proof (feed_ext_foldl order r Hnd Hall Hi) as He.
  assert (∀ o, o ∈ pending (state (feed_queue order r)) →
    (∃ d, d ∈ get_deps o ∧ d ∈ objects ∧ d ∉ finished (state r))
    ∧ (∀ d, d ∈ get_deps o → d ∉ failed (state r))) as Hwait.
  { intros o Hp.
    assert (o ∈ pending (state r)) as Hp0.
    { unfold feed_queue in Hp. rewrite put_stop_state in Hp.
      by apply (feed_ext_pending r) in Hp. }
    destruct (feed_queue_pending_cases order r o Hi Hnd Ho Hp0)
      as [(_ & ? & ?)|[(? & _)|(? & _)]]; [done| |];
      apply elem_of_pending in Hp; prop. }
  split; unfold qobjs; cbn [set_pc state results].
  - intros Hd. unfold feed_queue in *. rewrite put_stop_state in Hd.
    rewrite put_stop_results, Hd. sets.
  - intros o Hp. destruct (Hwait o Hp) as [(d & ? & ? & Hdf) _].
    exists d. split_and!; [done..|]. unfold feed_queue.
    by rewrite put_stop_state, (fe_finished _ _ He).
  - intros o d Hp Hd Hdf. destruct (Hwait o Hp) as [_ Hnone].
    unfold feed_queue in *. rewrite put_stop_state in Hdf.
    destruct (fe_upstream _ _ He d Hdf (Hnone d Hd)) as (_ & Hev & _).
    rewrite put_stop_results. apply elem_of_qobjs.
    exists (d, None, Some UpstreamError). split; [|done].
    apply elem_of_app. by left.
Qed.

Lemma inv_get_producer r t1 o t2 :
  inv_get r → inv_get (producer_step t1 o t2 r).
Proof.
  intros [Hs Hb Hc]. split; simpl.
  - intros Hd. apply elem_of_app. left. by apply Hs.
  - done.
  - intros x d Hp Hd Hdf. unfold qobjs. simpl. rewrite qobjs_app_ev.
    apply elem_of_app. left. by apply Hc with x.
Qed.

Lemma inv_get_step' r r' :
  inv r → (pc r = AtGet → inv_get r) → step r r' → pc r' = AtGet → inv_get r'.
Proof.
  intros Hi Hg Hs. destruct Hs as [r order Hpc Hnd Ho|r Hpc|r t1 o t2 Ht].
  - intros _. by apply inv_get_feed.
  - unfold get_step. by destruct (results r) as [|[ev|] q].
  - simpl. intros Hpc. by apply inv_get_producer, Hg.
Qed.

Lemma inv_get_rtc r r' :
  inv r → (pc r = AtGet → inv_get r) → rtc step r r' →
  pc r' = AtGet → inv_get r'.
Proof.
  intros Hi Hg Hs. induction Hs as [|r r1 r2 Hs Hs' IH]; [done|].
  apply IH; [by eapply inv_step|]. by apply (inv_get_step' r).
Qed.

Lemma inv_get_reachable r : reachable r → pc r = AtGet → inv_get r.
Proof. apply inv_get_rtc; [apply inv_init|done]. Qed.

(** ** Acyclic dependencies *)

Lemma tc_dep_edge_objects o d : tc dep_edge o d → d ∈ objects.
Proof. induction 1 as [?? (_ & ? & _)|]; done. Qed.

Lemma acyclic_sn : acyclic → ∀ o, sn dep_edge o.
Proof.
  intros Hac o. apply tc_finite_sn.
  - intros x. apply Hac.
  - exists objects. intros d. apply tc_dep_edge_objects.
Qed.

Lemma sn_not_cycle o : sn dep_edge o → ¬ tc dep_edge o o.
Proof.
  induction 1 as [o _ IH]. intros Htc.
  inversion Htc as [? ? Hod|? d ? Hod Hdo]; subst.
  - by apply (IH o).
  - apply (IH d); [done|]. eapply tc_r; done.
Qed.

Lemma ranked_spec rank :
  ranked rank = true → ∀ o d, dep_edge o d → rank d < rank o.
Proof.
  unfold ranked. rewrite forallb_forall. intros Hall o d (Ho & Hd & Hdep).
  apply list_elem_of_In, Hall in Ho. rewrite forallb_forall in Ho.
  apply list_elem_of_In, Ho in Hdep.
  apply orb_true_iff in Hdep as [Hn|Hlt].
  - apply negb_true_iff, bool_decide_eq_false in Hn. done.
  - by apply bool_decide_eq_true in Hlt.
Qed.

Lemma ranked_acyclic rank : ranked rank = true → acyclic.
Proof.
  intros Hr o Htc.
  assert (∀ x y, tc dep_edge x y → rank y < rank x) as Hlt.
  { induction 1 as [x y Hxy|x y z Hxy _ IH].
    - by apply ranked_spec.
    - pose proof (ranked_spec rank Hr x y Hxy). lia. }
  specialize (Hlt o o Htc). lia.
Qed.

(** Among pending objects of an acyclic graph, one has no pending
    dependency. *)
Lemma pending_minimal (st : State) o :
  acyclic → o ∈ pending st →
  ∃ o', o' ∈ pending st
        ∧ ∀ d, d ∈ get_deps o' → d ∈ objects → d ∉ pending st.
Proof.
  intros Hac. pose proof (acyclic_sn Hac o) as Hsn.
  induction Hsn as [o _ IH]. intros Hp.
  destruct (decide (Exists (λ d, d ∈ objects ∧ d ∈ pending st) (get_deps o)))
    as [Hex|Hnex].
  - apply Exists_exists in Hex as (d & Hd & Hdo & Hdp).
    apply (IH d); [|done]. split_and!; [|done..].
    apply elem_of_pending in Hp. prop.
  - exists o. split; [done|]. intros d Hd Hdo Hdp. apply Hnex.
    apply Exists_exists. eauto.
Qed.

(** When the queue is empty and no thread runs after an admission pass of an
    acyclic graph, every object has had its event yielded. *)
Lemma quiescent_all_yielded r :
  acyclic → inv r → inv_get r → results r = [] → threads r = [] →
  pending (state r) = ∅
  ∧ ∀ o, o ∈ objects →
      o ∈ finished (state r) ∪ failed (state r) ∧ o ∈ yobjs r.
Proof.
  intros Hac Hi Hg Hr Ht.
  assert (∀ o, o ∈ started (state r) ∪ failed (state r) → o ∈ yobjs r) as Hy.
  { intros o Ho. apply (inv_account r Hi) in Ho.
    unfold qobjs in Ho. rewrite Ht, Hr in Ho. by simpl in Ho. }
  assert (∀ o, o ∈ yobjs r → o ∈ finished (state r) ∪ failed (state r)) as Hterm.
  { intros o (ev & -> & Hev)%list_elem_of_fmap.
    pose proof (inv_yielded r Hi ev Hev). destruct (ev_exception ev); sets. }
  assert (pending (state r) = ∅) as Hemp.
  { apply set_eq. intros o. split; [|sets]. intros Hp. exfalso.
    destruct (pending_minimal (state r) o Hac Hp) as (o' & Hp' & Hmin).
    destruct (ig_blocked r Hg o' Hp') as (d & Hd & Hdo & Hdf).
    specialize (Hmin d Hd Hdo).
    destruct (decide (d ∈ failed (state r))) as [Hfail|Hnfail].
    - pose proof (ig_cascade r Hg o' d Hp' Hd Hfail) as Hq.
      unfold qobjs in Hq. rewrite Hr in Hq. by apply elem_of_nil in Hq.
    - assert (d ∈ started (state r)) as Hs.
      { destruct (decide (d ∈ started (state r))); [done|].
        exfalso. apply Hmin. by apply elem_of_pending. }
      assert (d ∈ finished (state r) ∪ failed (state r)) by (apply Hterm, Hy; sets).
      sets. }
  split; [done|]. intros o Ho.
  assert (o ∈ started (state r) ∪ failed (state r)) as Hin.
  { destruct (decide (o ∈ started (state r) ∪ failed (state r))) as [|Hn]; [done|].
    assert (o ∈ pending (state r)); [|sets].
    apply elem_of_pending. pose proof (inv_finished r Hi). sets. }
  split; [apply Hterm|]; by apply Hy.
Qed.

(** The coordinator only times out while a worker is still running. *)
Lemma timeout_has_thread r :
  acyclic → NoDup objects → reachable r → is_timeout r → threads r ≠ [].
Proof.
  intros Hac Hnd Hr [Hpc Hres] Ht.
  pose proof (inv_reachable r Hr) as Hi.
  pose proof (inv_get_reachable r Hr Hpc) as Hg.
  destruct (quiescent_all_yielded r Hac Hi Hg Hres Ht) as [_ Hall].
  assert (is_done (state r) = true) as Hd.
  { apply is_done_true. rewrite terminal_size by done.
    rewrite <-(size_list_to_set (C:=gset Obj) objects) by done.
    apply subseteq_size. intros o Ho%elem_of_list_to_set. by apply Hall. }
  apply (ig_stop r Hg) in Hd. rewrite Hres in Hd. by apply elem_of_nil in Hd.
Qed.

(** Every state short of the end has a step that makes progress. *)
Lemma progress r :
  acyclic → NoDup objects → reachable r → pc r ≠ Stopped →
  ∃ r', step r r' ∧ measure r' < measure r.
Proof.
  intros Hac Hnd Hr Hpc. pose proof (inv_reachable r Hr) as Hi.
  destruct (pc r) eqn:Hl; [| |done].
  - exists (set_pc AtGet (feed_queue (elements (pending (state r))) r)).
    assert (NoDup (elements (pending (state r)))) by apply NoDup_elements.
    assert (list_to_set (elements (pending (state r))) = pending (state r))
      by apply list_to_set_elements_L.
    split; [by constructor|by apply measure_feed].
  - destruct (results r) as [|it q] eqn:Hres.
    + destruct (threads r) as [|o t] eqn:Ht.
      { by destruct (timeout_has_thread r Hac Hnd Hr). }
      exists (producer_step [] o t r).
      split; [by constructor|by apply measure_producer].
    + exists (get_step r). split; [by constructor|].
      apply measure_get; [done..|]. by rewrite Hres.
Qed.

(** Every execution can be completed, and a completed run has yielded
    exactly one event per object. *)
Lemma stopped_yielded r :
  NoDup objects → inv r → pc r = Stopped → yobjs r ≡ₚ objects.
Proof.
  intros Hnd Hi Hpc. destruct (inv_stopped r Hi Hpc) as [Hd Hq].
  pose proof (done_all_terminal r Hi Hd) as Hall.
  pose proof (done_no_threads r Hi Hd) as Ht.
  pose proof (inv_nodup r Hi) as Hn. rewrite Ht, Hq in Hn. simpl in Hn.
  apply NoDup_Permutation; [done..|]. intros o.
  rewrite <-(elem_of_list_to_set (C:=gset Obj) o objects). fold universe.
  rewrite <-Hall. split.
  - intros (ev & -> & Hev)%list_elem_of_fmap.
    pose proof (inv_yielded r Hi ev Hev). destruct (ev_exception ev); sets.
  - intros Ho. pose proof (inv_finished r Hi).
    assert (o ∈ started (state r) ∪ failed (state r)) as Hin by sets.
    apply (inv_account r Hi) in Hin. rewrite Ht, Hq in Hin. by simpl in Hin.
Qed.

Lemma can_complete r :
  acyclic → NoDup objects → reachable r →
  ∃ r', rtc step r r' ∧ pc r' = Stopped.
Proof.
  intros Hac Hnd. remember (measure r) as n eqn:Hn. revert r Hn.
  induction (lt_wf n) as [n _ IH]. intros r -> Hr.
  destruct (decide (pc r = Stopped)) as [|Hpc]; [by exists r|].
  destruct (progress r Hac Hnd Hr Hpc) as (r1 & Hs & Hlt).
  destruct (IH _ Hlt r1 eq_refl) as (r' & Hs' & Hpc').
  { eapply rtc_r; done. }
  exists r'. split; [|done]. by eapply rtc_l.
Qed.

Lemma step_yielded r r' : inv r → step r r' → yielded r `prefix_of` yielded r'.
Proof.
  intros Hi Hs. destruct Hs as [r order Hpc Hnd Ho|r Hpc|r t1 o t2 Ht].
  - cbn [set_pc yielded]. unfold feed_queue. rewrite put_stop_yielded.
    rewrite (fe_yielded r _ (feed_ext_foldl order r Hnd
      (λ x, proj1 (order_pending order _ Ho x)) Hi)). done.
  - unfold get_step. destruct (results r) as [|[ev|] q]; simpl; [done| |done].
    by apply prefix_app_r.
  - done.
Qed.

Lemma rtc_yielded r r' :
  inv r → rtc step r r' → yielded r `prefix_of` yielded r'.
Proof.
  intros Hi Hs. induction Hs as [|r r1 r2 Hs Hs' IH]; [done|].
  etrans; [by apply step_yielded|]. apply IH. by eapply inv_step.
Qed.

Lemma yielded_nodup r : inv r → NoDup (ev_obj <$> yielded r).
Proof.
  intros Hi. pose proof (inv_nodup r Hi) as Hn.
  apply NoDup_app in Hn as (_ & _ & Hn). by apply NoDup_app in Hn as (_ & _ & Hn).
Qed.

Lemma yielded_objects r ev : inv r → ev ∈ yielded r → ev_obj ev ∈ objects.
Proof.
  intros Hi Hev. apply (elem_of_list_to_set (C:=gset Obj)).
  pose proof (inv_yielded r Hi ev Hev). pose proof (inv_started r Hi).
  pose proof (inv_finished r Hi). pose proof (inv_failed r Hi).
  fold universe. destruct (ev_exception ev); sets.
Qed.

(** ** Claim C3 *)

(** C3 (amended: the object list has no repeated object).  When the
    dependencies inside the universe are acyclic and the objects are
    pairwise distinct, the events yielded so far never contain two events
    of one object and only events of objects of the universe; when the
    coordinator has left its loop they are exactly one event per object;
    every step except the timeout of [results.get] decreases [measure], a
    timeout only happens while a worker thread is running, and a step that
    decreases [measure] is always possible before the end; so every
    execution can be completed to one that has stopped, extending the
    events yielded so far to exactly one per object. *)
Theorem one_event_per_object r :
  acyclic → NoDup objects → reachable r →
  NoDup (ev_obj <$> yielded r)
  ∧ (∀ ev, ev ∈ yielded r → ev_obj ev ∈ objects)
  ∧ (pc r = Stopped → (ev_obj <$> yielded r) ≡ₚ objects)
  ∧ (∀ r', step r r' →
       measure r' < measure r
       ∨ (is_timeout r ∧ threads r ≠ [] ∧ r' = set_pc AtFeed r))
  ∧ (pc r ≠ Stopped → ∃ r', step r r' ∧ measure r' < measure r)
  ∧ (∃ r', rtc step r r' ∧ pc r' = Stopped
           ∧ yielded r `prefix_of` yielded r'
           ∧ (ev_obj <$> yielded r') ≡ₚ objects).
Proof.
  intros Hac Hnd Hr. pose proof (inv_reachable r Hr) as Hi. split_and!.
  - by apply yielded_nodup.
  - intros ev. by apply yielded_objects.
  - by apply stopped_yielded.
  - intros r' Hs. destruct (measure_step r r' Hi Hs) as [|[Ht ->]]; [by left|].
    right. split_and!; [done| |done]. by apply timeout_has_thread.
  - by apply progress.
  - destruct (can_complete r Hac Hnd Hr) as (r' & Hs & Hpc).
    exists r'. split_and!; [done..|by apply rtc_yielded|].
    apply stopped_yielded; [done| |done]. by eapply inv_rtc.
Qed.

(** ** Repeated objects *)

Lemma size_list_to_set_dup (l : list Obj) :
  ¬ NoDup l → size (list_to_set l : gset Obj) < length l.
Proof.
  induction l as [|x l IH]; intros Hd.
  - destruct Hd. constructor.
  - rewrite list_to_set_cons. simpl.
    destruct (decide (x ∈ l)) as [Hx|Hx].
    + assert ({[x]} ∪ list_to_set l = (list_to_set l : gset Obj)) as -> by sets.
      pose proof (size_list_to_set_le l). lia.
    + rewrite size_union_alt, size_singleton.
      assert (size (list_to_set l ∖ {[x]} : gset Obj) ≤ size (list_to_set l : gset Obj))
        by (apply subseteq_size; sets).
      assert (¬ NoDup l) as Hl by (intros Hl; apply Hd; by constructor).
      specialize (IH Hl). lia.
Qed.

Lemma stop_in_queue_done r :
  inv r → STOP ∈ results r → is_done (state r) = true.
Proof.
  intros Hi Hin. destruct (inv_shape r Hi) as (evs & n & Hr & Hn).
  apply Hn. destruct n; [|lia]. rewrite Hr in Hin. simpl in Hin.
  rewrite app_nil_r in Hin. apply list_elem_of_fmap in Hin as (? & ? & _). done.
Qed.

Lemma not_done_never_stops r :
  inv r → is_done (state r) = false →
  (STOP ∉ results r) ∧ pc r ≠ Stopped.
Proof.
  intros Hi Hd. split.
  - intros Hin. apply stop_in_queue_done in Hin; congruence.
  - intros Hs. destruct (inv_stopped r Hi Hs). congruence.
Qed.

Lemma dup_never_done r :
  ¬ NoDup objects → reachable r →
  size (finished (state r)) + size (failed (state r)) < length objects
  ∧ is_done (state r) = false ∧ (STOP ∉ results r) ∧ pc r ≠ Stopped.
Proof.
  intros Hd Hr. pose proof (inv_reachable r Hr) as Hi.
  assert (size (finished (state r)) + size (failed (state r)) < length objects) as Hlt.
  { rewrite terminal_size by done. pose proof (size_list_to_set_dup objects Hd).
    assert (size (finished (state r) ∪ failed (state r)) ≤ size universe); [|unfold universe in *; lia].
    apply subseteq_size. destruct Hi. sets. }
  split; [done|]. assert (is_done (state r) = false) by (by apply is_done_false).
  split; [done|]. by apply not_done_never_stops.
Qed.

(** ** Claim C9 *)

(** C9. If the object list repeats an object, [|finished| + |failed|] stays
    below the length of the list, so [is_done()] is never true, [STOP] is
    never put on the queue and the coordinator never leaves its loop; still
    no object has two events, no object is started twice, and (for acyclic
    dependencies) once the queue is empty and no thread runs after an
    admission pass, every distinct object has had its event yielded. *)
Theorem repeated_object_never_done r :
  ¬ NoDup objects → reachable r →
  size (finished (state r)) + size (failed (state r)) < length objects
  ∧ is_done (state r) = false
  ∧ (STOP ∉ results r)
  ∧ pc r ≠ Stopped
  ∧ NoDup (ev_obj <$> yielded r)
  ∧ NoDup (threads r ++ invoked r)
  ∧ (acyclic → is_timeout r → threads r = [] →
       ∀ o, o ∈ objects → o ∈ ev_obj <$> yielded r).
Proof.
  intros Hd Hr. pose proof (inv_reachable r Hr) as Hi.
  destruct (dup_never_done r Hd Hr) as (? & ? & ? & ?).
  split_and!; try done.
  - by apply yielded_nodup.
  - by apply (inv_invoked_nodup r Hi).
  - intros Hac [Hpc Hres] Ht o Ho.
    pose proof (inv_get_reachable r Hr Hpc) as Hg.
    destruct (quiescent_all_yielded r Hac Hi Hg Hres Ht) as [_ Hall].
    by apply Hall.
Qed.

(** ** Dependency cycles *)

Lemma reaches_cycle_not_sn x o :
  rtc dep_edge x o → tc dep_edge o o → ¬ sn dep_edge x.
Proof.
  intros Hxo Hoo Hsn. apply (sn_not_cycle o); [|done].
  by eapply sn_step_rtc.
Qed.

Lemma never_fails_step r0 r :
  (∀ x, x ∈ objects → ∃ res, func x = inl res) → inv r0 → step r0 r →
  failed (state r0) = ∅ ∧ (∀ ev, Ev ev ∈ results r0 → ev_exception ev = None) →
  failed (state r) = ∅ ∧ (∀ ev, Ev ev ∈ results r → ev_exception ev = None).
Proof.
  intros Hok Hi Hs [Hf Hq].
  destruct Hs as [r0 order Hpc Hnd Ho|r0 Hpc|r0 t1 o t2 Ht].
  - cbn [set_pc state results]. unfold feed_queue.
    rewrite put_stop_state, put_stop_results.
    assert (failed (state (foldl feed_one r0 order)) = ∅
            ∧ results (foldl feed_one r0 order) = results r0) as [Hf' Hq'].
    { apply (foldl_feed_one_ind
        (λ r', failed (state r') = ∅ ∧ results r' = results r0)); try done.
      - intros r' o _ [Hf' Hq'] _.
        destruct (feed_one_case r' o) as [d _ Hd| |]; [|done..].
        rewrite Hf' in Hd. sets.
      - intros o. by apply order_pending. }
    split; [done|]. rewrite Hq'. intros ev [Hev|Hev]%elem_of_app; [by apply Hq|].
    destruct (is_done _); sets.
  - unfold get_step. destruct (results r0) as [|[ev|] q] eqn:Hres;
      cbn [set_pc state results].
    + by rewrite Hres.
    + unfold record_event. rewrite (Hq ev) by left. simpl.
      split; [done|]. intros ev' Hev'. apply Hq. by right.
    + split; [done|]. intros ev' Hev'. apply Hq. by right.
  - simpl. split; [done|].
    intros ev [Hev|Hev%list_elem_of_singleton]%elem_of_app; [by apply Hq|].
    injection Hev as ->. destruct (Hok o) as [res Hres].
    { assert (o ∈ threads r0) as Hin by (rewrite Ht; sets).
      by destruct (thread_running r0 o Hi Hin). }
    unfold producer. by rewrite Hres.
Qed.

Lemma never_fails_rtc r0 r :
  (∀ x, x ∈ objects → ∃ res, func x = inl res) → inv r0 → rtc step r0 r →
  failed (state r0) = ∅ ∧ (∀ ev, Ev ev ∈ results r0 → ev_exception ev = None) →
  failed (state r) = ∅.
Proof.
  intros Hok Hi Hs. induction Hs as [|r0 r1 r2 Hs Hs' IH]; [by intros [? _]|].
  intros HQ. apply IH; [by eapply inv_step|]. by apply (never_fails_step r0).
Qed.

Lemma never_fails_no_failed r :
  (∀ x, x ∈ objects → ∃ res, func x = inl res) → reachable r →
  failed (state r) = ∅.
Proof.
  intros Hok Hr. apply (never_fails_rtc run_init); [done|apply inv_init|done|].
  split; [done|]. intros ev Hev. by apply elem_of_nil in Hev.
Qed.

(** ** Claim C8 *)

(** C8 (amended).  An object on a dependency cycle inside the universe, and
    every object that depends on it through the universe, is never admitted:
    it is never in [started] or [finished], it never has a thread and its
    work function is never called.  The only way it leaves pending is the
    upstream-failure cascade: as long as it is not in [failed] it is
    pending, [is_done()] is false, no [STOP] is on the queue and the
    coordinator has not left its loop; and when no work function fails on
    an object of the universe, [failed] stays empty, so then the run never
    ends. *)
Theorem cycle_stalls o r :
  tc dep_edge o o → reachable r →
  (∀ x, rtc dep_edge x o →
     (x ∉ started (state r)) ∧ (x ∉ finished (state r))
     ∧ (x ∉ threads r) ∧ (x ∉ invoked r))
  ∧ (o ∉ failed (state r) →
       o ∈ pending (state r) ∧ is_done (state r) = false
       ∧ (STOP ∉ results r) ∧ pc r ≠ Stopped)
  ∧ ((∀ x, x ∈ objects → ∃ res, func x = inl res) →
       failed (state r) = ∅).
Proof.
  intros Hcyc Hr. pose proof (inv_reachable r Hr) as Hi.
  assert (∀ x, rtc dep_edge x o → x ∉ started (state r)) as Hns.
  { intros x Hxo Hs. apply (reaches_cycle_not_sn x o Hxo Hcyc).
    by apply (inv_sn r Hi). }
  split_and!.
  - intros x Hxo. specialize (Hns x Hxo). split_and!; [done| | |].
    + intros Hf. by apply Hns, (inv_finished r Hi).
    + intros Ht. by destruct (thread_running r x Hi Ht) as (_ & ? & _).
    + intros Ht. by apply Hns, (inv_invoked r Hi).
  - intros Hnf. specialize (Hns o (rtc_refl _ _)).
    assert (o ∈ objects) as Ho by (by eapply tc_dep_edge_objects).
    assert (o ∉ finished (state r)) as Hnfin.
    { intros Hf. by apply Hns, (inv_finished r Hi). }
    assert (is_done (state r) = false) as Hd
      by (by eapply not_done_of_nonterminal).
    split_and!; [by apply elem_of_pending|done|by apply not_done_never_stops..].
  - intros Hok. by apply never_fails_no_failed.
Qed.

(** ** The progress writer *)

Lemma index_first (x : string) (l : list string) i :
  l !! i = Some x → (∀ j, j < i → l !! j ≠ Some x) → index x l = Some i.
Proof.
  revert i. induction l as [|y l IH]; intros i Hi Hfirst; [done|].
  simpl. destruct i as [|i]; simpl in Hi.
  - injection Hi as ->. by rewrite decide_True.
  - rewrite decide_False.
    + rewrite (IH i); [done..|]. intros j Hj. apply (Hfirst (S j)). lia.
    + intros ->. by apply (Hfirst 0); [lia|].
Qed.

Lemma index_Some (x : string) (l : list string) i :
  index x l = Some i → l !! i = Some x ∧ ∀ j, j < i → l !! j ≠ Some x.
Proof.
  revert i. induction l as [|y l IH]; intros i; simpl; [done|].
  case_decide as Hy.
  - intros [= <-]. split; [by subst|]. lia.
  - destruct (index x l) as [k|] eqn:Hk; [|done]. simpl. intros [= <-].
    destruct (IH k eq_refl) as [Hl Hfirst]. split; [done|].
    intros [|j] Hj; simpl; [congruence|]. apply Hfirst. lia.
Qed.

Lemma index_elem_of (x : string) (l : list string) :
  x ∈ l → is_Some (index x l).
Proof.
  induction 1 as [|x y l _ IH]; simpl.
  - rewrite decide_True by done. by eexists.
  - case_decide; [by eexists|]. destruct IH as [k ->]. by eexists.
Qed.

(** ** Claim C7 *)

(** C7. With progress enabled ([msg] is not [None]) and [name] in the
    registry, first registered at position [i], [write name status] appends
    to the stream exactly four strings, in this order: [ESC[<diff>A],
    [ESC[2K] followed by a carriage return, ["<msg> <name> ... <status>"]
    followed by a carriage return, and [ESC[<diff>B], where [diff] is the
    length of the registry minus [i]; the registry and the message are
    unchanged. *)
Theorem write_emits (w : ParallelStreamWriter) (m name status : string) i :
  msg w = Some m →
  lines w !! i = Some name →
  (∀ j, j < i → lines w !! j ≠ Some name) →
  write w name status
  = Some {| stream := stream w ++
              [ESC +:+ "[" +:+ fmt_d (length (lines w) - i) +:+ "A";
               ESC +:+ "[2K" +:+ CR;
               m +:+ " " +:+ name +:+ " ... " +:+ status +:+ CR;
               ESC +:+ "[" +:+ fmt_d (length (lines w) - i) +:+ "B"];
            msg := Some m;
            lines := lines w |}.
Proof.
  intros Hm Hi Hfirst. unfold write. rewrite Hm.
  rewrite (index_first name (lines w) i Hi Hfirst). done.
Qed.

(** ** Dicts *)

Lemma dict_lookup_empty {V : Type} (k : string) : (∅ : dict V) !! k = None.
Proof. done. Qed.

Lemma dict_lookup_insert {V : Type} (d : dict V) (k k' : string) (v : V) :
  <[k:=v]> d !! k' = if decide (k = k') then Some v else d !! k'.
Proof.
  destruct d as [l]. unfold lookup, insert, dict_lookup, dict_insert. simpl.
  induction l as [|[k1 v1] l IH]; simpl.
  - by repeat case_decide.
  - repeat (case_decide; simpl; subst); try done.
Qed.

Lemma dict_lookup_insert_eq {V : Type} (d : dict V) (k : string) (v : V) :
  <[k:=v]> d !! k = Some v.
Proof. rewrite dict_lookup_insert. by case_decide. Qed.

Lemma dict_lookup_insert_ne {V : Type} (d : dict V) (k k' : string) (v : V) :
  k ≠ k' → <[k:=v]> d !! k' = d !! k'.
Proof. intros Hne. rewrite dict_lookup_insert. by case_decide. Qed.

Lemma dict_lookup_items {V : Type} (d : dict V) (k : string) (v : V) :
  d !! k = Some v → (k, v) ∈ items d.
Proof.
  destruct d as [l]. unfold lookup, dict_lookup. simpl.
  induction l as [|[k1 v1] l IH]; simpl; [done|].
  case_decide; subst.
  - intros [= ->]. left.
  - intros Hl. right. by apply IH.
Qed.

Lemma dict_items_lookup {V : Type} (d : dict V) (k : string) (v : V) :
  (k, v) ∈ items d → is_Some (d !! k).
Proof.
  destruct d as [l]. unfold lookup, dict_lookup. simpl.
  induction l as [|[k1 v1] l IH]; simpl.
  - intros Hin. by apply elem_of_nil in Hin.
  - intros Hin. case_decide; [by eexists|].
    apply elem_of_cons in Hin as [[= -> ->]|Hin]; [done|]. by apply IH.
Qed.

Lemma dict_eq_empty {V : Type} (d : dict V) :
  (∀ k, d !! k = None) → d = ∅.
Proof.
  destruct d as [[|[k v] l]]; [done|]. intros Hd. specialize (Hd k).
  unfold lookup, dict_lookup in Hd. simpl in Hd.
  by rewrite decide_True in Hd.
Qed.

(** A key enters the list of keys once, at the end. *)
Lemma setitem_keys {V : Type} (l : list (string * V)) (k : string) (v : V) :
  (setitem k v l).*1 = if decide (k ∈ l.*1) then l.*1 else l.*1 ++ [k].
Proof.
  induction l as [|[k1 v1] l IH]; [done|]. cbn [setitem].
  destruct (decide (k1 = k)) as [->|Hne]; cbn [fmap list_fmap fst].
  - rewrite decide_True by apply list_elem_of_here. done.
  - fold (fmap (M:=list) (@fst string V)). rewrite IH.
    destruct (decide (k ∈ l.*1)) as [Hin|Hin].
    + rewrite decide_True by (by apply list_elem_of_further). done.
    + rewrite decide_False; [done|].
      intros [->|?]%elem_of_cons; done.
Qed.

(** ** The aggregation loop *)

Lemma write_fields w name status w' :
  write w name status = Some w' → msg w' = msg w ∧ lines w' = lines w.
Proof.
  unfold write. destruct (msg w) as [m|] eqn:Hm.
  - destruct (index name (lines w)); simpl; [|done]. by intros [= <-].
  - by intros [= <-].
Qed.

Lemma write_total w name status :
  (msg w = None ∨ name ∈ lines w) → is_Some (write w name status).
Proof.
  intros Hok. unfold write. destruct (msg w) as [m|] eqn:Hm; [|by eexists].
  destruct Hok as [|Hin]; [done|].
  destruct (index_elem_of name (lines w) Hin) as [k ->]. by eexists.
Qed.

Lemma registered_lines (m : option string) :
  msg (registered m).1.1.1 = m
  ∧ (m = None ∨ lines (registered m).1.1.1 = get_name <$> objects).
Proof.
  unfold registered. simpl.
  assert (∀ l w, msg (foldl (λ writer obj, initialize writer (get_name obj)) w l)
                 = msg w
               ∧ (msg w = None
                  ∨ lines (foldl (λ writer obj, initialize writer (get_name obj)) w l)
                    = lines w ++ (get_name <$> l))) as Hgen.
  { induction l as [|o l IH]; intros w; simpl.
    - split; [done|]. right. by rewrite app_nil_r.
    - destruct (IH (initialize w (get_name o))) as [Hm Hl].
      unfold initialize in *. destruct (msg w) as [m'|] eqn:Hmw.
      + simpl in *. split; [done|]. right. destruct Hl as [|Hl]; [done|].
        rewrite Hl, <-(assoc_L (++)). done.
      + split; [by rewrite Hm|]. by left. }
  destruct (Hgen objects (ParallelStreamWriter_init [] m)) as [Hm Hl].
  split; [done|]. simpl in Hl. destruct Hl as [|Hl]; [by left|by right].
Qed.

Lemma handle_event_fields writer errors results x ev writer' errors' results' x' :
  handle_event (writer, errors, results, x) ev
  = Some (writer', errors', results', x') →
  msg writer' = msg writer ∧ lines writer' = lines writer.
Proof.
  destruct ev as [[o res] [[expl|m| |e]|]]; simpl;
    try (destruct (write writer _ _) as [w1|] eqn:Hw; simpl; [|done];
         intros [= <- _ _ _]; by eapply write_fields).
  by intros [= <- _ _ _].
Qed.

Lemma handle_event_total writer errors results x ev :
  (msg writer = None ∨ get_name (ev_obj ev) ∈ lines writer) →
  is_Some (handle_event (writer, errors, results, x) ev).
Proof.
  intros Hok. destruct ev as [[o res] [[expl|m| |e]|]]; simpl;
    try (destruct (write_total writer (get_name o) "error" Hok) as [w1 ->];
         by eexists);
    try (destruct (write_total writer (get_name o) "done" Hok) as [w1 ->];
         by eexists).
  by eexists.
Qed.

Lemma drain_total evs writer errors results x :
  (msg writer = None ∨ ∀ ev, ev ∈ evs → get_name (ev_obj ev) ∈ lines writer) →
  is_Some (drain (writer, errors, results, x) evs).
Proof.
  revert writer errors results x.
  induction evs as [|ev evs IH]; intros writer errors results x Hok; cbn [drain].
  - by eexists.
  - destruct (handle_event_total writer errors results x ev) as [acc' Hacc].
    { destruct Hok as [|Hok]; [by left|right]. apply Hok. left. }
    rewrite Hacc. simpl. destruct acc' as [[[writer' errors'] results'] x'].
    destruct (handle_event_fields _ _ _ _ _ _ _ _ _ Hacc) as [Hm Hl].
    apply IH. rewrite Hm, Hl. destruct Hok as [|Hok]; [by left|right].
    intros ev' Hev'. apply Hok. by right.
Qed.

Lemma drain_registered_total (m : option string) evs :
  (∀ ev, ev ∈ evs → ev_obj ev ∈ objects) →
  is_Some (drain (registered m) evs).
Proof.
  intros Hobj. destruct (registered_lines m) as [Hm Hl].
  destruct (registered m) as [[[writer errors] results] x]. simpl in *.
  apply drain_total. destruct Hl as [->|Hl]; [by left|right].
  intros ev Hev. rewrite Hl. apply list_elem_of_fmap_2. by apply Hobj.
Qed.

Lemma drain_app acc evs1 evs2 :
  drain acc (evs1 ++ evs2) = drain acc evs1 ≫= λ acc', drain acc' evs2.
Proof.
  revert acc. induction evs1 as [|ev evs1 IH]; intros acc; cbn [drain app]; [done|].
  destruct (handle_event acc ev) as [acc1|]; simpl; [apply IH|done].
Qed.

(** The results kept are those of all the events without an exception. *)
Lemma drain_results evs writer errors results x writer' errors' results' x' :
  drain (writer, errors, results, x) evs
  = Some (writer', errors', results', x') →
  results'
  = results ++ (ev_result <$> filter (λ ev, ev_exception ev = None) evs).
Proof.
  revert writer errors results x.
  induction evs as [|ev evs IH]; intros writer errors results x; cbn [drain].
  - intros [= _ _ <- _]. by rewrite app_nil_r.
  - destruct (handle_event _ ev) as [[[[w1 e1] r1] x1]|] eqn:Hev; simpl; [|done].
    intros Hd. rewrite (IH _ _ _ _ Hd). clear Hd IH.
    destruct ev as [[o res] [[expl|m| |e]|]]; simpl in Hev;
      try (destruct (write writer _ _); simpl in Hev; [|done]);
      injection Hev as _ _ <- _;
      rewrite ?filter_cons_True, ?filter_cons_False by done; [done..|].
    by rewrite <-(assoc_L (++)).
Qed.

(** An entry of the error map is untouched by events of other names and by
    upstream failures. *)
Lemma drain_errors_unchanged evs n writer errors results x
    writer' errors' results' x' :
  (∀ ev, ev ∈ evs → get_name (ev_obj ev) = n →
     ev_exception ev = None ∨ ev_exception ev = Some UpstreamError) →
  drain (writer, errors, results, x) evs
  = Some (writer', errors', results', x') →
  errors' !! n = errors !! n.
Proof.
  revert writer errors results x.
  induction evs as [|ev evs IH]; intros writer errors results x Hup; cbn [drain].
  - by intros [= _ <- _ _].
  - destruct (handle_event _ ev) as [[[[w1 e1] r1] x1]|] eqn:Hev; simpl; [|done].
    intros Hd. rewrite (IH _ _ _ _ (λ ev' Hev', Hup ev' (list_elem_of_further _ _ _ Hev')) Hd).
    clear Hd IH. specialize (Hup ev (list_elem_of_here _ _)).
    destruct ev as [[o res] [[expl|m| |e]|]]; simpl in Hev, Hup;
      try (destruct (write writer _ _); simpl in Hev; [|done]);
      injection Hev as _ <- _ _; try done;
      (destruct (decide (get_name o = n)) as [Hn|Hn];
        [destruct (Hup Hn); done|by rewrite dict_lookup_insert_ne]).
Qed.

(** The error to re-raise is the one of the last unexpected failure. *)
Lemma drain_reraise_unchanged evs writer errors results x
    writer' errors' results' x' :
  (∀ ev e, ev ∈ evs → ev_exception ev ≠ Some (OtherError e)) →
  drain (writer, errors, results, x) evs
  = Some (writer', errors', results', x') →
  x' = x.
Proof.
  revert writer errors results x.
  induction evs as [|ev evs IH]; intros writer errors results x Hno; cbn [drain].
  - by intros [= _ _ _ <-].
  - destruct (handle_event _ ev) as [[[[w1 e1] r1] x1]|] eqn:Hev; simpl; [|done].
    intros Hd.
    rewrite (IH _ _ _ _ (λ ev' e Hev', Hno ev' e (list_elem_of_further _ _ _ Hev')) Hd).
    clear Hd IH. pose proof (λ e, Hno ev e (list_elem_of_here _ _)) as Hne.
    destruct ev as [[o res] [[expl|m| |e]|]]; simpl in Hev, Hne;
      try (destruct (write writer _ _); simpl in Hev; [|done]);
      injection Hev as _ _ _ <-; try done.
    by destruct (Hne e).
Qed.

Lemma handle_unexpected writer errors results x o res e :
  handle_event (writer, errors, results, x) (o, res, Some (OtherError e))
  = Some (writer, <[get_name o := ErrExc (OtherError e)]> errors, results,
          Some (OtherError e)).
Proof. done. Qed.

Lemma handle_upstream writer errors results x o res :
  handle_event (writer, errors, results, x) (o, res, Some UpstreamError)
  = (λ writer', (writer', errors, results, x))
    <$> write writer (get_name o) "error".
Proof. simpl. by destruct (write _ _ _). Qed.

(** What an unexpected failure in the middle of the events leaves behind. *)
Lemma drain_unexpected (m : option string) evs1 o res e evs2 :
  (∀ ev, ev ∈ evs1 ++ (o, res, Some (OtherError e)) :: evs2 →
     ev_obj ev ∈ objects) →
  ∃ writer errors results x,
    drain (registered m) (evs1 ++ (o, res, Some (OtherError e)) :: evs2)
    = Some (writer, errors, results, x)
    ∧ results
      = ev_result <$> filter (λ ev, ev_exception ev = None)
                        (evs1 ++ (o, res, Some (OtherError e)) :: evs2)
    ∧ ((∀ ev, ev ∈ evs2 → get_name (ev_obj ev) ≠ get_name o) →
         errors !! get_name o = Some (ErrExc (OtherError e)))
    ∧ ((∀ ev e', ev ∈ evs2 → ev_exception ev ≠ Some (OtherError e')) →
         x = Some (OtherError e))
    ∧ (∃ o' res' e', x = Some (OtherError e')
         ∧ (o', res', Some (OtherError e'))
           ∈ evs1 ++ (o, res, Some (OtherError e)) :: evs2).
Proof.
  intros Hobj.
  destruct (drain_registered_total m _ Hobj) as [[[[writer errors] results] x] Hd].
  exists writer, errors, results, x. split; [done|].
  pose proof Hd as Hd'. unfold registered in Hd'.
  apply drain_results in Hd'. simpl in Hd'. split; [done|].
  rewrite drain_app in Hd. simpl in Hd.
  destruct (drain (registered m) evs1) as [[[[w1 e1] r1] x1]|] eqn:Hd1; [|done].
  simpl in Hd. split_and!.
  - intros Hnames.
    erewrite (drain_errors_unchanged evs2 (get_name o)); [|..|exact Hd].
    + apply dict_lookup_insert_eq.
    + intros ev Hev Hn. by destruct (Hnames ev Hev).
  - intros Hno. by apply (drain_reraise_unchanged evs2 _ _ _ _ _ _ _ _ Hno Hd).
  - clear Hd' Hd1 Hobj.
    assert (∀ evs' w0 s0 r0 o0 res0 e0 (pre : list event),
      (o0, res0, Some (OtherError e0)) ∈ pre →
      drain (w0, s0, r0, Some (OtherError e0)) evs'
      = Some (writer, errors, results, x) →
      ∃ o' res' e', x = Some (OtherError e')
        ∧ (o', res', Some (OtherError e')) ∈ pre ++ evs') as Hgen.
    { induction evs' as [|ev evs' IH]; intros w0 s0 r0 o0 res0 e0 pre Hin; cbn [drain].
      - intros [= _ _ _ <-]. exists o0, res0, e0. rewrite app_nil_r. done.
      - destruct (handle_event _ ev) as [[[[w2 s2] r2] x2]|] eqn:Hev; simpl; [|done].
        intros Hd2.
        replace (pre ++ ev :: evs') with ((pre ++ [ev]) ++ evs')
          by (by rewrite <-(assoc_L (++))).
        destruct ev as [[o1 res1] [[expl|m1| |e1']|]]; simpl in Hev;
          try (destruct (write w0 _ _); simpl in Hev; [|done]);
          injection Hev as <- <- <- <-;
          try (eapply IH; [|exact Hd2]; apply elem_of_app; by left).
        eapply IH; [|exact Hd2]. apply elem_of_app. right. left. }
    destruct (Hgen evs2 _ _ _ o res e (evs1 ++ [(o, res, Some (OtherError e))])
                (proj2 (elem_of_app _ _ _) (or_intror (list_elem_of_here _ _))) Hd)
      as (o' & res' & e' & -> & Hin).
    exists o', res', e'. split; [done|]. by rewrite <-(assoc_L (++)) in Hin.
Qed.

Lemma parallel_execute_events_drain (m : option string) evs
    writer errors results x :
  drain (registered m) evs = Some (writer, errors, results, x) →
  parallel_execute_events m evs
  = Some (stream writer ++ summary errors,
          match x with
          | Some e => Raise e
          | None => Return results errors
          end).
Proof.
  intros Hd. unfold parallel_execute_events. rewrite Hd. simpl.
  by destruct x.
Qed.

Lemma summary_line (errors : dict errval) n v :
  errors !! n = Some v →
  LF +:+ "ERROR: for " +:+ n +:+ "  " +:+ fmt_errval v +:+ LF ∈ summary errors.
Proof.
  intros Hn. unfold summary. apply list_elem_of_fmap. exists (n, v).
  split; [done|]. by apply dict_lookup_items.
Qed.

(** The names that have an entry in the error map. *)
Lemma handle_event_errors writer errors results x ev
    writer' errors' results' x' n :
  handle_event (writer, errors, results, x) ev
  = Some (writer', errors', results', x') →
  is_Some (errors' !! n)
  ↔ is_Some (errors !! n)
    ∨ (get_name (ev_obj ev) = n
       ∧ ∃ e, ev_exception ev = Some e ∧ e ≠ UpstreamError).
Proof.
  destruct ev as [[o res] [[expl|m| |e]|]]; simpl;
    try (destruct (write writer _ _); simpl; [|done]);
    intros [= _ <- _ _];
    try (rewrite dict_lookup_insert; case_decide; subst; split;
         [intros _; right; split; [done|]; eexists; split; [done|done]
         |intros _; by eexists
         |intros ?; by left
         |intros [?|[? _]]; done]).
  - split; [by left|]. intros [?|(_ & e & [= <-] & Hne)]; done.
  - split; [by left|]. intros [?|(_ & e & ? & _)]; done.
Qed.

Lemma drain_errors_dom evs writer errors results x
    writer' errors' results' x' n :
  drain (writer, errors, results, x) evs
  = Some (writer', errors', results', x') →
  is_Some (errors' !! n)
  ↔ is_Some (errors !! n)
    ∨ ∃ ev e, ev ∈ evs ∧ get_name (ev_obj ev) = n
              ∧ ev_exception ev = Some e ∧ e ≠ UpstreamError.
Proof.
  revert writer errors results x.
  induction evs as [|ev evs IH]; intros writer errors results x; cbn [drain].
  - intros [= _ <- _ _]. split; [by left|].
    intros [?|(ev & _ & Hev & _)]; [done|]. by apply elem_of_nil in Hev.
  - destruct (handle_event _ ev) as [[[[w1 e1] r1] x1]|] eqn:Hev; simpl; [|done].
    intros Hd. rewrite (IH _ _ _ _ Hd).
    rewrite (handle_event_errors _ _ _ _ _ _ _ _ _ n Hev). split.
    + intros [[?|(Hn & e & He & Hne)]|(ev' & e & Hin & Hn & He & Hne)].
      * by left.
      * right. exists ev, e. split_and!; [left|done..].
      * right. exists ev', e. split_and!; [by right|done..].
    + intros [?|(ev' & e & Hin & Hn & He & Hne)]; [by left; left|].
      apply elem_of_cons in Hin as [->|Hin].
      * left. right. split; [done|]. by exists e.
      * right. exists ev', e. done.
Qed.

(** The entry an unexpected failure leaves under the name of its object
    lasts as long as no later event of that name records an error. *)
Lemma drain_unexpected_entry (m : option string) evs1 o res e evs2
    writer errors results x :
  drain (registered m) (evs1 ++ (o, res, Some (OtherError e)) :: evs2)
  = Some (writer, errors, results, x) →
  (∀ ev, ev ∈ evs2 → get_name (ev_obj ev) = get_name o →
     ev_exception ev = None ∨ ev_exception ev = Some UpstreamError) →
  errors !! get_name o = Some (ErrExc (OtherError e)).
Proof.
  intros Hd Hnames. rewrite drain_app in Hd. simpl in Hd.
  destruct (drain (registered m) evs1) as [[[[w1 e1] r1] x1]|] eqn:Hd1; [|done].
  simpl in Hd.
  erewrite (drain_errors_unchanged evs2 (get_name o)); [|..|exact Hd].
  - apply dict_lookup_insert_eq.
  - done.
Qed.

(** ** Claim C5 *)

(** C5 (amended: the entry recorded is the error object itself, which the
    summary line renders as a string).  For an event carrying an unexpected
    failure, the loop body stores the exception under the object's name,
    remembers it for re-raising and leaves everything else as it is; the
    loop goes on through all the events (the results of successes after the
    failure are kept, the entry stays in the map when no later event has
    that name and then has its summary line); and the call ends by raising
    one unexpected error of one of the events, with the stream holding
    everything written while draining followed by the summary lines. *)
Theorem unexpected_error_recorded (m : option string) evs evs1 o res e evs2 :
  evs = evs1 ++ (o, res, Some (OtherError e)) :: evs2 →
  (∀ ev, ev ∈ evs → ev_obj ev ∈ objects) →
  (∀ writer errors results x,
     handle_event (writer, errors, results, x) (o, res, Some (OtherError e))
     = Some (writer, <[get_name o := ErrExc (OtherError e)]> errors, results,
             Some (OtherError e)))
  ∧ ∃ writer errors results o' res' e',
      drain (registered m) evs
      = Some (writer, errors, results, Some (OtherError e'))
      ∧ (o', res', Some (OtherError e')) ∈ evs
      ∧ results = ev_result <$> filter (λ ev, ev_exception ev = None) evs
      ∧ ((∀ ev, ev ∈ evs2 → get_name (ev_obj ev) ≠ get_name o) →
           errors !! get_name o = Some (ErrExc (OtherError e))
           ∧ LF +:+ "ERROR: for " +:+ get_name o +:+ "  "
               +:+ str (OtherError e) +:+ LF ∈ summary errors)
      ∧ parallel_execute_events m evs
        = Some (stream writer ++ summary errors, Raise (OtherError e')).
Proof.
  intros -> Hobj. split; [done|].
  destruct (drain_unexpected m evs1 o res e evs2 Hobj)
    as (writer & errors & results & x & Hd & Hres & Herr & _ & Hx).
  destruct Hx as (o' & res' & e' & -> & Hin).
  exists writer, errors, results, o', res', e'. split_and!; try done.
  - intros Hnames. specialize (Herr Hnames). split; [done|].
    by apply (summary_line errors (get_name o) (ErrExc (OtherError e))).
  - by rewrite (parallel_execute_events_drain m _ _ _ _ _ Hd).
Qed.

(** ** Claim C6 *)

(** C6. For an upstream-failure event the loop body writes the status
    [error] for the object's name and changes nothing else: no entry is
    added to the error map.  So when every event carrying the name [n] is
    an upstream failure, the error map at the end has no entry for [n],
    and the summary lines, which are made from the entries of that map,
    have none for [n]. *)
Theorem upstream_failure_not_in_errors (m : option string) evs n :
  (∀ ev, ev ∈ evs → ev_obj ev ∈ objects) →
  (∀ ev, ev ∈ evs → get_name (ev_obj ev) = n →
     ev_exception ev = Some UpstreamError) →
  (∀ writer errors results x o res,
     handle_event (writer, errors, results, x) (o, res, Some UpstreamError)
     = (λ writer', (writer', errors, results, x))
       <$> write writer (get_name o) "error")
  ∧ ∃ writer errors results x,
      drain (registered m) evs = Some (writer, errors, results, x)
      ∧ errors !! n = None
      ∧ (∀ k v, (k, v) ∈ items errors → k ≠ n)
      ∧ parallel_execute_events m evs
        = Some (stream writer ++ summary errors,
                match x with
                | Some e => Raise e
                | None => Return results errors
                end).
Proof.
  intros Hobj Hup. split; [intros; apply handle_upstream|].
  destruct (drain_registered_total m evs Hobj)
    as [[[[writer errors] results] x] Hd].
  exists writer, errors, results, x.
  assert (errors !! n = None) as Hn.
  { unfold registered in Hd.
    erewrite (drain_errors_unchanged evs n); [|..|exact Hd]; [done|].
    intros ev Hev Hname. right. by apply Hup. }
  split_and!; [done..| |by apply parallel_execute_events_drain].
  intros k v [? Hkv]%dict_items_lookup ->. congruence.
Qed.

(** ** Claim C10 *)

(** C10 (amended: the entry under a name is that of the last event of
    that name that records an error).  When two events carry unexpected
    failures and no later event does, the call raises the error of the last
    of them, not the earlier one's, and the error map has an entry under
    the name of each of the two objects.  The earlier error is that entry,
    and has its summary line in the stream, when every later event whose
    object has the same name is a success or an upstream failure; likewise
    for the last error. *)
Theorem last_unexpected_error_wins (m : option string)
    evs evs1 o1 res1 e1 evs2 o2 res2 e2 evs3 :
  evs = evs1 ++ (o1, res1, Some (OtherError e1))
             :: evs2 ++ (o2, res2, Some (OtherError e2)) :: evs3 →
  (∀ ev, ev ∈ evs → ev_obj ev ∈ objects) →
  (∀ ev e, ev ∈ evs3 → ev_exception ev ≠ Some (OtherError e)) →
  ∃ writer errors results,
    drain (registered m) evs
    = Some (writer, errors, results, Some (OtherError e2))
    ∧ parallel_execute_events m evs
      = Some (stream writer ++ summary errors, Raise (OtherError e2))
    ∧ is_Some (errors !! get_name o1)
    ∧ is_Some (errors !! get_name o2)
    ∧ ((∀ ev, ev ∈ evs2 ++ (o2, res2, Some (OtherError e2)) :: evs3 →
          get_name (ev_obj ev) = get_name o1 →
          ev_exception ev = None ∨ ev_exception ev = Some UpstreamError) →
         errors !! get_name o1 = Some (ErrExc (OtherError e1))
         ∧ LF +:+ "ERROR: for " +:+ get_name o1 +:+ "  "
             +:+ str (OtherError e1) +:+ LF ∈ summary errors)
    ∧ ((∀ ev, ev ∈ evs3 → get_name (ev_obj ev) = get_name o2 →
          ev_exception ev = None ∨ ev_exception ev = Some UpstreamError) →
         errors !! get_name o2 = Some (ErrExc (OtherError e2))
         ∧ LF +:+ "ERROR: for " +:+ get_name o2 +:+ "  "
             +:+ str (OtherError e2) +:+ LF ∈ summary errors).
Proof.
  intros -> Hobj Hlast.
  destruct (drain_unexpected m evs1 o1 res1 e1 _ Hobj)
    as (writer & errors & results & x & Hd & _ & _ & _ & _).
  pose proof Hobj as Hobj'. pose proof Hd as Hd'.
  rewrite app_comm_cons, (assoc_L (++)) in Hobj', Hd'.
  destruct (drain_unexpected m _ o2 res2 e2 evs3 Hobj')
    as (writer' & errors' & results' & x' & Hd2 & _ & _ & Hx2 & _).
  rewrite Hd' in Hd2. injection Hd2 as <- <- <- <-.
  specialize (Hx2 Hlast). subst x.
  exists writer, errors, results.
  pose proof Hd as Hdom. unfold registered in Hdom.
  split_and!; try done.
  - by rewrite (parallel_execute_events_drain m _ _ _ _ _ Hd).
  - apply (drain_errors_dom _ _ _ _ _ _ _ _ _ (get_name o1) Hdom). right.
    exists (o1, res1, Some (OtherError e1)), (OtherError e1).
    split_and!; [|done..]. apply elem_of_app. right. left.
  - apply (drain_errors_dom _ _ _ _ _ _ _ _ _ (get_name o2) Hdom). right.
    exists (o2, res2, Some (OtherError e2)), (OtherError e2).
    split_and!; [|done..]. apply elem_of_app. right. right.
    apply elem_of_app. right. left.
  - intros Hnames.
    pose proof (drain_unexpected_entry m _ _ _ _ _ _ _ _ _ Hd Hnames) as H1.
    split; [done|].
    by apply (summary_line errors (get_name o1) (ErrExc (OtherError e1))).
  - intros Hnames.
    pose proof (drain_unexpected_entry m _ _ _ _ _ _ _ _ _ Hd' Hnames) as H2.
    split; [done|].
    by apply (summary_line errors (get_name o2) (ErrExc (OtherError e2))).
Qed.

(** * Further properties of the scheduler *)

(** ** Where events come from *)

Lemma event_origin_mono r r' ev :
  inv r → ev_obj ev ∈ qobjs r ++ yobjs r →
  (∀ o, o ∈ started (state r') → o ∉ started (state r) →
        o ∈ pending (state r)) →
  started (state r) ⊆ started (state r') →
  (∀ o, o ∈ invoked r → o ∈ invoked r') →
  event_origin r ev → event_origin r' ev.
Proof.
  intros Hi Hin Hnew Hsub Hinv [(Hs & Hv & Hev)|(Hn & Hev)].
  - left. split_and!; [by apply Hsub|by apply Hinv|done].
  - right. split; [|done]. intros Hs. specialize (Hnew _ Hs Hn).
    apply (pending_fresh r _ Hi Hnew). apply elem_of_app. by right.
Qed.

Lemma origin_step r r' :
  inv r → step r r' →
  (∀ ev, Ev ev ∈ results r ∨ ev ∈ yielded r → event_origin r ev) →
  ∀ ev, Ev ev ∈ results r' ∨ ev ∈ yielded r' → event_origin r' ev.
Proof.
  intros Hi Hs Hor. pose proof (inv_step r r' Hi Hs) as Hi'.
  assert (∀ ev, Ev ev ∈ results r ∨ ev ∈ yielded r →
                ev_obj ev ∈ qobjs r ++ yobjs r) as Hin.
  { intros ev [Hev|Hev]; apply elem_of_app; [left|right].
    - apply elem_of_qobjs. eauto.
    - by apply list_elem_of_fmap_2. }
  destruct Hs as [r order Hpc Hnd Ho|r Hpc|r t1 o t2 Ht].
  - assert (∀ x, x ∈ order → x ∈ pending (state r)) as Hall.
    { intros x. by apply order_pending. }
    pose proof (feed_ext_foldl order r Hnd Hall Hi) as He.
    destruct (fe_results _ _ He) as (evs & Hres & Hnew).
    intros ev. cbn [set_pc results yielded]. unfold feed_queue.
    rewrite put_stop_results, put_stop_yielded, (fe_yielded _ _ He), Hres.
    intros Hev.
    assert (Ev ev ∈ results r ∨ ev ∈ yielded r ∨ ev ∈ evs) as [Hold|[Hold|Hfresh]].
    { destruct Hev as [Hev|Hev]; [|by right; left].
      apply elem_of_app in Hev as [Hev|Hev].
      - apply elem_of_app in Hev as [Hev|Hev]; [by left|].
        right. right. apply list_elem_of_fmap in Hev as (ev' & [= ->] & ?). done.
      - destruct (is_done _); [|by apply elem_of_nil in Hev].
        apply list_elem_of_singleton in Hev. done. }
    + apply (event_origin_mono r); [done|by apply Hin; left| | | |by apply Hor; left].
      * intros x Hx Hnx. cbn [set_pc state] in Hx. unfold feed_queue in Hx.
        rewrite put_stop_state in Hx. by destruct (fe_launched _ _ He x Hx Hnx).
      * cbn [set_pc state]. unfold feed_queue. rewrite put_stop_state.
        apply (fe_started _ _ He).
      * intros x. cbn [set_pc invoked]. unfold feed_queue.
        by rewrite put_stop_invoked, (fe_invoked _ _ He).
    + apply (event_origin_mono r); [done|by apply Hin; right| | | |by apply Hor; right].
      * intros x Hx Hnx. cbn [set_pc state] in Hx. unfold feed_queue in Hx.
        rewrite put_stop_state in Hx. by destruct (fe_launched _ _ He x Hx Hnx).
      * cbn [set_pc state]. unfold feed_queue. rewrite put_stop_state.
        apply (fe_started _ _ He).
      * intros x. cbn [set_pc invoked]. unfold feed_queue.
        by rewrite put_stop_invoked, (fe_invoked _ _ He).
    + destruct (Hnew ev Hfresh) as (Heq & Hf & Hnf). right. split; [|done].
      cbn [set_pc state]. unfold feed_queue. rewrite put_stop_state.
      apply (inv_queue _ (inv_foldl_feed_one order r Hnd Hall Hi)); [|done].
      unfold qobjs. rewrite Hres. apply elem_of_qobjs. exists ev.
      split; [|done]. apply elem_of_app. right. by apply list_elem_of_fmap_2.
  - unfold get_step. destruct (results r) as [|[ev0|] q] eqn:Hres.
    + intros ev Hev. cbn [set_pc results yielded] in Hev. rewrite Hres in Hev.
      exact (Hor ev Hev).
    + intros ev Hev.
      assert (Ev ev ∈ Ev ev0 :: q ∨ ev ∈ yielded r) as Hold.
      { cbn [results yielded] in Hev. destruct Hev as [Hev|Hev].
        - left. by right.
        - apply elem_of_app in Hev as [Hev|Hev%list_elem_of_singleton];
            [by right|left; subst; left]. }
      destruct (Hor ev Hold) as [(? & ? & ?)|(? & ?)]; [left|right];
        unfold record_event; destruct (ev_exception ev0); done.
    + intros ev Hev. cbn [results yielded] in Hev.
      assert (Ev ev ∈ STOP :: q ∨ ev ∈ yielded r) as Hold.
      { destruct Hev as [Hev|Hev]; [left; by right|by right]. }
      destruct (Hor ev Hold) as [(? & ? & ?)|(? & ?)]; [left|right]; done.
  - intros ev Hev. cbn [producer_step results yielded] in Hev.
    assert ((Ev ev ∈ results r ∨ ev ∈ yielded r) ∨ ev = producer o) as [Hold| ->].
    { destruct Hev as [Hev|Hev]; [|by left; right].
      apply elem_of_app in Hev as [Hev|Hev%list_elem_of_singleton];
        [by left; left|right; congruence]. }
    + destruct (Hor ev Hold) as [(? & ? & ?)|(? & ?)]; [left|right];
        cbn [producer_step state invoked]; [|done].
      split_and!; [done| |done]. apply elem_of_app. by left.
    + left. cbn [producer_step state invoked]. rewrite producer_obj.
      assert (o ∈ threads r) as Hin' by (rewrite Ht; sets).
      destruct (thread_running r o Hi Hin') as (_ & ? & _).
      split_and!; [done| |done]. apply elem_of_app. right. left.
Qed.

Lemma origin_rtc r r' :
  inv r → rtc step r r' →
  (∀ ev, Ev ev ∈ results r ∨ ev ∈ yielded r → event_origin r ev) →
  ∀ ev, Ev ev ∈ results r' ∨ ev ∈ yielded r' → event_origin r' ev.
Proof.
  intros Hi Hs. induction Hs as [|r r1 r2 Hs Hs' IH]; [done|].
  intros Hor. apply IH; [by eapply inv_step|]. by apply (origin_step r).
Qed.

Lemma origin_reachable r ev :
  reachable r → Ev ev ∈ results r ∨ ev ∈ yielded r → event_origin r ev.
Proof.
  intros Hr. apply (origin_rtc run_init); [apply inv_init|done|].
  intros ev' [Hev|Hev]; by apply elem_of_nil in Hev.
Qed.

Lemma reachable_ind (P : run → Prop) :
  P run_init →
  (∀ r r', reachable r → step r r' → P r → P r') →
  ∀ r, reachable r → P r.
Proof.
  intros H0 Hstep r Hr. apply (rtc_ind_r (R:=step) P run_init H0); [|exact Hr].
  intros y z Hy Hs HP. by apply (Hstep y z).
Qed.

(** An object is started only with all its dependencies inside the universe
    finished, and they stay finished. *)
Lemma started_deps_finished r o d :
  reachable r → o ∈ started (state r) → d ∈ get_deps o → d ∈ objects →
  d ∈ finished (state r).
Proof.
  intros Hr. revert o d. pattern r. revert r Hr. apply reachable_ind.
  - intros o d Ho. by apply not_elem_of_empty in Ho.
  - intros r r' Hr Hs IH o d Ho Hd Hdo. pose proof (inv_reachable r Hr) as Hi.
    destruct (step_mono r r' Hi Hs) as (_ & Hfin & _). apply Hfin.
    destruct (decide (o ∈ started (state r))) as [Hold|Hnew].
    + by apply (IH o).
    + destruct (step_launch r r' o Hi Hs Hnew Ho) as (_ & _ & _ & Hall).
      by apply Hall.
Qed.

(** A finished object is one the work function was called on and returned
    for. *)
Lemma finished_invoked r d :
  reachable r → d ∈ finished (state r) →
  d ∈ invoked r ∧ ∃ res, func d = inl res.
Proof.
  intros Hr Hd. pose proof (inv_reachable r Hr) as Hi.
  assert (d ∈ started (state r)) as Hs by (by apply (inv_finished r Hi)).
  assert (d ∈ threads r ++ qobjs r ++ yobjs r) as Hin.
  { apply (inv_account r Hi). sets. }
  apply elem_of_app in Hin as [Hin|Hin].
  { by destruct (inv_threads r Hi d Hin). }
  apply elem_of_app in Hin as [Hin|Hin].
  { by destruct (inv_queue r Hi d Hin). }
  apply list_elem_of_fmap in Hin as (ev & -> & Hev).
  pose proof (inv_yielded r Hi ev Hev) as Hy.
  destruct (origin_reachable r ev Hr (or_intror Hev)) as [(_ & Hv & Heq)|(Hn & _)];
    [|done].
  split; [done|]. destruct (ev_exception ev) eqn:Hexc.
  { destruct (inv_disjoint r Hi (ev_obj ev)); done. }
  rewrite Heq in Hexc. unfold producer in Hexc.
  destruct (func (ev_obj ev)) as [res|e]; [by exists res|done].
Qed.

(** ** The work function runs after its dependencies *)

(** The order of the calls of the work function respects the dependencies:
    when [func] is called on an object, it has been called before, and has
    returned, on every dependency of the object inside the universe. *)
Theorem run_after_dependencies r i o d :
  reachable r → invoked r !! i = Some o → d ∈ get_deps o → d ∈ objects →
  (∃ j, j < i ∧ invoked r !! j = Some d)
  ∧ (∃ res, func d = inl res)
  ∧ d ∈ finished (state r).
Proof.
  intros Hr Hi Hd Hdo.
  assert (o ∈ started (state r)) as Hs.
  { apply (inv_invoked r (inv_reachable r Hr)). by eapply list_elem_of_lookup_2. }
  pose proof (started_deps_finished r o d Hr Hs Hd Hdo) as Hfin.
  destruct (finished_invoked r d Hr Hfin) as [_ Hres].
  split_and!; [|done..]. clear Hs Hfin Hres.
  revert i Hi. pattern r. revert r Hr. apply reachable_ind.
  - done.
  - intros r r' Hr Hs IH i Hi. pose proof (inv_reachable r Hr) as Hinv.
    destruct Hs as [r order Hpc Hnd Ho|r Hpc|r t1 x t2 Ht].
    + assert (invoked (set_pc AtGet (feed_queue order r)) = invoked r) as Heq.
      { cbn [set_pc invoked]. unfold feed_queue. rewrite put_stop_invoked.
        apply fe_invoked, feed_ext_foldl; [done| |done].
        intros x. by apply order_pending. }
      rewrite Heq in Hi |- *. by apply IH.
    + assert (invoked (get_step r) = invoked r) as Heq.
      { unfold get_step. by destruct (results r) as [|[ev|] q]. }
      rewrite Heq in Hi |- *. by apply IH.
    + cbn [producer_step invoked] in *.
      apply lookup_app_Some in Hi as [Hi|[Hlen Hi]].
      * destruct (IH i Hi) as (j & Hj & Hjd). exists j. split; [done|].
        by apply lookup_app_l_Some.
      * apply list_lookup_singleton_Some in Hi as [Hz ->].
        assert (o ∈ threads r) as Hin by (rewrite Ht; sets).
        destruct (thread_running r o Hinv Hin) as (_ & Hsx & _).
        pose proof (started_deps_finished r o d Hr Hsx Hd Hdo) as Hfin.
        destruct (finished_invoked r d Hr Hfin) as [Hdi _].
        apply list_elem_of_lookup in Hdi as [j Hj]. exists j.
        pose proof (lookup_lt_Some _ _ _ Hj). split; [lia|].
        by apply lookup_app_l_Some.
Qed.

(** ** A failed dependency *)

(** An object with a failed dependency is never started, so the work
    function is never called on it; when the coordinator has stopped, the
    object is in [failed] and its event is the upstream-failure triple. *)
Theorem failed_dependency_never_runs r o d :
  reachable r → o ∈ objects → d ∈ get_deps o → d ∈ failed (state r) →
  (o ∉ started (state r)) ∧ (o ∉ threads r) ∧ (o ∉ invoked r)
  ∧ (o ∉ finished (state r))
  ∧ (pc r = Stopped →
       o ∈ failed (state r) ∧ (o, None, Some UpstreamError) ∈ yielded r).
Proof.
  intros Hr Ho Hd Hdf. pose proof (inv_reachable r Hr) as Hi.
  assert (d ∈ objects) as Hdo.
  { apply (elem_of_list_to_set (C:=gset Obj)). by apply (inv_failed r Hi). }
  assert (o ∉ started (state r)) as Hn.
  { intros Hs. apply (inv_disjoint r Hi d); [|done].
    by apply (started_deps_finished r o d). }
  split_and!; [done| | | |].
  - intros Ht. by destruct (thread_running r o Hi Ht) as (_ & ? & _).
  - intros Ht. by apply Hn, (inv_invoked r Hi).
  - intros Hf. by apply Hn, (inv_finished r Hi).
  - intros Hpc. destruct (inv_stopped r Hi Hpc) as [Hdone Hq].
    pose proof (done_all_terminal r Hi Hdone) as Hall.
    pose proof (done_no_threads r Hi Hdone) as Ht.
    assert (o ∈ failed (state r)) as Hf.
    { assert (o ∈ finished (state r) ∪ failed (state r)) as Hin.
      { rewrite Hall. by apply elem_of_list_to_set. }
      pose proof (inv_finished r Hi). sets. }
    split; [done|].
    assert (o ∈ threads r ++ qobjs r ++ yobjs r) as Hin.
    { apply (inv_account r Hi). sets. }
    rewrite Ht, Hq in Hin. simpl in Hin.
    apply list_elem_of_fmap in Hin as (ev & -> & Hev).
    destruct (origin_reachable r ev Hr (or_intror Hev)) as [(? & _)|(_ & Heq)];
      [done|]. by rewrite <-Heq.
Qed.

(** ** Admission is eager *)

(** A pending object whose dependencies inside the universe are all
    finished is started by the next admission pass, whatever the order in
    which the pass goes through the pending objects. *)
Theorem ready_object_is_launched r order o :
  reachable r → NoDup order → list_to_set order = pending (state r) →
  o ∈ pending (state r) →
  (∀ d, d ∈ get_deps o → d ∈ objects → d ∈ finished (state r)) →
  o ∈ started (state (feed_queue order r))
  ∧ o ∈ threads (feed_queue order r)
  ∧ o ∉ failed (state (feed_queue order r)).
Proof.
  intros Hr Hnd Ho Hp Hall. pose proof (inv_reachable r Hr) as Hi.
  pose proof (inv_feed_queue order r Hnd Ho Hi) as Hi'.
  destruct (feed_queue_pending_cases order r o Hi Hnd Ho Hp)
    as [(_ & (d & Hd & Hdo & Hdf) & _)|[(? & ? & ? & _)|(_ & _ & _ & d & Hd & Hdf)]].
  - destruct Hdf. by apply Hall.
  - done.
  - exfalso.
    assert (d ∈ objects) as Hdo.
    { apply (elem_of_list_to_set (C:=gset Obj)). by apply (inv_failed _ Hi'). }
    assert (finished (state (feed_queue order r)) = finished (state r)) as Hfq.
    { unfold feed_queue. rewrite put_stop_state.
      apply fe_finished, feed_ext_foldl; [done| |done].
      intros x. by apply order_pending. }
    apply (inv_disjoint _ Hi' d); [|done]. rewrite Hfq. by apply Hall.
Qed.

(** ** Nothing is lost when the coordinator stops *)

(** When the coordinator has left its loop, no thread is running, nothing
    but [STOP] sentinels is left on the queue, no object is pending, and
    every object is in [finished] or [failed] and has had an event
    yielded. *)
Theorem nothing_lost_at_stop r :
  reachable r → pc r = Stopped →
  threads r = []
  ∧ (∀ it, it ∈ results r → it = STOP)
  ∧ pending (state r) = ∅
  ∧ ∀ o, o ∈ objects →
      o ∈ finished (state r) ∪ failed (state r)
      ∧ ∃ ev, ev ∈ yielded r ∧ ev_obj ev = o.
Proof.
  intros Hr Hpc. pose proof (inv_reachable r Hr) as Hi.
  destruct (inv_stopped r Hi Hpc) as [Hdone Hq].
  pose proof (done_all_terminal r Hi Hdone) as Hall.
  pose proof (done_no_threads r Hi Hdone) as Ht.
  split_and!; [done| |by apply done_no_pending|].
  - intros [ev|] Hit; [|done]. exfalso.
    assert (ev_obj ev ∈ qobjs r) as Hin by (apply elem_of_qobjs; eauto).
    rewrite Hq in Hin. by apply elem_of_nil in Hin.
  - intros o Ho.
    assert (o ∈ finished (state r) ∪ failed (state r)) as Hin.
    { rewrite Hall. by apply elem_of_list_to_set. }
    split; [done|].
    assert (o ∈ threads r ++ qobjs r ++ yobjs r) as Hacc.
    { apply (inv_account r Hi). pose proof (inv_finished r Hi). sets. }
    rewrite Ht, Hq in Hacc. simpl in Hacc.
    apply list_elem_of_fmap in Hacc as (ev & -> & Hev). eauto.
Qed.

(** ** A pass after a timeout *)

(** The admission pass that follows a timeout of [results.get] starts no
    thread: nothing has finished since the pass before, so all it can do is
    pass on upstream failures. *)
Theorem pass_after_timeout_starts_nothing r order :
  reachable r → is_timeout r →
  NoDup order → list_to_set order = pending (state r) →
  started (state (feed_queue order (set_pc AtFeed r))) = started (state r)
  ∧ ∀ o, o ∈ threads (feed_queue order (set_pc AtFeed r)) → o ∈ threads r.
Proof.
  intros Hr [Hpc Hres] Hnd Ho. pose proof (inv_reachable r Hr) as Hi.
  pose proof (inv_get_reachable r Hr Hpc) as Hg.
  pose proof (inv_set_pc AtFeed r ltac:(done) Hi) as Hi0.
  set (r0 := set_pc AtFeed r) in *.
  assert (∀ x, x ∈ order → x ∈ pending (state r0)) as Hall.
  { intros x. by apply (order_pending order (state r)). }
  pose proof (feed_ext_foldl order r0 Hnd Hall Hi0) as He.
  assert (∀ o, o ∈ started (state (feed_queue order r0)) →
               o ∈ started (state r)) as Hsame.
  { intros o Hin. unfold feed_queue in Hin. rewrite put_stop_state in Hin.
    destruct (decide (o ∈ started (state r))) as [|Hn]; [done|]. exfalso.
    destruct (fe_launched _ _ He o Hin Hn) as (Hp & _ & Hdeps).
    destruct (ig_blocked r Hg o Hp) as (d & Hd & Hdo & Hdf).
    apply Hdf. by apply Hdeps. }
  split.
  - apply set_eq. intros o. split; [apply Hsame|].
    unfold feed_queue. rewrite put_stop_state. apply (fe_started _ _ He).
  - intros o Hin. unfold feed_queue in Hin. rewrite put_stop_threads in Hin.
    destruct (fe_threads _ _ He o Hin) as [|[Hs Hn]]; [done|].
    destruct Hn. apply Hsame. unfold feed_queue. by rewrite put_stop_state.
Qed.

(** ** The origin of the events yielded *)

Lemma yielded_origin r ev :
  reachable r → ev ∈ yielded r →
  (ev_obj ev ∈ started (state r) ∧ ev_obj ev ∈ invoked r
   ∧ ev = producer (ev_obj ev))
  ∨ ((ev_obj ev ∉ started (state r)) ∧ (ev_obj ev ∉ invoked r)
     ∧ ev_obj ev ∈ failed (state r)
     ∧ ev = (ev_obj ev, None, Some UpstreamError)).
Proof.
  intros Hr Hev. pose proof (inv_reachable r Hr) as Hi.
  destruct (origin_reachable r ev Hr (or_intror Hev)) as [?|(Hn & Heq)];
    [by left|right].
  split_and!; [done| | |done].
  - intros Hv. by apply Hn, (inv_invoked r Hi).
  - pose proof (inv_yielded r Hi ev Hev) as Hy. rewrite Heq in Hy. done.
Qed.

(** Every event the coordinator yields is either the outcome [producer]
    computes for its object, which was started and on which the work
    function was called, or the upstream-failure triple of an object that
    is in [failed], was never started and on which the work function was
    never called. *)
Theorem yielded_event_origin r ev :
  reachable r → ev ∈ yielded r →
  (ev_obj ev ∈ started (state r) ∧ ev_obj ev ∈ invoked r
   ∧ ev = producer (ev_obj ev))
  ∨ ((ev_obj ev ∉ started (state r)) ∧ (ev_obj ev ∉ invoked r)
     ∧ ev_obj ev ∈ failed (state r)
     ∧ ev = (ev_obj ev, None, Some UpstreamError)).
Proof. apply yielded_origin. Qed.

(** ** Without a dependency function *)

Lemma foldl_feed_one_no_deps order r :
  (∀ o, get_deps o = []) →
  threads (foldl feed_one r order) = threads r ++ order
  ∧ started (state (foldl feed_one r order))
    = list_to_set order ∪ started (state r)
  ∧ finished (state (foldl feed_one r order)) = finished (state r)
  ∧ failed (state (foldl feed_one r order)) = failed (state r)
  ∧ results (foldl feed_one r order) = results r.
Proof.
  intros Hno. revert r. induction order as [|o order IH]; intros r.
  - simpl. rewrite app_nil_r. split_and!; [done| |done..]. sets.
  - simpl. destruct (IH (feed_one r o)) as (Ht & Hs & Hfin & Hf & Hq).
    rewrite Ht, Hs, Hfin, Hf, Hq. unfold feed_one. rewrite Hno. simpl.
    split_and!; [by rewrite <-(assoc_L (++))| |done..]. sets.
Qed.

(** When no dependency function is given, the first admission pass starts
    a thread for every object, in the order in which it goes through them,
    and no event ever yielded is an upstream failure: each is the outcome
    of the work function on its object. *)
Theorem no_deps_all_started_at_once order :
  get_deps = resolve_get_deps None →
  NoDup order → list_to_set order = pending (state run_init) →
  (threads (feed_queue order run_init) = order
   ∧ started (state (feed_queue order run_init)) = list_to_set objects
   ∧ pending (state (feed_queue order run_init)) = ∅
   ∧ failed (state (feed_queue order run_init)) = ∅)
  ∧ ∀ r ev, reachable r → ev ∈ yielded r → ev = producer (ev_obj ev).
Proof.
  intros Hdeps Hnd Ho.
  assert (∀ o, get_deps o = []) as Hno by (intros o; by rewrite Hdeps).
  split.
  - destruct (foldl_feed_one_no_deps order run_init Hno)
      as (Ht & Hs & Hfin & Hf & _).
    unfold feed_queue. rewrite put_stop_state, put_stop_threads.
    assert (list_to_set order = (list_to_set objects : gset Obj)) as Hoo.
    { rewrite Ho. unfold pending. simpl. sets. }
    split_and!; [done| | |done].
    + rewrite Hs, Hoo. simpl. sets.
    + unfold pending. rewrite Hs, Hoo. sets.
  - intros r ev Hr Hev.
    destruct (yielded_origin r ev Hr Hev)
      as [(_ & _ & ?)|(Hn & _ & Hf & _)]; [done|]. exfalso.
    clear Hev. revert Hn Hf. generalize (ev_obj ev). clear ev.
    pattern r. revert r Hr. apply reachable_ind.
    + intros o _ Hf. by apply not_elem_of_empty in Hf.
    + intros r r' Hr Hs IH o Hn Hf. pose proof (inv_reachable r Hr) as Hi.
      destruct (step_mono r r' Hi Hs) as (Hst & _ & _).
      destruct (decide (o ∈ failed (state r))) as [Hold|Hnew].
      { apply (IH o); [|done]. intros Hin. by apply Hn, Hst. }
      destruct Hs as [r order' Hpc Hnd' Ho'|r Hpc|r t1 x t2 Ht].
      * cbn [set_pc state] in Hf. unfold feed_queue in Hf.
        rewrite put_stop_state in Hf.
        destruct (fe_upstream _ _ (feed_ext_foldl order' r Hnd'
          (λ x, proj1 (order_pending order' _ Ho' x)) Hi) o Hf Hnew)
          as (_ & _ & d & Hd & _).
        rewrite Hno in Hd. by apply elem_of_nil in Hd.
      * revert Hn Hf. unfold get_step.
        destruct (results r) as [|[ev|] q] eqn:Hres; [done| |done].
        cbn [state]. unfold record_event.
        destruct (ev_exception ev) eqn:Hexc; cbn [started failed]; [|done].
        intros Hn [->%elem_of_singleton|Hf]%elem_of_union; [|done].
        destruct (origin_reachable r ev Hr) as [(? & _)|(Hns & _)].
        { left. rewrite Hres. left. }
        { done. }
        assert (ev_obj ev ∈ started (state r) ∪ failed (state r)) as Hacc.
        { apply (inv_account r Hi). unfold qobjs. rewrite Hres.
          rewrite qobjs_cons_ev, !elem_of_app, elem_of_cons. prop. }
        sets.
      * done.
Qed.

Lemma filter_all {A} (P : A → Prop) `{∀ x, Decision (P x)} (l : list A) :
  (∀ x, x ∈ l → P x) → filter P l = l.
Proof.
  induction l as [|x l IH]; intros Hall; [done|].
  rewrite filter_cons_True by (apply Hall; left).
  f_equal. apply IH. intros y Hy. apply Hall. by right.
Qed.

(** ** The call ends *)

Lemma execute_ends (m : option string) :
  acyclic → NoDup objects → ∃ out, parallel_execute m out.
Proof.
  intros Hac Hnd.
  destruct (can_complete run_init Hac Hnd (rtc_refl _ _)) as (r & Hr & Hpc).
  destruct (drain_registered_total m (yielded r)) as [[[[w e] res] x] Hd].
  { intros ev. apply yielded_objects. by apply inv_reachable. }
  eexists. exists r. split_and!; [done..|].
  by apply parallel_execute_events_drain.
Qed.

(** For acyclic dependencies and pairwise distinct objects a call of
    [parallel_execute] has an ending: some interleaving of the workers
    takes the coordinator out of its loop, and the aggregation of the
    events yielded does not fail. *)
Theorem parallel_execute_ends (m : option string) :
  acyclic → NoDup objects → ∃ out, parallel_execute m out.
Proof. apply execute_ends. Qed.

Lemma all_success_outcome (m : option string) (f : Obj → Res) out :
  NoDup objects →
  (∀ o, o ∈ objects → func o = inl (f o)) →
  parallel_execute m out →
  ∃ s results,
    out = (s, Return results ∅)
    ∧ results ≡ₚ (λ o, Some (f o)) <$> objects.
Proof.
  intros Hnd Hok (r & Hr & Hpc & Hout). pose proof (inv_reachable r Hr) as Hi.
  assert (failed (state r) = ∅) as Hnf.
  { apply never_fails_no_failed; [|done]. intros x Hx. rewrite (Hok x Hx). eauto. }
  assert (∀ ev, ev ∈ yielded r →
            ev = (ev_obj ev, Some (f (ev_obj ev)), None)) as Hevs.
  { intros ev Hev.
    destruct (yielded_origin r ev Hr Hev)
      as [(_ & _ & Heq)|(_ & _ & Hf & _)]; [|rewrite Hnf in Hf; sets].
    rewrite Heq at 1. unfold producer.
    by rewrite (Hok _ (yielded_objects r ev Hi Hev)). }
  destruct (drain_registered_total m (yielded r)) as [[[[w e] res] x] Hd].
  { intros ev. by apply yielded_objects. }
  rewrite (parallel_execute_events_drain m _ _ _ _ _ Hd) in Hout.
  assert (x = None) as ->.
  { unfold registered in Hd.
    eapply (drain_reraise_unchanged (yielded r)); [|exact Hd].
    intros ev e' Hev. rewrite (Hevs ev Hev). done. }
  assert (e = ∅) as ->.
  { apply dict_eq_empty. intros n. unfold registered in Hd.
    erewrite (drain_errors_unchanged (yielded r) n); [|..|exact Hd]; [done|].
    intros ev Hev _. left. by rewrite (Hevs ev Hev). }
  injection Hout as <-. eexists _, _. split; [done|].
  unfold registered in Hd. rewrite (drain_results _ _ _ _ _ _ _ _ _ Hd). simpl.
  rewrite <-(stopped_yielded r Hnd Hi Hpc). unfold yobjs.
  rewrite <-list_fmap_compose.
  rewrite filter_all by (intros ev Hev; by rewrite (Hevs ev Hev)).
  assert (ev_result <$> yielded r
          = ((λ o, Some (f o)) ∘ ev_obj) <$> yielded r) as ->; [|done].
  apply list_fmap_ext. intros i ev Hl. apply list_elem_of_lookup_2 in Hl.
  by rewrite (Hevs ev Hl).
Qed.

(** When the work function returns on every object (the objects pairwise
    distinct), every ending of [parallel_execute] is a normal return, with
    an empty error map and with exactly the results of the work function on
    the objects, in the order in which the workers finished. *)
Theorem all_success_returns_all (m : option string) (f : Obj → Res) out :
  NoDup objects →
  (∀ o, o ∈ objects → func o = inl (f o)) →
  parallel_execute m out →
  ∃ s results,
    out = (s, Return results ∅)
    ∧ results ≡ₚ (λ o, Some (f o)) <$> objects.
Proof. apply all_success_outcome. Qed.


(** * Further properties of the writer and of the aggregation *)

(** ** Names that were not registered *)

Lemma index_None (x : string) (l : list string) : x ∉ l → index x l = None.
Proof.
  induction l as [|y l IH]; intros Hx; simpl; [done|].
  rewrite decide_False by (intros ->; apply Hx; left).
  rewrite IH; [done|]. intros Hin. apply Hx. by right.
Qed.

(** With progress enabled, [write] for a name that was never registered
    raises ([lines.index] finds nothing) and nothing is written; with
    progress disabled, [initialize] and [write] do nothing at all. *)
Theorem write_unregistered_or_disabled (w : ParallelStreamWriter)
    (name status : string) :
  (is_Some (msg w) → name ∉ lines w → write w name status = None)
  ∧ (msg w = None →
       write w name status = Some w ∧ initialize w name = w).
Proof.
  split.
  - intros [m Hm] Hn. unfold write. rewrite Hm, (index_None name _ Hn). done.
  - intros Hm. unfold write, initialize. by rewrite Hm.
Qed.

(** ** Registration followed by an update *)

Lemma initialize_all (w : ParallelStreamWriter) (m : string)
    (names : list string) :
  msg w = Some m →
  foldl initialize w names
  = {| stream := stream w
         ++ ((λ n, m +:+ " " +:+ n +:+ " ... " +:+ CR +:+ LF) <$> names);
       msg := Some m;
       lines := lines w ++ names |}.
Proof.
  revert w. induction names as [|n names IH]; intros w Hm; simpl.
  - rewrite !app_nil_r. destruct w. simpl in *. by subst.
  - rewrite IH by (unfold initialize; by rewrite Hm).
    unfold initialize. rewrite Hm. simpl.
    by rewrite <-!(assoc_L (++)).
Qed.

(** After the registration of [names] on a fresh writer, the stream holds
    one line ["<msg> <name> ... "] per name, in order, and an update of the
    name first registered at position [i] moves the cursor up by
    [length names - i] lines, which is at least one line and at most the
    number of registered lines, and down again by as many. *)
Theorem write_after_initialize (m : string) (names : list string)
    (name status : string) i :
  names !! i = Some name →
  (∀ j, j < i → names !! j ≠ Some name) →
  let w := foldl initialize (ParallelStreamWriter_init [] (Some m)) names in
  let diff := length names - i in
  1 ≤ diff ≤ length names
  ∧ write w name status
    = Some {| stream :=
                ((λ n, m +:+ " " +:+ n +:+ " ... " +:+ CR +:+ LF) <$> names)
                ++ [ESC +:+ "[" +:+ fmt_d diff +:+ "A";
                    ESC +:+ "[2K" +:+ CR;
                    m +:+ " " +:+ name +:+ " ... " +:+ status +:+ CR;
                    ESC +:+ "[" +:+ fmt_d diff +:+ "B"];
              msg := Some m;
              lines := names |}.
Proof.
  intros Hi Hfirst w diff. subst w diff.
  rewrite (initialize_all _ m) by done. simpl.
  pose proof (lookup_lt_Some _ _ _ Hi). split; [lia|].
  unfold write. simpl. rewrite (index_first name names i Hi Hfirst). done.
Qed.

(** ** Repeated updates *)

(** An update changes neither the registry nor the message, so repeating it
    writes the same four strings again. *)
Theorem write_twice (w w1 : ParallelStreamWriter) (name status : string) :
  write w name status = Some w1 →
  msg w1 = msg w ∧ lines w1 = lines w
  ∧ ∃ out, stream w1 = stream w ++ out
           ∧ write w1 name status
             = Some {| stream := stream w1 ++ out;
                       msg := msg w; lines := lines w |}.
Proof.
  unfold write. destruct (msg w) as [m|] eqn:Hm.
  - destruct (index name (lines w)) as [k|] eqn:Hk; simpl; [|done].
    intros [= <-]. simpl. rewrite Hk. simpl.
    split_and!; [done..|]. eexists. split; [done|]. done.
  - intros [= <-]. rewrite Hm. split_and!; [done..|].
    exists []. rewrite !app_nil_r. split; [done|]. by destruct w; simpl in *; subst.
Qed.

(** ** Progress disabled *)

Lemma initialize_disabled (w : ParallelStreamWriter) (names : list string) :
  msg w = None → foldl initialize w names = w.
Proof.
  intros Hm. induction names as [|n names IH]; simpl; [done|].
  unfold initialize at 2. by rewrite Hm.
Qed.

Lemma drain_disabled evs writer errors results x
    writer' errors' results' x' :
  msg writer = None →
  drain (writer, errors, results, x) evs
  = Some (writer', errors', results', x') →
  writer' = writer.
Proof.
  intros Hm. revert errors results x.
  induction evs as [|ev evs IH]; intros errors results x; cbn [drain].
  - by intros [= <- _ _ _].
  - destruct (handle_event _ ev) as [[[[w1 e1] r1] x1]|] eqn:Hev; simpl; [|done].
    assert (w1 = writer) as ->; [|apply IH].
    destruct ev as [[o res] [[expl|m| |e]|]]; simpl in Hev;
      unfold write in Hev; rewrite ?Hm in Hev; simpl in Hev; congruence.
Qed.

(** With [msg] [None] the call never fails in [writer.write], whatever the
    events, and all that is written to the stream are the summary lines of
    the error map. *)
Theorem disabled_progress_writes_summary_only evs :
  ∃ errors results x,
    drain (registered None) evs
    = Some (ParallelStreamWriter_init [] None, errors, results, x)
    ∧ parallel_execute_events None evs
      = Some (summary errors,
              match x with
              | Some e => Raise e
              | None => Return results errors
              end).
Proof.
  assert (registered None = (ParallelStreamWriter_init [] None, ∅, [], None))
    as Hreg.
  { unfold registered. f_equal. f_equal. f_equal.
    assert (∀ (l : list Obj) w, msg w = None →
              foldl (λ writer obj, initialize writer (get_name obj)) w l = w)
      as Hgen.
    { induction l as [|o l IH]; intros w Hm; simpl; [done|].
      assert (initialize w (get_name o) = w) as ->; [|by apply IH].
      unfold initialize. by rewrite Hm. }
    by apply Hgen. }
  destruct (drain_total evs (ParallelStreamWriter_init [] None) ∅ [] None)
    as [[[[w e] res] x] Hd]; [by left|].
  pose proof (drain_disabled evs (ParallelStreamWriter_init [] None) _ _ _ _ _ _ _ eq_refl Hd) as ->.
  exists e, res, x. rewrite Hreg. split; [done|].
  rewrite <-Hreg in Hd.
  by rewrite (parallel_execute_events_drain None _ _ _ _ _ Hd).
Qed.

(** ** What the stream holds at the end *)

Lemma write_stream w name status w' (m : string) :
  msg w = Some m → write w name status = Some w' →
  name ∈ lines w
  ∧ stream w'
    = stream w
      ++ (let diff := length (lines w) - default 0 (index name (lines w)) in
          [ESC +:+ "[" +:+ fmt_d diff +:+ "A";
           ESC +:+ "[2K" +:+ CR;
           m +:+ " " +:+ name +:+ " ... " +:+ status +:+ CR;
           ESC +:+ "[" +:+ fmt_d diff +:+ "B"]).
Proof.
  intros Hm. unfold write. rewrite Hm.
  destruct (index name (lines w)) as [i|] eqn:Hi; simpl; [|done].
  intros [= <-]. simpl. split; [|done].
  apply index_Some in Hi as [Hi _]. by eapply list_elem_of_lookup_2.
Qed.

Lemma drain_stream evs writer errors results x
    writer' errors' results' x' (m : string) :
  msg writer = Some m →
  drain (writer, errors, results, x) evs
  = Some (writer', errors', results', x') →
  (∀ ev, ev ∈ evs → unexpected ev = false →
     get_name (ev_obj ev) ∈ lines writer)
  ∧ stream writer'
    = stream writer
      ++ mjoin ((λ ev,
           let name := get_name (ev_obj ev) in
           let diff := length (lines writer)
                       - default 0 (index name (lines writer)) in
           [ESC +:+ "[" +:+ fmt_d diff +:+ "A";
            ESC +:+ "[2K" +:+ CR;
            m +:+ " " +:+ name +:+ " ... "
              +:+ (if ev_exception ev is None then "done" else "error")
              +:+ CR;
            ESC +:+ "[" +:+ fmt_d diff +:+ "B"])
         <$> filter (λ ev, unexpected ev = false) evs).
Proof.
  revert writer errors results x.
  induction evs as [|ev evs IH]; intros writer errors results x Hm; cbn [drain].
  - intros [= <- _ _ _]. split.
    + intros ev Hev. by apply elem_of_nil in Hev.
    + by rewrite filter_nil, fmap_nil, app_nil_r.
  - destruct (handle_event _ ev) as [[[[w1 e1] r1] x1]|] eqn:Hev; simpl; [|done].
    intros Hd.
    destruct (handle_event_fields _ _ _ _ _ _ _ _ _ Hev) as [Hm1 Hl1].
    rewrite Hm in Hm1.
    destruct (IH _ _ _ _ Hm1 Hd) as (Hreg & Hout). rewrite Hout, Hl1.
    rewrite Hl1 in Hreg. clear IH Hd Hout.
    destruct ev as [[o res] [[expl|m'| |e]|]]; simpl in Hev;
      try (destruct (write writer _ _) as [w2|] eqn:Hw; simpl in Hev; [|done];
           injection Hev as <- _ _ _;
           destruct (write_stream _ _ _ _ m Hm Hw) as (Hin & ->);
           split;
           [intros ev [->|Hev]%elem_of_cons Hu; [done|by apply Hreg]
           |rewrite filter_cons_True by done;
            rewrite fmap_cons; cbn [mjoin list_join];
            by rewrite <-(assoc_L (++))]).
    injection Hev as <- _ _ _. split.
    + intros ev [->|Hev]%elem_of_cons Hu; [done|by apply Hreg].
    + by rewrite filter_cons_False.
Qed.

Lemma foldl_initialize_names (l : list Obj) (w : ParallelStreamWriter) :
  foldl (λ writer obj, initialize writer (get_name obj)) w l
  = foldl initialize w (get_name <$> l).
Proof. revert w. induction l as [|o l IH]; intros w; simpl; [done|]. apply IH. Qed.

(** With progress enabled, the stream at the end of the call is: one
    registration line per object, in the order of the object list; then,
    for every event except those of unexpected failures, whose status line
    is never rewritten, the four strings that rewrite the line of the
    object's name (which is registered) with [done] or [error]; then the
    summary lines of the error map the loop has built, which is the map
    returned when the call returns. *)
Theorem stream_layout (m : string) evs s out :
  parallel_execute_events (Some m) evs = Some (s, out) →
  ∃ writer errors results x,
    drain (registered (Some m)) evs = Some (writer, errors, results, x)
    ∧ out = match x with
            | Some e => Raise e
            | None => Return results errors
            end
    ∧ (∀ ev, ev ∈ evs → unexpected ev = false →
         get_name (ev_obj ev) ∈ get_name <$> objects)
    ∧ s = ((λ o, m +:+ " " +:+ get_name o +:+ " ... " +:+ CR +:+ LF)
           <$> objects)
          ++ mjoin ((λ ev,
               let name := get_name (ev_obj ev) in
               let diff := length objects
                           - default 0 (index name (get_name <$> objects)) in
               [ESC +:+ "[" +:+ fmt_d diff +:+ "A";
                ESC +:+ "[2K" +:+ CR;
                m +:+ " " +:+ name +:+ " ... "
                  +:+ (if ev_exception ev is None then "done" else "error")
                  +:+ CR;
                ESC +:+ "[" +:+ fmt_d diff +:+ "B"])
             <$> filter (λ ev, unexpected ev = false) evs)
          ++ summary errors.
Proof.
  unfold parallel_execute_events.
  destruct (drain (registered (Some m)) evs) as [[[[w e] res] x]|] eqn:Hd;
    simpl; [|done].
  intros Hout. exists w, e, res, x. split; [done|].
  assert (s = stream w ++ summary e
          ∧ out = match x with
                  | Some e' => Raise e'
                  | None => Return res e
                  end) as [-> ->] by (destruct x; by injection Hout as <- <-).
  split; [done|].
  unfold registered in Hd.
  rewrite foldl_initialize_names, (initialize_all _ m) in Hd by done.
  eapply drain_stream in Hd as (Hreg & Hs); [|reflexivity].
  simpl in Hreg, Hs. split; [done|].
  rewrite Hs, length_fmap, <-list_fmap_compose.
  by rewrite <-(assoc_L (++)).
Qed.

(** ** Failures with a known cause *)

Lemma unexpected_false (ev : event) :
  unexpected ev = false ↔ ∀ e, ev_exception ev ≠ Some (OtherError e).
Proof.
  unfold unexpected. destruct (ev_exception ev) as [[?|?| |e]|]; split;
    try done; try (intros _ e'; discriminate).
  intros Hne. by destruct (Hne e).
Qed.

(** When no event carries an unexpected failure, the call returns normally
    with the results of the successful events, in the order of the events,
    and with an error map that has an entry exactly for the names of the
    events that carry an [APIError] or an [OperationFailedError]; the
    entry is the explanation, or the message, of the last such event with
    that name (successes and upstream failures of that name may follow),
    and it has its summary line in the stream. *)
Theorem explained_failures_returned (m : option string) evs :
  (∀ ev, ev ∈ evs → ev_obj ev ∈ objects) →
  (∀ ev, ev ∈ evs → unexpected ev = false) →
  ∃ writer errors results,
    parallel_execute_events m evs
    = Some (stream writer ++ summary errors, Return results errors)
    ∧ results = ev_result <$> filter (λ ev, ev_exception ev = None) evs
    ∧ (∀ n, is_Some (errors !! n)
            ↔ ∃ ev s, ev ∈ evs ∧ get_name (ev_obj ev) = n
                      ∧ (ev_exception ev = Some (APIError s)
                         ∨ ev_exception ev = Some (OperationFailedError s)))
    ∧ (∀ evs1 o res exc s evs2,
         evs = evs1 ++ (o, res, Some exc) :: evs2 →
         exc = APIError s ∨ exc = OperationFailedError s →
         (∀ ev s', ev ∈ evs2 → get_name (ev_obj ev) = get_name o →
            ev_exception ev ≠ Some (APIError s')
            ∧ ev_exception ev ≠ Some (OperationFailedError s')) →
         errors !! get_name o = Some (ErrText s)
         ∧ LF +:+ "ERROR: for " +:+ get_name o +:+ "  " +:+ s +:+ LF
           ∈ summary errors).
Proof.
  intros Hobj Hexp.
  destruct (drain_registered_total m evs Hobj) as [[[[w e] res] x] Hd].
  assert (x = None) as ->.
  { unfold registered in Hd.
    eapply (drain_reraise_unchanged evs); [|exact Hd].
    intros ev e' Hev. by apply unexpected_false, Hexp. }
  exists w, e, res. split_and!.
  - by rewrite (parallel_execute_events_drain m _ _ _ _ _ Hd).
  - unfold registered in Hd. by rewrite (drain_results _ _ _ _ _ _ _ _ _ Hd).
  - intros n. unfold registered in Hd.
    rewrite (drain_errors_dom _ _ _ _ _ _ _ _ _ n Hd). rewrite dict_lookup_empty.
    split.
    + intros [[? ?]|(ev & exc & Hev & Hn & He & Hne)]; [done|].
      pose proof (Hexp ev Hev) as Hu. unfold unexpected in Hu. rewrite He in Hu.
      destruct exc as [s|s| |?]; [| |done..]; exists ev, s; eauto.
    + intros (ev & s & Hev & Hn & [He|He]); right; exists ev; eexists;
        split_and!; done.
  - intros evs1 o res' exc s evs2 -> Hexc Hnames.
    assert (∀ ev, ev ∈ evs2 → get_name (ev_obj ev) = get_name o →
              ev_exception ev = None ∨ ev_exception ev = Some UpstreamError)
      as Hlast.
    { intros ev Hev Hn.
      assert (unexpected ev = false) as Hu.
      { apply Hexp. apply elem_of_app. right. by right. }
      unfold unexpected in Hu.
      destruct (ev_exception ev) as [[s'|s'| |?]|] eqn:He; [| |by right|done|by left].
      - by destruct (Hnames ev s' Hev Hn) as [Ha _].
      - by destruct (Hnames ev s' Hev Hn) as [_ Ho]. }
    assert (e !! get_name o = Some (ErrText s)) as Hentry.
    { rewrite drain_app in Hd. cbn [drain] in Hd.
      destruct (drain (registered m) evs1) as [[[[w1 e1] r1] x1]|]; [|done].
      destruct Hexc as [-> | ->]; simpl in Hd;
        (destruct (write w1 _ _) as [w2|]; simpl in Hd; [|done]);
        (erewrite (drain_errors_unchanged evs2 (get_name o)); [|..|exact Hd];
         [apply dict_lookup_insert_eq|done]). }
    split; [done|].
    by apply (summary_line e (get_name o) (ErrText s)).
Qed.


(** ** No objects *)

Lemma empty_outcome (m : option string) :
  objects = [] →
  (∃ out, parallel_execute m out)
  ∧ ∀ out, parallel_execute m out → out = ([], Return [] ∅).
Proof.
  intros Hobj. split.
  - apply execute_ends.
    + intros o Htc. apply tc_dep_edge_objects in Htc.
      rewrite Hobj in Htc. by apply elem_of_nil in Htc.
    + rewrite Hobj. constructor.
  - intros out (r & Hr & Hpc & Hout).
    assert (yielded r = []) as Hy.
    { destruct (yielded r) as [|ev l] eqn:Hl; [done|]. exfalso.
      assert (ev_obj ev ∈ objects) as Hin.
      { apply (yielded_objects r); [by apply inv_reachable|]. rewrite Hl. left. }
      rewrite Hobj in Hin. by apply elem_of_nil in Hin. }
    rewrite Hy in Hout. unfold parallel_execute_events, registered in Hout.
    rewrite Hobj in Hout. simpl in Hout. injection Hout as <-.
    done.
Qed.

(** With an empty object list the call ends, and it can only end by
    returning no results and no errors, with nothing written to the
    stream. *)
Theorem empty_run (m : option string) :
  objects = [] →
  (∃ out, parallel_execute m out)
  ∧ ∀ out, parallel_execute m out → out = ([], Return [] ∅).
Proof. apply empty_outcome. Qed.

End parallel.
(** * The theorems at sample inputs *)

Lemma admission_gate_witness :
  let r := sched_run [0; 1; 2] work_ok chain_deps
             [Feed [0; 1; 2]; Produce 0; Get] in
  let r' := set_pc AtGet (feed_queue [0; 1; 2] chain_deps [1; 2] r) in
  (1 ∈ threads r' ∧ 0 ∈ finished (state r) ∧ 0 ∉ failed (state r'))
  ∧ (2 ∈ pending [0; 1; 2] (state r') ∧ 2 ∉ threads r').
Proof.
  intros r r'.
  destruct (admission_gate [0; 1; 2] work_ok chain_deps r
              (sched_run_reachable _ _ _ _)) as (Hgate & _ & Hwait).
  split.
  - destruct (Hgate r' 1) as (_ & _ & Ht & Hd).
    + constructor; compute_done.
    + compute_done.
    + compute_done.
    + destruct (Hd 0) as (? & ? & _); [compute_done..|]. done.
  - apply (Hwait [1; 2] 2 1); try compute_done.
    intros d' Hd'. apply list_elem_of_singleton in Hd' as ->. compute_done.
Defined.

Lemma upstream_failure_shortcut_witness :
  let r := sched_run [0; 1; 2] work_fail0 chain_deps
             [Feed [0; 1; 2]; Produce 0; Get] in
  let r' := set_pc AtGet (feed_queue [0; 1; 2] chain_deps [2; 1] r) in
  1 ∈ failed (state r')
  ∧ Ev (1, None, Some UpstreamError) ∈ results r'
  ∧ 1 ∉ invoked r'.
Proof.
  intros r r'.
  destruct (upstream_failure_shortcut [0; 1; 2] work_fail0 chain_deps
              r [2; 1] 1 0) as (_ & Hf & Hev & Hrest).
  - apply sched_run_reachable.
  - vm_compute. reflexivity.
  - compute_done.
  - compute_done.
  - compute_done.
  - compute_done.
  - compute_done.
  - destruct (Hrest r' (rtc_refl _ _)) as (_ & _ & _ & Hinv). done.
Defined.

Lemma scheduling_state_invariant_witness :
  let r1 := sched_run [0; 1; 2] work_ok chain_deps [Feed [0; 1; 2]] in
  let r2 := sched_run [0; 1; 2] work_ok chain_deps
              [Feed [0; 1; 2]; Produce 0] in
  let r3 := sched_run [0; 1; 2] work_ok chain_deps
              [Feed [0; 1; 2]; Produce 0; Get] in
  entries started 0 run_init [r1; r2; r3] ≤ 1
  ∧ entries finished 0 run_init [r1; r2; r3]
    + entries failed 0 run_init [r1; r2; r3] ≤ 1
  ∧ size (pending [0; 1; 2] (state r3)) = 2
  ∧ (is_done [0; 1; 2] (state r3) = true
     ↔ size (universe [0; 1; 2])
       ≤ size (finished (state r3)) + size (failed (state r3))).
Proof.
  intros r1 r2 r3.
  destruct (scheduling_state_invariant [0; 1; 2] work_ok chain_deps
              run_init [r1; r2; r3] 0) as (H1 & H2 & _ & _ & Hp & _ & Hd).
  - apply rtc_refl.
  - simpl. split_and!; [| | |done].
    + apply (sched_step_sound _ _ _ (Feed [0; 1; 2])). vm_compute. reflexivity.
    + apply (sched_step_sound _ _ _ (Produce 0)). vm_compute. reflexivity.
    + apply (sched_step_sound _ _ _ Get). vm_compute. reflexivity.
  - assert (r3 ∈ [run_init; r1; r2; r3]) as Hin
      by (do 3 apply list_elem_of_further; apply list_elem_of_here).
    assert (NoDup [0; 1; 2]) as Hnd by compute_done.
    split_and!; [done|done| |].
    + destruct (proj1 (Forall_forall _ _) Hp r3 Hin) as [_ Hsz].
      assert (size (started (state r3)
                      ∖ (finished (state r3) ∪ failed (state r3))) = 0)
        as Hfl by compute_done.
      assert (size (finished (state r3)) = 1) as Hfin by compute_done.
      assert (size (failed (state r3)) = 0) as Hfail by compute_done.
      assert (size (universe [0; 1; 2]) = 3) as Hu by compute_done.
      lia.
    + exact (proj1 (Forall_forall _ _) (Hd Hnd) r3 Hin).
Defined.

(** With an object listed twice the universe has fewer elements than the
    list, and [is_done()] stays false although [|finished| + |failed|] has
    reached the size of the universe. *)
Lemma is_done_compares_with_list_length :
  let r := sched_run [0; 0] work_ok _no_deps [Feed [0]; Produce 0; Get] in
  reachable [0; 0] work_ok _no_deps r
  ∧ pending [0; 0] (state r) = ∅
  ∧ size (universe [0; 0]) = 1
  ∧ size (finished (state r)) + size (failed (state r)) = 1
  ∧ is_done [0; 0] (state r) = false.
Proof.
  intros r. split; [apply sched_run_reachable|]. split_and!; compute_done.
Qed.

Lemma one_event_per_object_witness :
  let r := sched_run [0; 1; 2] work_ok chain_deps
             [Feed [0; 1; 2]; Produce 0; Get; Feed [1; 2]; Produce 0; Get;
              Feed [2]; Produce 0; Get; Feed []; Get] in
  NoDup (ev_obj <$> yielded r) ∧ ev_obj <$> yielded r ≡ₚ [0; 1; 2].
Proof.
  intros r.
  destruct (one_event_per_object [0; 1; 2] work_ok chain_deps r)
    as (Hnd & _ & Hall & _).
  - apply (ranked_acyclic _ _ id). vm_compute. reflexivity.
  - compute_done.
  - apply sched_run_reachable.
  - split; [done|]. apply Hall. vm_compute. reflexivity.
Defined.

(** C3 as it is stated, without the condition on repeated objects, fails:
    for the object list [[0; 0]] without dependencies the graph is acyclic
    and the work function returns, yet the coordinator never leaves its
    loop, so the sequence of events never ends. *)
Lemma repeated_object_sequence_never_ends :
  acyclic [0; 0] _no_deps
  ∧ ∀ r, reachable [0; 0] work_ok _no_deps r → pc r ≠ Stopped.
Proof.
  split.
  - apply (ranked_acyclic _ _ id). vm_compute. reflexivity.
  - intros r Hr. apply (dup_never_done [0; 0] work_ok _no_deps r); [|done].
    compute_done.
Qed.

Lemma repeated_object_never_done_witness :
  let r := sched_run [0; 0] work_ok _no_deps
             [Feed [0]; Produce 0; Get; Feed []; Get] in
  is_done [0; 0] (state r) = false ∧ pc r ≠ Stopped
  ∧ ev_obj <$> yielded r = [0].
Proof.
  intros r.
  destruct (repeated_object_never_done [0; 0] work_ok _no_deps r)
    as (_ & Hd & _ & Hpc & _).
  - compute_done.
  - apply sched_run_reachable.
  - split_and!; [done..|]. vm_compute. reflexivity.
Defined.

Lemma cycle_stalls_witness :
  let r := sched_run [0; 1; 2] work_ok cycle_deps
             [Feed [0; 1; 2]; Produce 0; Get; Feed [1; 2]; Get] in
  0 ∈ finished (state r) ∧ 1 ∉ started (state r) ∧ 2 ∉ started (state r)
  ∧ is_done [0; 1; 2] (state r) = false ∧ pc r ≠ Stopped.
Proof.
  intros r.
  assert (dep_edge [0; 1; 2] cycle_deps 1 2) as H12
    by (split_and!; compute_done).
  assert (dep_edge [0; 1; 2] cycle_deps 2 1) as H21
    by (split_and!; compute_done).
  destruct (cycle_stalls [0; 1; 2] work_ok cycle_deps 1 r)
    as (Hreach & Hstall & _).
  - eapply tc_l; [exact H12|]. by apply tc_once.
  - apply sched_run_reachable.
  - destruct (Hreach 1 (rtc_refl _ _)) as (? & _).
    destruct (Hreach 2 (rtc_once _ _ H21)) as (? & _).
    destruct Hstall as (_ & ? & _ & ?); [compute_done|].
    split_and!; [compute_done|done..].
Defined.

(** C8 as it is stated fails: with a cycle between 1 and 2, where 1 also
    depends on 0 and the work on 0 fails, both objects of the cycle are
    failed by the upstream cascade, the run is done and the coordinator
    stops after one event per object. *)
Lemma cycle_with_failed_dependency_ends :
  has_cycle [0; 1; 2] cycle_deps
  ∧ ∃ r, reachable [0; 1; 2] work_fail0 cycle_deps r
         ∧ is_done [0; 1; 2] (state r) = true
         ∧ pc r = Stopped
         ∧ yielded r = [(0, None, Some (OtherError "boom"));
                        (1, None, Some UpstreamError);
                        (2, None, Some UpstreamError)].
Proof.
  split.
  - exists 1. apply (tc_l _ 1 2 1); [|apply tc_once]; split_and!; compute_done.
  - exists (sched_run [0; 1; 2] work_fail0 cycle_deps
              [Feed [0; 1; 2]; Produce 0; Get; Feed [1; 2]; Get; Feed []; Get;
               Feed []; Get]).
    split; [apply sched_run_reachable|]. split_and!; vm_compute; reflexivity.
Qed.

Lemma write_emits_witness :
  write {| stream := []; msg := Some "Starting"; lines := ["web"; "db"] |}
        "db" "done"
  = Some {| stream := [ESC +:+ "[1A"; ESC +:+ "[2K" +:+ CR;
                       "Starting db ... done" +:+ CR; ESC +:+ "[1B"];
            msg := Some "Starting";
            lines := ["web"; "db"] |}.
Proof.
  apply (write_emits
           {| stream := []; msg := Some "Starting"; lines := ["web"; "db"] |}
           "Starting" "db" "done" 1).
  - reflexivity.
  - reflexivity.
  - intros j Hj. assert (j = 0) as -> by lia. simpl. discriminate.
Defined.

Lemma unexpected_error_recorded_witness :
  ∃ s e',
    parallel_execute_events [0; 1] name_of str_of (Some "Starting")
      [(0, None, Some (OtherError "boom")); (1, Some 10, None)]
    = Some (s, Raise (OtherError e')).
Proof.
  destruct (unexpected_error_recorded [0; 1] name_of str_of (Some "Starting")
              [(0, None, Some (OtherError "boom")); (1, Some 10, None)]
              [] 0 None "boom" [(1, Some 10, None)])
    as (_ & writer & errors & results & o' & res' & e' & _ & _ & _ & _ & Hout).
  - reflexivity.
  - apply Forall_forall. compute_done.
  - exists (stream writer ++ summary str_of errors), e'. exact Hout.
Defined.

(** C5 as it is stated fails in one point: the entry recorded for an
    unexpected failure is the exception object, not its string. *)
Lemma unexpected_error_entry_is_the_exception :
  ∃ writer errors results x,
    drain (Err:=string) name_of (registered [0] name_of (Some "Starting"))
      [(0, @None nat, Some (OtherError "boom"))]
    = Some (writer, errors, results, x)
    ∧ errors !! "web" = Some (ErrExc (OtherError "boom"))
    ∧ errors !! "web" ≠ Some (ErrText (str_of (OtherError "boom"))).
Proof.
  eexists _, _, _, _. split_and!.
  - unfold registered. cbn [drain]. rewrite handle_unexpected. reflexivity.
  - apply dict_lookup_insert_eq.
  - rewrite dict_lookup_insert_eq. discriminate.
Qed.

Lemma upstream_failure_not_in_errors_witness :
  ∃ writer errors results x,
    drain (Err:=string) name_of (registered [0; 1] name_of (Some "Starting"))
      [(0, @None nat, Some (APIError "boom")); (1, None, Some UpstreamError)]
    = Some (writer, errors, results, x)
    ∧ errors !! "db" = None
    ∧ (∀ k v, (k, v) ∈ items errors → k ≠ "db").
Proof.
  destruct (upstream_failure_not_in_errors [0; 1] name_of str_of
              (Some "Starting")
              [(0, @None nat, Some (APIError "boom"));
               (1, None, Some (@UpstreamError string))] "db")
    as (_ & writer & errors & results & x & Hd & Hn & Hl & _).
  - apply Forall_forall. compute_done.
  - apply (proj1 (Forall_forall
      (λ ev : event nat nat string,
         name_of (ev_obj ev) = "db" → ev_exception ev = Some UpstreamError)
      _)).
    compute_done.
  - exists writer, errors, results, x. done.
Defined.

Lemma last_unexpected_error_wins_witness :
  ∃ writer errors,
    parallel_execute_events [0; 1; 2] name_of str_of (Some "Starting")
      [(0, None, Some (OtherError "first")); (1, Some 10, None);
       (2, None, Some (OtherError "last"))]
    = Some (stream writer ++ summary str_of errors, Raise (OtherError "last"))
    ∧ errors !! "web" = Some (ErrExc (OtherError "first"))
    ∧ errors !! "cache" = Some (ErrExc (OtherError "last")).
Proof.
  destruct (last_unexpected_error_wins [0; 1; 2] name_of str_of
              (Some "Starting")
              [(0, None, Some (OtherError "first")); (1, Some 10, None);
               (2, None, Some (OtherError "last"))]
              [] 0 None "first" [(1, Some 10, None)] 2 None "last" [])
    as (writer & errors & results & _ & Hout & _ & _ & H1 & H2).
  - reflexivity.
  - apply Forall_forall. compute_done.
  - intros ev e Hev. by apply elem_of_nil in Hev.
  - exists writer, errors. split_and!; [exact Hout| |].
    + apply H1.
      apply (proj1 (Forall_forall
                      (λ ev, name_of (ev_obj ev) = name_of 0 →
                             ev_exception ev = None
                             ∨ ev_exception ev = Some UpstreamError) _)).
      repeat constructor; simpl; try done.
    + apply H2. intros ev Hev. by apply elem_of_nil in Hev.
Defined.

(** C10 as it is stated fails when two objects have the same name: the
    entry of the earlier unexpected error is replaced by the later one, and
    the earlier error is neither in the error map nor in the summary. *)
Lemma earlier_error_replaced_under_shared_name :
  let work := λ o : nat,
    inr (OtherError (if decide (o = 2) then "first" else "last"))
    : nat + exn string in
  let r := sched_run [2; 3] work _no_deps
             [Feed [2; 3]; Produce 0; Produce 0; Get; Feed []; Get;
              Feed []; Get] in
  reachable [2; 3] work _no_deps r
  ∧ pc r = Stopped
  ∧ yielded r = [(2, None, Some (OtherError "first"));
                 (3, None, Some (OtherError "last"))]
  ∧ name_of 2 = name_of 3
  ∧ ∃ writer errors results,
      drain name_of (registered [2; 3] name_of (Some "Starting")) (yielded r)
      = Some (writer, errors, results, Some (OtherError "last"))
      ∧ parallel_execute_events [2; 3] name_of str_of (Some "Starting")
          (yielded r)
        = Some (stream writer ++ summary str_of errors,
                Raise (OtherError "last"))
      ∧ items errors = [("cache", ErrExc (OtherError "last"))]
      ∧ errors !! name_of 2 ≠ Some (ErrExc (OtherError "first"))
      ∧ summary str_of errors
        = [LF +:+ "ERROR: for cache  last" +:+ LF].
Proof.
  intros work r. split; [apply sched_run_reachable|].
  assert (yielded r = [(2, None, Some (OtherError "first"));
                       (3, None, Some (OtherError "last"))]) as Hy
    by (vm_compute; reflexivity).
  split_and!; [vm_compute; reflexivity|exact Hy|done|].
  rewrite Hy. eexists _, _, _. split_and!.
  - vm_compute. reflexivity.
  - vm_compute. reflexivity.
  - reflexivity.
  - vm_compute. discriminate.
  - reflexivity.
Qed.

(** * Operations on containers *)

Section containers.
Context {Container : Type} `{Countable Container}.
Context {Res Err Options : Type}.

(** [operator.attrgetter('name')], the attribute [is_running] and
    [operator.methodcaller(operation, **options)]: what the callers of
    [parallel_execute] need of a container. *)
Variable name : Container → string.
Variable is_running : Container → bool.
Variable methodcaller : string → Options → Container → Res + exn Err.
Variable str : exn Err → string.

(** [parallel_operation]: no dependency function is passed on. *)
Definition parallel_operation (containers : list Container)
    (operation : string) (options : Options) (message : option string)
    (out : list string * outcome) : Prop :=
  parallel_execute containers (methodcaller operation options)
    (resolve_get_deps None) name str message out.

Definition parallel_remove (containers : list Container) (options : Options)
    (out : list string * outcome) : Prop :=
  let stopped_containers := filter (λ c, is_running c = false) containers in
  parallel_operation stopped_containers "remove" options (Some "Removing") out.

Definition parallel_start (containers : list Container) (options : Options)
    (out : list string * outcome) : Prop :=
  parallel_operation containers "start" options (Some "Starting") out.

Definition parallel_pause (containers : list Container) (options : Options)
    (out : list string * outcome) : Prop :=
  parallel_operation containers "pause" options (Some "Pausing") out.

Definition parallel_unpause (containers : list Container) (options : Options)
    (out : list string * outcome) : Prop :=
  parallel_operation containers "unpause" options (Some "Unpausing") out.

Definition parallel_kill (containers : list Container) (options : Options)
    (out : list string * outcome) : Prop :=
  parallel_operation containers "kill" options (Some "Killing") out.

Definition parallel_restart (containers : list Container) (options : Options)
    (out : list string * outcome) : Prop :=
  parallel_operation containers "restart" options (Some "Restarting") out.

Lemma no_deps_acyclic (containers : list Container) :
  acyclic containers (resolve_get_deps None).
Proof.
  intros c Htc. inversion Htc as [? ? (_ & _ & Hd)|? ? ? (_ & _ & Hd) _];
    by apply elem_of_nil in Hd.
Qed.

Lemma operation_ends (containers : list Container)
    (operation : string) (options : Options) (message : option string) :
  NoDup containers →
  (∃ out, parallel_operation containers operation options message out)
  ∧ ∀ (f : Container → Res) out,
      (∀ c, c ∈ containers → methodcaller operation options c = inl (f c)) →
      parallel_operation containers operation options message out →
      ∃ s results, out = (s, Return results ∅)
                   ∧ results ≡ₚ (λ c, Some (f c)) <$> containers.
Proof.
  intros Hnd. split.
  - apply execute_ends; [apply no_deps_acyclic|done].
  - intros f out Hok Hout.
    by apply (all_success_outcome containers
                (methodcaller operation options) (resolve_get_deps None)
                name str message f out).
Qed.

(** For pairwise distinct containers [parallel_operation] has an ending,
    and when the operation returns on every container, every ending is a
    normal return with no errors and with the operation's result for each
    container. *)
Theorem parallel_operation_ends (containers : list Container)
    (operation : string) (options : Options) (message : option string) :
  NoDup containers →
  (∃ out, parallel_operation containers operation options message out)
  ∧ ∀ (f : Container → Res) out,
      (∀ c, c ∈ containers → methodcaller operation options c = inl (f c)) →
      parallel_operation containers operation options message out →
      ∃ s results, out = (s, Return results ∅)
                   ∧ results ≡ₚ (λ c, Some (f c)) <$> containers.
Proof. apply operation_ends. Qed.

(** [parallel_remove] calls the operation on stopped containers of the
    list only; when every container of the list is running, the call ends,
    and it can only end by returning no results and no errors, with nothing
    written to the stream. *)
Theorem parallel_remove_only_stopped (containers : list Container)
    (options : Options) :
  (∀ r c,
     reachable (filter (λ c, is_running c = false) containers)
       (methodcaller "remove" options) (resolve_get_deps None) r →
     c ∈ invoked r → c ∈ containers ∧ is_running c = false)
  ∧ ((∀ c, c ∈ containers → is_running c = true) →
       parallel_remove containers options ([], Return [] ∅)
       ∧ ∀ out, parallel_remove containers options out →
                out = ([], Return [] ∅)).
Proof.
  split.
  - intros r c Hr Hc. pose proof (inv_reachable _ _ _ r Hr) as Hi.
    assert (c ∈ filter (λ c, is_running c = false) containers) as Hin.
    { apply (elem_of_list_to_set (C:=gset Container)).
      apply (inv_started _ _ r Hi). by apply (inv_invoked _ _ r Hi). }
    by apply list_elem_of_filter in Hin as [? ?].
  - intros Hall.
    assert (filter (λ c, is_running c = false) containers = []) as Hnone.
    { destruct (filter (λ c, is_running c = false) containers) as [|c l] eqn:Hf;
        [done|].
      assert (c ∈ filter (λ c, is_running c = false) containers) as Hin
        by (rewrite Hf; left).
      apply list_elem_of_filter in Hin as [Hr Hc].
      rewrite (Hall c Hc) in Hr. done. }
    destruct (empty_outcome (filter (λ c, is_running c = false) containers)
                (methodcaller "remove" options) (resolve_get_deps None)
                name str (Some "Removing") Hnone) as [[out Hout] Hall_out].
    split; [|exact Hall_out].
    unfold parallel_remove, parallel_operation.
    by rewrite <-(Hall_out out Hout).
Qed.

(** For pairwise distinct containers each of the six operations on
    containers has an ending. *)
Theorem container_operations_end (containers : list Container)
    (options : Options) :
  NoDup containers →
  (∃ out, parallel_remove containers options out)
  ∧ (∃ out, parallel_start containers options out)
  ∧ (∃ out, parallel_pause containers options out)
  ∧ (∃ out, parallel_unpause containers options out)
  ∧ (∃ out, parallel_kill containers options out)
  ∧ (∃ out, parallel_restart containers options out).
Proof.
  intros Hnd. split_and!.
  - apply operation_ends. by apply NoDup_filter.
  - by apply operation_ends.
  - by apply operation_ends.
  - by apply operation_ends.
  - by apply operation_ends.
  - by apply operation_ends.
Qed.

End containers.

(** * The further properties at sample inputs *)

Lemma yielded_event_origin_witness :
  let r := sched_run [0; 1; 2] work_fail0 chain_deps
             [Feed [0; 1; 2]; Produce 0; Get; Feed [1; 2]; Get] in
  1 ∉ invoked r ∧ 1 ∈ failed (state r).
Proof.
  intros r.
  assert (1 ∉ started (state r)) as Hn by compute_done.
  destruct (yielded_event_origin [0; 1; 2] work_fail0 chain_deps r
              (1, None, Some UpstreamError))
    as [(Hs & _)|(_ & Hv & Hf & _)].
  - apply sched_run_reachable.
  - compute_done.
  - done.
  - done.
Defined.

Lemma run_after_dependencies_witness :
  let r := sched_run [0; 1; 2] work_ok chain_deps
             [Feed [0; 1; 2]; Produce 0; Get; Feed [1; 2]; Produce 0; Get;
              Feed [2]; Produce 0; Get; Feed []; Get] in
  (∃ j, j < 1 ∧ invoked r !! j = Some 0) ∧ 0 ∈ finished (state r).
Proof.
  intros r.
  destruct (run_after_dependencies [0; 1; 2] work_ok chain_deps r 1 1 0)
    as (Hj & _ & Hf).
  - apply sched_run_reachable.
  - vm_compute. reflexivity.
  - compute_done.
  - compute_done.
  - done.
Defined.

Lemma failed_dependency_never_runs_witness :
  let r := sched_run [0; 1; 2] work_fail0 chain_deps
             [Feed [0; 1; 2]; Produce 0; Get] in
  1 ∉ started (state r) ∧ 1 ∉ invoked r.
Proof.
  intros r.
  destruct (failed_dependency_never_runs [0; 1; 2] work_fail0 chain_deps
              r 1 0) as (Hs & _ & Hv & _).
  - apply sched_run_reachable.
  - compute_done.
  - compute_done.
  - compute_done.
  - done.
Defined.

Lemma ready_object_is_launched_witness :
  let r := sched_run [0; 1; 2] work_ok chain_deps
             [Feed [0; 1; 2]; Produce 0; Get] in
  1 ∈ threads (feed_queue [0; 1; 2] chain_deps [2; 1] r).
Proof.
  intros r.
  destruct (ready_object_is_launched [0; 1; 2] work_ok chain_deps r [2; 1] 1)
    as (_ & Ht & _).
  - apply sched_run_reachable.
  - compute_done.
  - compute_done.
  - compute_done.
  - intros d Hd _. apply list_elem_of_singleton in Hd as ->. compute_done.
  - done.
Defined.

Lemma nothing_lost_at_stop_witness :
  let r := sched_run [0; 1; 2] work_fail0 chain_deps
             [Feed [0; 1; 2]; Produce 0; Get; Feed [1; 2]; Get; Feed []; Get;
              Feed []; Get] in
  threads r = [] ∧ pending [0; 1; 2] (state r) = ∅.
Proof.
  intros r.
  destruct (nothing_lost_at_stop [0; 1; 2] work_fail0 chain_deps r)
    as (Ht & _ & Hp & _).
  - apply sched_run_reachable.
  - vm_compute. reflexivity.
  - done.
Defined.

Lemma pass_after_timeout_starts_nothing_witness :
  let r := sched_run [0; 1; 2] work_ok chain_deps [Feed [0; 1; 2]] in
  started (state (feed_queue [0; 1; 2] chain_deps [1; 2] (set_pc AtFeed r)))
  = started (state r).
Proof.
  intros r.
  destruct (pass_after_timeout_starts_nothing [0; 1; 2] work_ok chain_deps
              r [1; 2]) as (Hs & _).
  - apply sched_run_reachable.
  - split; vm_compute; reflexivity.
  - compute_done.
  - compute_done.
  - done.
Defined.

Lemma no_deps_all_started_at_once_witness :
  threads (feed_queue [0; 1; 2] (resolve_get_deps None) [2; 0; 1]
             (run_init (Res:=nat) (Err:=string)))
  = [2; 0; 1].
Proof.
  destruct (no_deps_all_started_at_once [0; 1; 2] work_ok
              (resolve_get_deps None) [2; 0; 1]) as ((Ht & _) & _).
  - reflexivity.
  - compute_done.
  - compute_done.
  - done.
Defined.

Lemma parallel_execute_ends_witness :
  ∃ out,
    parallel_execute [0; 1; 2] work_ok chain_deps name_of str_of
      (Some "Starting") out.
Proof.
  apply parallel_execute_ends.
  - apply (ranked_acyclic _ _ id). vm_compute. reflexivity.
  - compute_done.
Defined.

Lemma all_success_returns_all_witness :
  let r := sched_run [0; 1] work_ok chain_deps
             [Feed [0; 1]; Produce 0; Get; Feed [1]; Produce 0; Get;
              Feed []; Get] in
  match parallel_execute_events [0; 1] name_of str_of None (yielded r) with
  | Some out =>
      ∃ s results, out = (s, Return results ∅)
                   ∧ results ≡ₚ (λ o, Some (10 * o)) <$> [0; 1]
  | None => False
  end.
Proof.
  intros r.
  destruct (parallel_execute_events [0; 1] name_of str_of None (yielded r))
    as [out|] eqn:Hout.
  - apply (all_success_returns_all [0; 1] work_ok chain_deps name_of str_of
             None (λ o, 10 * o) out).
    + compute_done.
    + intros o _. reflexivity.
    + exists r. split_and!; [apply sched_run_reachable| |done].
      vm_compute. reflexivity.
  - vm_compute in Hout. discriminate.
Defined.

Lemma empty_run_witness :
  ∃ out,
    parallel_execute [] work_ok chain_deps name_of str_of (Some "Starting")
      out.
Proof.
  destruct (empty_run [] work_ok chain_deps name_of str_of (Some "Starting"))
    as [Hex _]; [reflexivity|done].
Defined.

Lemma write_after_initialize_witness :
  write (foldl initialize (ParallelStreamWriter_init [] (Some "Starting"))
           ["web"; "db"]) "web" "done"
  = Some {| stream :=
              ["Starting web ... " +:+ CR +:+ LF;
               "Starting db ... " +:+ CR +:+ LF;
               ESC +:+ "[2A"; ESC +:+ "[2K" +:+ CR;
               "Starting web ... done" +:+ CR; ESC +:+ "[2B"];
            msg := Some "Starting";
            lines := ["web"; "db"] |}.
Proof.
  refine (proj2 (write_after_initialize "Starting" ["web"; "db"] "web" "done"
                   0 _ _)).
  - reflexivity.
  - intros j Hj. lia.
Defined.

Lemma write_twice_witness :
  ∃ out,
    write {| stream := [ESC +:+ "[1A"; ESC +:+ "[2K" +:+ CR;
                        "Starting web ... done" +:+ CR; ESC +:+ "[1B"];
             msg := Some "Starting"; lines := ["web"] |} "web" "done"
    = Some {| stream := [ESC +:+ "[1A"; ESC +:+ "[2K" +:+ CR;
                         "Starting web ... done" +:+ CR; ESC +:+ "[1B"]
                        ++ out;
              msg := Some "Starting"; lines := ["web"] |}
    ∧ [ESC +:+ "[1A"; ESC +:+ "[2K" +:+ CR;
       "Starting web ... done" +:+ CR; ESC +:+ "[1B"] = [] ++ out.
Proof.
  destruct (write_twice
              {| stream := []; msg := Some "Starting"; lines := ["web"] |}
              {| stream := [ESC +:+ "[1A"; ESC +:+ "[2K" +:+ CR;
                            "Starting web ... done" +:+ CR; ESC +:+ "[1B"];
                 msg := Some "Starting"; lines := ["web"] |}
              "web" "done") as (_ & _ & out & Hs & Hw).
  - reflexivity.
  - exists out. split; [exact Hw|exact Hs].
Defined.

Lemma stream_layout_witness :
  match parallel_execute_events [0; 1] name_of str_of (Some "Starting")
          [(0, Some 0, None); (1, None, Some (OtherError "boom"))] with
  | Some (s, out) =>
      out = Raise (OtherError "boom")
      ∧ s = ["Starting web ... " +:+ CR +:+ LF;
             "Starting db ... " +:+ CR +:+ LF;
             ESC +:+ "[2A";
             ESC +:+ "[2K" +:+ CR;
             "Starting web ... done" +:+ CR;
             ESC +:+ "[2B";
             LF +:+ "ERROR: for db  boom" +:+ LF]
  | None => False
  end.
Proof.
  destruct (parallel_execute_events [0; 1] name_of str_of (Some "Starting")
              [(0, Some 0, None); (1, None, Some (OtherError "boom"))])
    as [[s out]|] eqn:Hout.
  - destruct (stream_layout [0; 1] name_of str_of "Starting" _ s out Hout)
      as (writer & errors & results & x & Hd & Ho & _ & Hs).
    vm_compute in Hd. injection Hd as <- <- <- <-.
    split; [exact Ho|]. rewrite Hs. vm_compute. reflexivity.
  - vm_compute in Hout. discriminate.
Defined.

Lemma explained_failures_returned_witness :
  ∃ s results errors,
    parallel_execute_events [2; 3] name_of str_of (Some "Starting")
      [(2, @None nat, Some (APIError "boom")); (3, None, Some UpstreamError)]
    = Some (s, Return results errors)
    ∧ errors !! "cache" = Some (ErrText "boom")
    ∧ errors !! "web" = None.
Proof.
  destruct (explained_failures_returned [2; 3] name_of str_of
              (Some "Starting")
              [(2, @None nat, Some (APIError "boom"));
               (3, None, Some (@UpstreamError string))])
    as (writer & errors & results & Hout & _ & Hdom & Hval).
  - apply Forall_forall. compute_done.
  - apply Forall_forall. compute_done.
  - exists (stream writer ++ summary str_of errors), results, errors.
    split_and!; [exact Hout| |].
    + apply (Hval [] 2 None (APIError "boom") "boom"
               [(3, None, Some UpstreamError)]); [reflexivity|by left|].
      intros ev s' Hev%list_elem_of_singleton _. subst ev. done.
    + apply eq_None_not_Some. rewrite Hdom.
      intros (ev & s & Hev & Hn & Hexc). revert Hev Hn Hexc.
      rewrite !elem_of_cons, elem_of_nil.
      intros [-> | [-> | []]]; simpl; discriminate.
Defined.

Lemma parallel_operation_ends_witness :
  ∃ out,
    parallel_operation name_of (λ (_ : string) (_ : unit) c, work_ok c) str_of
      [0; 1] "start" tt (Some "Starting") out.
Proof.
  destruct (parallel_operation_ends name_of
              (λ (_ : string) (_ : unit) c, work_ok c) str_of
              [0; 1] "start" tt (Some "Starting")) as [Hex _].
  - compute_done.
  - exact Hex.
Defined.

Lemma parallel_remove_only_stopped_witness :
  parallel_remove name_of (λ _ : nat, true)
    (λ (_ : string) (_ : unit) c, work_ok c) str_of [0; 1] tt
    ([], Return [] ∅).
Proof.
  destruct (parallel_remove_only_stopped name_of (λ _ : nat, true)
              (λ (_ : string) (_ : unit) c, work_ok c) str_of [0; 1] tt)
    as [_ Hnone].
  destruct Hnone as [Hend _]; [done|exact Hend].
Defined.

Lemma container_operations_end_witness :
  ∃ out,
    parallel_kill name_of (λ (_ : string) (_ : unit) c, work_fail0 c) str_of
      [0; 1] tt out.
Proof.
  destruct (container_operations_end name_of (λ c, bool_decide (c = 1))
              (λ (_ : string) (_ : unit) c, work_fail0 c) str_of
              [0; 1] tt) as (_ & _ & _ & _ & Hkill & _).
  - compute_done.
  - exact Hkill.
Defined.
